(** * Drossel-Schwabl forest fire model with fire-cluster tracking

    Shallow embedding of [ForestFireModel] from
    [src/drossel-schwabl_forest_fire_model.py] and proofs about its
    cluster bookkeeping.

    Modelling conventions.
    - A numpy [N x N] array is a list of rows ([ndarray]); every vectorised
      numpy expression is embedded by its element-wise meaning, rebuilt
      with [build] over the index range of the grid.
    - numpy integers are modelled by [Z]; the 64-bit range of [dtype=int]
      is never approached by a cluster counter that grows by at most
      [N * N] per step, and is not modelled.
    - [np.random.random(shape)] is an input of the function that calls it:
      an array of rationals (every finite float is a rational, and the only
      use of a draw is the comparison [draw < p]).
    - Python dictionaries are [gmap]s, Python sets are [gset]s, and a loop
      over a set or dictionary is a fold over its elements.
    - [collections.deque(maxlen=...)] is a record of its bound and items. *)

From Stdlib Require Import ZArith QArith List Lia Sorted.
From stdpp Require Import gmap list fin_maps fin_sets strings.

Local Open Scope Z_scope.

(** ** numpy arrays *)

Definition ndarray (A : Type) : Type := list (list A).

Definition build {A : Type} (n : nat) (f : nat -> nat -> A) : ndarray A :=
  List.map (fun i => List.map (fun j => f i j) (seq 0 n)) (seq 0 n).

Definition get {A : Type} (d : A) (a : ndarray A) (i j : nat) : A :=
  nth j (nth i a nil) d.

Definition getb : ndarray bool -> nat -> nat -> bool := get false.
Definition getz : ndarray Z -> nat -> nat -> Z := get 0.
Definition getq : ndarray Q -> nat -> nat -> Q := get 0%Q.

(** The index pairs of an [n x n] array in C (row-major) order. *)
Definition cells (n : nat) : list (nat * nat) :=
  list_prod (seq 0 n) (seq 0 n).

(** [a == v] *)
Definition np_eq (n : nat) (a : ndarray Z) (v : Z) : ndarray bool :=
  build n (fun i j => getz a i j =? v).

(** [a > v] *)
Definition np_gt (n : nat) (a : ndarray Z) (v : Z) : ndarray bool :=
  build n (fun i j => v <? getz a i j).

Definition Qltb (x y : Q) : bool := negb (Qle_bool y x).

(** [r < p] for an array of draws [r] and a scalar [p] *)
Definition np_lt (n : nat) (r : ndarray Q) (p : Q) : ndarray bool :=
  build n (fun i j => Qltb (getq r i j) p).

(** [a & b], [a | b], [~a] *)
Definition np_and (n : nat) (a b : ndarray bool) : ndarray bool :=
  build n (fun i j => getb a i j && getb b i j).
Definition np_or (n : nat) (a b : ndarray bool) : ndarray bool :=
  build n (fun i j => getb a i j || getb b i j).
Definition np_not (n : nat) (a : ndarray bool) : ndarray bool :=
  build n (fun i j => negb (getb a i j)).

(** [np.roll(a, s, axis)]: the element at index [k] along the axis moves to
    [(k + s) mod n], so position [k] reads from [(k - s) mod n]. *)
Definition rolled (n : nat) (s : Z) (k : nat) : nat :=
  Z.to_nat ((Z.of_nat k - s) mod Z.of_nat n).

Definition np_roll {A : Type} (d : A) (n : nat) (a : ndarray A) (s : Z)
    (axis : nat) : ndarray A :=
  build n (fun i j =>
    match axis with
    | O => get d a (rolled n s i) j
    | _ => get d a i (rolled n s j)
    end).

(** [np.arange(n)[:, None] < b] and [np.arange(n)[None, :] < b], broadcast
    to the grid; likewise for [>]. *)
Definition rows_lt (n : nat) (b : Z) : ndarray bool :=
  build n (fun i _ => Z.of_nat i <? b).
Definition rows_gt (n : nat) (b : Z) : ndarray bool :=
  build n (fun i _ => b <? Z.of_nat i).
Definition cols_lt (n : nat) (b : Z) : ndarray bool :=
  build n (fun _ j => Z.of_nat j <? b).
Definition cols_gt (n : nat) (b : Z) : ndarray bool :=
  build n (fun _ j => b <? Z.of_nat j).

(** [ids * mask]: a boolean factor is 1 or 0 *)
Definition np_mul_mask (n : nat) (a : ndarray Z) (mask : ndarray bool)
    : ndarray Z :=
  build n (fun i j => getz a i j * (if getb mask i j then 1 else 0)).

(** [np.maximum.reduce([a; b; ...])] *)
Definition np_maximum (n : nat) (a b : ndarray Z) : ndarray Z :=
  build n (fun i j => Z.max (getz a i j) (getz b i j)).

Definition np_maximum_reduce (n : nat) (l : list (ndarray Z)) : ndarray Z :=
  match l with
  | nil => build n (fun _ _ => 0)
  | a :: l' => fold_left (np_maximum n) l' a
  end.

(** [np.where(c, a, b)] with [b] an array or a scalar *)
Definition np_where (n : nat) (c : ndarray bool) (a b : ndarray Z)
    : ndarray Z :=
  build n (fun i j => if getb c i j then getz a i j else getz b i j).

Definition np_zeros (n : nat) : ndarray Z := build n (fun _ _ => 0).

(** [a[mask] = v] for a scalar [v] *)
Definition fill_masked (n : nat) (a : ndarray Z) (mask : ndarray bool)
    (v : Z) : ndarray Z :=
  build n (fun i j => if getb mask i j then v else getz a i j).

(** [a[mask] = b[mask]] *)
Definition copy_masked (n : nat) (a : ndarray Z) (mask : ndarray bool)
    (b : ndarray Z) : ndarray Z :=
  build n (fun i j => if getb mask i j then getz b i j else getz a i j).

(** Lexicographic (row-major) order on index pairs. *)
Definition cell_ltb (c d : nat * nat) : bool :=
  (fst c <? fst d)%nat || ((fst c =? fst d)%nat && (snd c <? snd d)%nat).

Definition mask_at (mask : ndarray bool) (c : nat * nat) : bool :=
  getb mask (fst c) (snd c).

(** Number of [True] cells of [mask] that precede [(i, j)] in row-major
    order. *)
Definition mask_rank (n : nat) (mask : ndarray bool) (i j : nat) : nat :=
  length (List.filter (fun c => mask_at mask c && cell_ltb c (i, j))
            (cells n)).

(** [a[mask] = vals] for a one-dimensional [vals]: the [True] cells take
    the successive values in row-major order. *)
Definition put_masked (n : nat) (a : ndarray Z) (mask : ndarray bool)
    (vals : list Z) : ndarray Z :=
  build n (fun i j =>
    if getb mask i j then nth (mask_rank n mask i j) vals (getz a i j)
    else getz a i j).

(** [a[mask]]: the selected values in row-major order *)
Definition np_select (n : nat) (a : ndarray Z) (mask : ndarray bool)
    : list Z :=
  List.map (fun c => getz a (fst c) (snd c))
    (List.filter (mask_at mask) (cells n)).

(** [np.sum(mask)] *)
Definition np_sum (n : nat) (mask : ndarray bool) : Z :=
  Z.of_nat (length (List.filter (mask_at mask) (cells n))).

(** [np.arange(lo, hi)] *)
Definition np_arange (lo hi : Z) : list Z :=
  List.map (fun k => lo + Z.of_nat k) (seq 0 (Z.to_nat (hi - lo))).

(** [np.unique]: the sorted distinct values *)
Fixpoint insert_unique (x : Z) (l : list Z) : list Z :=
  match l with
  | nil => x :: nil
  | y :: l' =>
      if x <? y then x :: y :: l'
      else if x =? y then y :: l'
      else y :: insert_unique x l'
  end.

Definition np_unique (l : list Z) : list Z :=
  fold_right insert_unique nil l.

(** [np.isin(a, vals)] *)
Definition np_isin (n : nat) (a : ndarray Z) (vals : list Z) : ndarray bool :=
  build n (fun i j => existsb (Z.eqb (getz a i j)) vals).

(** ** Bounded deques *)

Record deque (A : Type) : Type := mk_deque {
  maxlen : nat;
  items : list A
}.
Arguments mk_deque {A} _ _.
Arguments maxlen {A} _.
Arguments items {A} _.

(** [deque(maxlen=w)] *)
Definition deque_new {A : Type} (w : nat) : deque A := mk_deque w nil.

(** [d.append(x)]: when the deque is full the oldest item is discarded. *)
Definition deque_append {A : Type} (x : A) (d : deque A) : deque A :=
  let l := items d ++ x :: nil in
  mk_deque (maxlen d) (skipn (length l - maxlen d) l).

(** ** The simulator state *)

(** A cluster registry entry:
    [{'birth': step, 'death': step or None, 'max_size': int, 'sizes': deque}] *)
Record entry : Type := mk_entry {
  birth : Z;
  death : option Z;
  max_size : Z;
  sizes : deque (Z * Z)
}.

Record model : Type := mk_model {
  grid_size : nat;
  p_tree : Q;
  p_fire : Q;
  grid : ndarray Z;
  fire_cluster_ids : ndarray Z;
  next_cluster_id : Z;
  step_count : Z;
  window_size : nat;
  active_fire_history : deque (Z * Z);
  cluster_registry : gmap Z entry;
  current_clusters : gmap Z Z
}.

(** Cell states: 0 = empty, 1 = tree, 2 = fire, 3 = burnt/ash. *)
Definition EMPTY : Z := 0.
Definition TREE : Z := 1.
Definition BURNING : Z := 2.
Definition ASH : Z := 3.

(** The literal [0.3] of the constructor: the double nearest to 3/10, which
    is [5404319552844595 / 2^54]. *)
Definition initial_density : Q := 5404319552844595 # 18014398509481984.

(** [ForestFireModel.__init__]. [np.zeros] rejects a negative dimension
    with a [ValueError]: the result is [None] in that case. Memory is not
    modelled: a grid too large for numpy to allocate, which raises as well,
    is constructed here. [r] is the array drawn by
    [np.random.random((grid_size, grid_size))]. *)
Definition init (grid_size : Z) (p_tree p_fire : Q) (r : ndarray Q)
    : option model :=
  if grid_size <? 0 then None
  else
    let n := Z.to_nat grid_size in
    let grid := np_zeros n in
    let initial_tree_mask := np_lt n r initial_density in
    let grid := fill_masked n grid initial_tree_mask 1 in
    let window_size := Z.to_nat 6000 in
    Some (mk_model n p_tree p_fire grid (np_zeros n) 1 0 window_size
            (deque_new window_size) ∅ ∅).

(** ** [ForestFireModel.step]

    The local variables of [step] are the definitions of this module, under
    their names in the source; [r_tree] and [r_light] are the two arrays
    returned by [np.random.random(self.grid.shape)], in call order. *)
Module Step.
Section Step.
Variable self : model.
Variables r_tree r_light : ndarray Q.

Local Abbreviation n := (grid_size self).

Definition empty := np_eq n (grid self) 0.
Definition trees := np_eq n (grid self) 1.
Definition burning := np_eq n (grid self) 2.
Definition burnt_history := np_eq n (grid self) 3.

Definition new_trees := np_and n empty (np_lt n r_tree (p_tree self)).

Definition up :=
    np_and n (np_roll false n burning (-1) 0) (rows_lt n (Z.of_nat n - 1)).
Definition down :=
    np_and n (np_roll false n burning 1 0) (rows_gt n 0).
Definition left :=
    np_and n (np_roll false n burning (-1) 1) (cols_lt n (Z.of_nat n - 1)).
Definition right :=
    np_and n (np_roll false n burning 1 1) (cols_gt n 0).

Definition fire_neighbors_mask :=
    np_or n (np_or n (np_or n up down) left) right.

Definition lightning_mask := np_lt n r_light (p_fire self).

Definition ignited_trees :=
    np_and n trees (np_or n fire_neighbors_mask lightning_mask).

Definition current_cluster_ids := fire_cluster_ids self.

Definition id_up :=
    np_mul_mask n (np_roll 0 n current_cluster_ids (-1) 0) up.
Definition id_down :=
    np_mul_mask n (np_roll 0 n current_cluster_ids 1 0) down.
Definition id_left :=
    np_mul_mask n (np_roll 0 n current_cluster_ids (-1) 1) left.
Definition id_right :=
    np_mul_mask n (np_roll 0 n current_cluster_ids 1 1) right.

Definition max_neighbor_id :=
    np_maximum_reduce n (id_up :: id_down :: id_left :: id_right :: nil).

Definition propagated_mask := np_and n ignited_trees fire_neighbors_mask.
Definition new_lightning_mask :=
    np_and n ignited_trees (np_not n fire_neighbors_mask).
Definition num_new_fires := np_sum n new_lightning_mask.
Definition new_ids :=
    np_arange (next_cluster_id self) (next_cluster_id self + num_new_fires).

Definition new_cluster_ids :=
    let ids := copy_masked n (np_zeros n) propagated_mask max_neighbor_id in
    if 0 <? num_new_fires then put_masked n ids new_lightning_mask new_ids
    else ids.

Definition next_cluster_id' :=
    if 0 <? num_new_fires then next_cluster_id self + num_new_fires
    else next_cluster_id self.

Definition potential_ash_mask := np_or n burning burnt_history.

Definition ash_ids :=
    np_where n burnt_history current_cluster_ids
      (np_where n burning current_cluster_ids (np_zeros n)).

Definition active_ids := np_unique (np_select n new_cluster_ids ignited_trees).

Definition active_ash_mask :=
    np_and n (np_isin n ash_ids active_ids) (np_gt n ash_ids 0).

Definition grid' :=
    fill_masked n
      (fill_masked n
         (fill_masked n
            (fill_masked n (np_zeros n)
               (np_and n trees (np_not n ignited_trees)) 1)
            new_trees 1)
         active_ash_mask 3)
      ignited_trees 2.

Definition fire_cluster_ids' :=
    copy_masked n
      (copy_masked n (np_zeros n) ignited_trees new_cluster_ids)
      active_ash_mask ash_ids.

  (** Data collection *)

Definition step_count' := step_count self + 1.

Definition total_fire_count := np_sum n (np_eq n grid' 2).

Definition active_fire_history' :=
    deque_append (step_count', total_fire_count) (active_fire_history self).

Definition burning_cells_mask := np_eq n grid' 2.

Definition active_cluster_ids : gset Z :=
    list_to_set (np_select n fire_cluster_ids' burning_cells_mask) ∖ {[0]}.

Definition cluster_size (cluster_id : Z) : Z :=
    np_sum n (np_eq n fire_cluster_ids' cluster_id).

  (** One iteration of [for cluster_id in active_cluster_ids], on the pair
      [(new_current_clusters, self.cluster_registry)]. *)
Definition track_cluster (acc : gmap Z Z * gmap Z entry) (cluster_id : Z)
      : gmap Z Z * gmap Z entry :=
    let size := cluster_size cluster_id in
    let new_current_clusters := <[cluster_id := size]> (fst acc) in
    let registry :=
      match snd acc !! cluster_id with
      | None =>
          <[cluster_id :=
              mk_entry step_count' None size (deque_new (window_size self))]>
            (snd acc)
      | Some _ => snd acc
      end in
    let registry :=
      match registry !! cluster_id with
      | Some cluster_info =>
          let sizes' := deque_append (step_count', size) (sizes cluster_info) in
          let max_size' :=
            if max_size cluster_info <? size then size
            else max_size cluster_info in
          <[cluster_id :=
              mk_entry (birth cluster_info) (death cluster_info) max_size'
                sizes']> registry
      | None => registry
      end in
    (new_current_clusters, registry).

Definition tracked : gmap Z Z * gmap Z entry :=
    fold_left track_cluster (elements active_cluster_ids)
      (∅, cluster_registry self).

Definition new_current_clusters : gmap Z Z := fst tracked.

Definition previous_cluster_ids : gset Z := dom (current_clusters self).
Definition died_cluster_ids : gset Z :=
    previous_cluster_ids ∖ active_cluster_ids.

  (** One iteration of [for cluster_id in died_cluster_ids]. *)
Definition mark_dead (registry : gmap Z entry) (cluster_id : Z)
      : gmap Z entry :=
    match registry !! cluster_id with
    | Some info =>
        match death info with
        | None =>
            <[cluster_id :=
                mk_entry (birth info) (Some step_count') (max_size info)
                  (sizes info)]> registry
        | Some _ => registry
        end
    | None => registry
    end.

Definition marked : gmap Z entry :=
    fold_left mark_dead (elements died_cluster_ids) (snd tracked).

  (** The condition of the pruning loop. *)
Definition expired (info : entry) : bool :=
    match death info with
    | Some d => Z.of_nat (window_size self) <? step_count' - d
    | None => false
    end.

Definition clusters_to_remove : list Z :=
    List.map fst
      (List.filter (fun kv => expired (snd kv)) (map_to_list marked)).

Definition cluster_registry' : gmap Z entry :=
    fold_left (fun registry cluster_id => delete cluster_id registry)
      clusters_to_remove marked.
End Step.
End Step.

Definition step (self : model) (r_tree r_light : ndarray Q) : model :=
  mk_model
    (grid_size self) (p_tree self) (p_fire self)
    (Step.grid' self r_tree r_light)
    (Step.fire_cluster_ids' self r_light)
    (Step.next_cluster_id' self r_light)
    (Step.step_count' self)
    (window_size self)
    (Step.active_fire_history' self r_tree r_light)
    (Step.cluster_registry' self r_tree r_light)
    (Step.new_current_clusters self r_tree r_light).

(** Runs: the draws of each step are given as a list of pairs. *)
Definition run (self : model) (draws : list (ndarray Q * ndarray Q)) : model :=
  fold_left (fun m d => step m (fst d) (snd d)) draws self.

(** The states a simulator can be in: constructed, then stepped. *)
Inductive reachable : model -> Prop :=
| reachable_init gs pt pf r m :
    init gs pt pf r = Some m -> reachable m
| reachable_step m r_tree r_light :
    reachable m -> reachable (step m r_tree r_light).

(** ** Reading the state cell by cell *)

Definition state (m : model) (i j : nat) : Z := getz (grid m) i j.
Definition cid (m : model) (i j : nat) : Z := getz (fire_cluster_ids m) i j.

Definition in_grid (m : model) (i j : nat) : Prop :=
  (i < grid_size m)%nat /\ (j < grid_size m)%nat.

(** The 4-connected, non-wrapping neighbours of a cell of an [n x n] grid. *)
Definition neighbors (n i j : nat) : list (nat * nat) :=
  (if (S i <? n)%nat then (S i, j) :: nil else nil) ++
  (if (0 <? i)%nat then (Nat.pred i, j) :: nil else nil) ++
  (if (S j <? n)%nat then (i, S j) :: nil else nil) ++
  (if (0 <? j)%nat then (i, Nat.pred j) :: nil else nil).

Definition is_burning (m : model) (c : nat * nat) : bool :=
  state m (fst c) (snd c) =? BURNING.

Definition burning_neighbors (m : model) (i j : nat) : list (nat * nat) :=
  List.filter (is_burning m) (neighbors (grid_size m) i j).

(** Number of cells whose cluster id is [k], and number of those that are
    burning. *)
Definition cluster_cells (m : model) (k : Z) : Z :=
  Z.of_nat (length (List.filter (fun c => cid m (fst c) (snd c) =? k)
                      (cells (grid_size m)))).

Definition burning_count (m : model) (k : Z) : Z :=
  Z.of_nat (length (List.filter
                      (fun c => is_burning m c && (cid m (fst c) (snd c) =? k))
                      (cells (grid_size m)))).

(** A cluster id is active when some burning cell carries it. *)
Definition active (m : model) (k : Z) : Prop :=
  exists i j, in_grid m i j /\ state m i j = BURNING /\ cid m i j = k.

(** The lightning draw of a cell. *)
Definition struck (m : model) (r_light : ndarray Q) (i j : nat) : bool :=
  Qltb (getq r_light i j) (p_fire m).

(** A tree ignites when a neighbour burns or lightning strikes it. *)
Definition ignites (m : model) (r_light : ndarray Q) (i j : nat) : bool :=
  (state m i j =? TREE) &&
  (existsb (is_burning m) (neighbors (grid_size m) i j) || struck m r_light i j).

(** The id a burning in-range neighbour contributes, 0 otherwise. *)
Definition nb_id (m : model) (inside : bool) (c : nat * nat) : Z :=
  if inside && is_burning m c then cid m (fst c) (snd c) else 0.

(** What one iteration of the tracking loop leaves in the registry for the
    id it visits, from what it found there. *)
Definition track_entry (m : model) (size : Z) (o : option entry) : entry :=
  let info :=
    match o with
    | Some e => e
    | None =>
        mk_entry (step_count m + 1) None size (deque_new (window_size m))
    end in
  mk_entry (birth info) (death info)
    (if max_size info <? size then size else max_size info)
    (deque_append (step_count m + 1, size) (sizes info)).

(** What the loop over the died ids does to an entry. *)
Definition mark_entry (m : model) (e : entry) : entry :=
  match death e with
  | None => mk_entry (birth e) (Some (step_count m + 1)) (max_size e) (sizes e)
  | Some _ => e
  end.

(** State/id coupling: burning and ash cells carry a positive id, every
    other cell carries 0. *)
Definition coupled (m : model) : Prop :=
  forall i j, in_grid m i j ->
    (0 < cid m i j <-> state m i j = BURNING \/ state m i j = ASH) /\
    (~ (state m i j = BURNING \/ state m i j = ASH) -> cid m i j = 0).

(** The ids minted by one step: [new_ids], when the branch that creates
    them is taken. *)
Definition minted (m : model) (r_light : ndarray Q) : list Z :=
  if 0 <? Step.num_new_fires m r_light then Step.new_ids m r_light else nil.

(** The ids minted along a run, in order. *)
Fixpoint minted_run (m : model) (draws : list (ndarray Q * ndarray Q))
    : list Z :=
  match draws with
  | nil => nil
  | d :: ds => minted m (snd d) ++ minted_run (step m (fst d) (snd d)) ds
  end.

(** A deque holds no more items than its bound. *)
Definition bounded {A : Type} (d : deque A) : Prop :=
  (length (items d) <= maxlen d)%nat.

(** The invariant of the states of a simulator. *)
Record inv (m : model) : Prop := mk_inv {
  inv_coupled : coupled m;
  inv_next : 1 <= next_cluster_id m;
  inv_ids_lt :
    forall i j, in_grid m i j -> cid m i j < next_cluster_id m;
  inv_keys :
    forall k e, cluster_registry m !! k = Some e ->
                0 < k < next_cluster_id m;
  inv_carried :
    forall i j, in_grid m i j -> 0 < cid m i j ->
                exists e, cluster_registry m !! cid m i j = Some e /\
                          death e = None;
  inv_current :
    forall k, is_Some (current_clusters m !! k) <-> active m k;
  inv_window : window_size m = Z.to_nat 6000;
  inv_history :
    maxlen (active_fire_history m) = window_size m /\
    bounded (active_fire_history m);
  inv_sizes :
    forall k e, cluster_registry m !! k = Some e ->
                maxlen (sizes e) = window_size m /\ bounded (sizes e)
}.

(** ** A small run

    A 2 x 2 forest with no growth and lightning probability 1/2: the initial
    draws plant a tree on every cell, the first step strikes the corner
    [(0, 0)] only, and the later steps draw no lightning. The fire spreads
    from the corner, dies after the third step and is recorded as dead by
    the fourth. *)
Definition all_draws (n : nat) (q : Q) : ndarray Q := build n (fun _ _ => q).

Definition strike_corner (n : nat) : ndarray Q :=
  build n (fun i j => if (i =? 0)%nat && (j =? 0)%nat then 0%Q else 1%Q).

Definition ex_m0 : model :=
  mk_model 2 0 (1 # 2)
    (fill_masked 2 (np_zeros 2) (np_lt 2 (all_draws 2 0) initial_density) 1)
    (np_zeros 2) 1 0 (Z.to_nat 6000) (deque_new (Z.to_nat 6000)) ∅ ∅.

Definition ex_m1 : model := step ex_m0 (all_draws 2 1) (strike_corner 2).
Definition ex_m2 : model := step ex_m1 (all_draws 2 1) (all_draws 2 1).
Definition ex_m3 : model := step ex_m2 (all_draws 2 1) (all_draws 2 1).
Definition ex_m4 : model := step ex_m3 (all_draws 2 1) (all_draws 2 1).

(** The registry entry of cluster 1 at the end of the small run. *)
Definition ex_e4 : entry :=
  mk_entry 1 (Some 4) 4
    (mk_deque (Z.to_nat 6000) ((1, 1) :: (2, 3) :: (3, 4) :: nil)).

(** Number of burning cells of the grid. *)
Definition total_burning (m : model) : Z :=
  Z.of_nat (length (List.filter (is_burning m) (cells (grid_size m)))).

(** Strict first-in-first-out insertion into a window of [w] samples, as the
    specification words it: below capacity the sample is appended, at
    capacity the oldest sample leaves first. *)
Definition fifo_push {A : Type} (w : nat) (x : A) (l : list A) : list A :=
  if (length l <? w)%nat then l ++ x :: nil else List.tl l ++ x :: nil.

(** Whether some burning cell carries the id [k]. *)
Definition is_active (m : model) (k : Z) : bool :=
  existsb (fun c => is_burning m c && (cid m (fst c) (snd c) =? k))
    (cells (grid_size m)).

(** The states a run goes through, one per step. *)
Fixpoint trace (m : model) (draws : list (ndarray Q * ndarray Q))
    : list model :=
  match draws with
  | nil => nil
  | d :: ds => step m (fst d) (snd d) :: trace (step m (fst d) (snd d)) ds
  end.

(** The cell counts of cluster [k] in the states where it is active. *)
Definition observed (k : Z) (ms : list model) : list Z :=
  List.map (fun s => cluster_cells s k)
    (List.filter (fun s => is_active s k) ms).

(** The registry entry of cluster 1 after the second step of the small
    run. *)
Definition ex_e2 : entry :=
  mk_entry 1 None 3 (mk_deque (Z.to_nat 6000) ((1, 1) :: (2, 3) :: nil)).

(** Draws of [np.random.random]: numbers of the interval [0, 1). *)
Definition unit_draws (n : nat) (r : ndarray Q) : Prop :=
  forall i j, (i < n)%nat -> (j < n)%nat ->
              (0 <= getq r i j)%Q /\ (getq r i j < 1)%Q.

(** No cell is struck by lightning. *)
Definition no_lightning (m : model) (r_light : ndarray Q) : Prop :=
  forall i j, in_grid m i j -> struck m r_light i j = false.

(** Scenario B: a simulator with no growth and no lightning whose grid has
    been set up with burning regions (carrying positive ids, such as 1 and
    2) before its first step; registry, current clusters and step counter
    are as the constructor leaves them. *)
Definition scenario_B (m : model) : Prop :=
  (p_tree m == 0)%Q /\ (p_fire m == 0)%Q /\
  coupled m /\ 1 <= next_cluster_id m /\
  cluster_registry m = ∅ /\ current_clusters m = ∅ /\ step_count m = 0.

(** The part of the invariant that Scenario B relies on. *)
Definition tracking (m : model) : Prop :=
  coupled m /\ 1 <= next_cluster_id m /\
  (forall k, is_Some (current_clusters m !! k) -> active m k) /\
  (forall k e, cluster_registry m !! k = Some e -> death e = None ->
               active m k /\ is_Some (current_clusters m !! k)).

(** A decision procedure for the coupling of a concrete state. *)
Definition coupled_at (m : model) (c : nat * nat) : bool :=
  if (state m (fst c) (snd c) =? BURNING) || (state m (fst c) (snd c) =? ASH)
  then 0 <? cid m (fst c) (snd c)
  else cid m (fst c) (snd c) =? 0.

Definition coupledb (m : model) : bool :=
  forallb (coupled_at m) (cells (grid_size m)).

(** An instance of Scenario B on a 3 x 3 grid: cluster 1 burns in one
    corner and cluster 2 in the opposite one, each next to one tree. *)
Definition ex_b0 : model :=
  mk_model 3 0 0
    ((2 :: 1 :: 0 :: nil) :: (0 :: 0 :: 0 :: nil) :: (0 :: 1 :: 2 :: nil) :: nil)
    ((1 :: 0 :: 0 :: nil) :: (0 :: 0 :: 0 :: nil) :: (0 :: 0 :: 2 :: nil) :: nil)
    3 0 (Z.to_nat 6000) (deque_new (Z.to_nat 6000)) ∅ ∅.

Definition ex_quiet : ndarray Q * ndarray Q := (all_draws 3 0, all_draws 3 0).

(** The registry entry that clusters 1 and 2 both have once the fires are
    out: born at step 1 with two cells, dead at step 2. *)
Definition ex_b_e : entry :=
  mk_entry 1 (Some 2) 2 (mk_deque (Z.to_nat 6000) ((1, 2) :: nil)).

(** ** Further definitions *)

(** The shape of an [n x n] array. *)
Definition shaped {A : Type} (n : nat) (a : ndarray A) : Prop :=
  length a = n /\ forall row, In row a -> length row = n.

(** The growth draw of a cell. *)
Definition sprouts (m : model) (r_tree : ndarray Q) (i j : nat) : bool :=
  Qltb (getq r_tree i j) (p_tree m).

(** A grid without fire: trees and empty cells only, no ids. *)
Definition fire_free (m : model) : Prop :=
  forall i j, in_grid m i j ->
    (state m i j = TREE \/ state m i j = EMPTY) /\ cid m i j = 0.

(** [plot_cluster_size_histogram] and [update_histogram_plot]: the loop that
    collects the maximum sizes of the clusters that have died, one value for
    each of them. The registry is visited in the order of [map_to_list].
    Python visits it in insertion order, which within one step is the
    iteration order of the set [active_cluster_ids]; the list of the code is
    a rearrangement of this one, and the histogram, the count, the mean and
    the median do not depend on the order. *)
Definition completed_max_sizes (m : model) : list Z :=
  fold_left
    (fun acc kv =>
       match death (snd kv) with
       | Some _ => acc ++ max_size (snd kv) :: nil
       | None => acc
       end)
    (map_to_list (cluster_registry m)) nil.

(** The test [len(completed_max_sizes) == 0] that makes both functions show
    "No completed clusters yet" and return. *)
Definition no_completed_clusters (m : model) : bool :=
  (length (completed_max_sizes m) =? 0)%nat.

(** [plot_cluster_timeline] and [update_timeline_plot]: the number of
    colours prepared for [k] clusters, [min(k, 20)] samples of tab20 replaced
    by [k] samples of gist_rainbow when [k > 20], and the slot
    [idx % len(colors_list)] of the cluster enumerated at [idx]. *)
Definition n_colors (k : Z) : Z :=
  if 20 <? k then k else Z.min k 20.

Definition color_slot (k idx : Z) : Z := idx mod n_colors k.

(** The legend is drawn when there are at most 15 clusters. *)
Definition shows_legend (k : Z) : bool := k <=? 15.

(** ** Keyboard speed control ([on_key])

    [speed_settings] is the dictionary [{'interval', 'index', 'paused'}] and
    [speed_options] the list of frame intervals in milliseconds. What the
    handler does to the animation and the console is returned as a list of
    effects, in order. *)
Record speed_settings : Type := mk_speed {
  interval : Z;
  index : Z;
  paused : bool
}.

Definition speed_options : list Z := 10 :: 25 :: 50 :: 100 :: 200 :: 500 :: nil.

Definition initial_speed : speed_settings := mk_speed 50 2 false.

Inductive effect : Type :=
| SetTimerInterval (ms : Z)
| PrintSpeedIncreased (ms : Z)
| PrintSpeedDecreased (ms : Z)
| PrintResuming
| PrintPausing
| PrintRefreshing
| StartTimer
| StopTimer
| RefreshPlots.

(** Python list indexing: a negative index counts from the end, an index
    outside [-len, len) raises [IndexError] ([None]). *)
Definition py_index (l : list Z) (i : Z) : option Z :=
  let len := Z.of_nat (length l) in
  if (0 <=? i) && (i <? len) then nth_error l (Z.to_nat i)
  else if (- len <=? i) && (i <? 0) then nth_error l (Z.to_nat (len + i))
  else None.

(** [on_key(event)] for [event.key = key]. [has_source] tells whether
    [anim.event_source] is an event source rather than [None]. The result
    is the dictionary as the handler leaves it and the effects it had, or
    [None] in their place when it raised: [IndexError] from
    [speed_options[...]], after the index was updated, or [AttributeError]
    from [anim.event_source.interval = ...] without an event source, after
    both entries were updated. *)
Definition on_key (key : string) (has_source : bool) (s : speed_settings)
    : speed_settings * option (list effect) :=
  if (String.eqb key "+" || String.eqb key "=")%bool then
    if 0 <? index s then
      match py_index speed_options (index s - 1) with
      | Some ms =>
          (mk_speed ms (index s - 1) (paused s),
           if has_source
           then Some (SetTimerInterval ms :: PrintSpeedIncreased ms :: nil)
           else None)
      | None => (mk_speed (interval s) (index s - 1) (paused s), None)
      end
    else (s, Some nil)
  else if String.eqb key "-" then
    if index s <? Z.of_nat (length speed_options) - 1 then
      match py_index speed_options (index s + 1) with
      | Some ms =>
          (mk_speed ms (index s + 1) (paused s),
           if has_source
           then Some (SetTimerInterval ms :: PrintSpeedDecreased ms :: nil)
           else None)
      | None => (mk_speed (interval s) (index s + 1) (paused s), None)
      end
    else (s, Some nil)
  else if String.eqb key " " then
    if has_source then
      if paused s then
        (mk_speed (interval s) (index s) false,
         Some (PrintResuming :: StartTimer :: nil))
      else
        (mk_speed (interval s) (index s) true,
         Some (PrintPausing :: StopTimer :: nil))
    else (s, Some nil)
  else if String.eqb key "r" then
    (s, Some (PrintRefreshing :: RefreshPlots :: nil))
  else (s, Some nil).

(** A sequence of key presses, each with the presence of the event source
    at that time; the dictionary is shared, so a handler that raised leaves
    its updates behind. *)
Definition on_keys (keys : list (string * bool)) (s : speed_settings)
    : speed_settings :=
  fold_left (fun s kb => fst (on_key (fst kb) (snd kb) s)) keys s.

(** The invariant of the speed settings. *)
Definition speed_ok (s : speed_settings) : Prop :=
  0 <= index s < Z.of_nat (length speed_options) /\
  nth_error speed_options (Z.to_nat (index s)) = Some (interval s).

(** What holds of the registry entries of a reachable state. *)
Record registry_ok (m : model) : Prop := mk_registry_ok {
  rok_steps : 0 <= step_count m;
  rok_dates :
    forall k e, cluster_registry m !! k = Some e ->
      1 <= birth e <= step_count m /\
      (forall d, death e = Some d -> birth e < d <= step_count m);
  rok_sizes :
    forall k e, cluster_registry m !! k = Some e ->
      forall s c, In (s, c) (items (sizes e)) ->
        birth e <= s <= step_count m /\ 1 <= c <= max_size e;
  rok_max :
    forall k e, cluster_registry m !! k = Some e ->
      1 <= max_size e <= Z.of_nat (grid_size m * grid_size m);
  rok_last :
    forall k e, cluster_registry m !! k = Some e ->
      exists s, last (items (sizes e)) = Some (s, max_size e) /\
                (death e = None ->
                 s = step_count m /\ max_size e = cluster_cells m k) /\
                (forall d, death e = Some d -> s = d - 1)
}.

(** Lightning draws that strike the diagonal cells only. *)
Definition strike_diagonal (n : nat) : ndarray Q :=
  build n (fun i j => if (i =? j)%nat then 0%Q else 1%Q).

(** A forest without fire, growth or lightning. *)
Definition ex_c0 : model :=
  mk_model 2 0 0
    ((1 :: 0 :: nil) :: (0 :: 1 :: nil) :: nil)
    ((0 :: 0 :: nil) :: (0 :: 0 :: nil) :: nil)
    1 0 (Z.to_nat 6000) (deque_new (Z.to_nat 6000)) ∅ ∅.

Definition ex_calm : ndarray Q * ndarray Q := (all_draws 2 0, all_draws 2 0).

(** A forest with trees on the diagonal only, as the constructor builds it
    from the draws [strike_diagonal 2]; lightning strikes every cell in the
    first step, so that two fires of one cell each start, and both are out
    after the second step. *)
Definition ex_d0 : model :=
  mk_model 2 0 (1 # 2)
    (fill_masked 2 (np_zeros 2) (np_lt 2 (strike_diagonal 2) initial_density) 1)
    (np_zeros 2) 1 0 (Z.to_nat 6000) (deque_new (Z.to_nat 6000)) ∅ ∅.

Definition ex_d1 : model := step ex_d0 (all_draws 2 1) (all_draws 2 0).
Definition ex_d2 : model := step ex_d1 (all_draws 2 1) (all_draws 2 1).

(** The registry entry of either fire after the second step. *)
Definition ex_d_e : entry :=
  mk_entry 1 (Some 2) 1 (mk_deque (Z.to_nat 6000) ((1, 1) :: nil)).

(** ** Array lemmas *)

Section ArrayLemmas.
Context {A : Type}.

Lemma get_build (d : A) (n : nat) (f : nat -> nat -> A) (i j : nat) :
    (i < n)%nat -> (j < n)%nat -> get d (build n f) i j = f i j.
  Proof.
    intros Hi Hj. unfold get, build.
    rewrite (nth_indep _ nil (List.map (fun j0 => f 0%nat j0) (seq 0 n)))
      by (rewrite length_map, length_seq; exact Hi).
    rewrite (map_nth (fun i0 => List.map (fun j0 => f i0 j0) (seq 0 n))).
    rewrite seq_nth by exact Hi. simpl.
    rewrite (nth_indep _ d (f i 0%nat))
      by (rewrite length_map, length_seq; exact Hj).
    rewrite (map_nth (fun j0 => f i j0)).
    rewrite seq_nth by exact Hj. reflexivity.
  Qed.
End ArrayLemmas.

Lemma in_cells (n : nat) (c : nat * nat) :
  In c (cells n) <-> (fst c < n)%nat /\ (snd c < n)%nat.
Proof.
  destruct c as [i j]. unfold cells. rewrite in_prod_iff, !in_seq. simpl. lia.
Qed.

Lemma rolled_up (n k : nat) :
  (S k < n)%nat -> rolled n (-1) k = S k.
Proof.
  intros H. unfold rolled. rewrite Z.mod_small by lia. lia.
Qed.

Lemma rolled_down (n k : nat) :
  (0 < k)%nat -> (k < n)%nat -> rolled n 1 k = Nat.pred k.
Proof.
  intros H0 H. unfold rolled. rewrite Z.mod_small by lia. lia.
Qed.

(** Counting with [filter]. *)
Lemma filter_length_le {A : Type} (p q : A -> bool) (l : list A) :
  (forall x, In x l -> p x = true -> q x = true) ->
  (length (List.filter p l) <= length (List.filter q l))%nat.
Proof.
  induction l as [|a l IH]; intros H; simpl; [lia|].
  assert (IH' := IH (fun x Hx => H x (or_intror Hx))).
  destruct (p a) eqn:Hp.
  - rewrite (H a (or_introl eq_refl) Hp). simpl. lia.
  - destruct (q a); simpl; lia.
Qed.

Lemma filter_length_lt {A : Type} (p q : A -> bool) (l : list A) (x0 : A) :
  (forall x, In x l -> p x = true -> q x = true) ->
  In x0 l -> p x0 = false -> q x0 = true ->
  (length (List.filter p l) < length (List.filter q l))%nat.
Proof.
  induction l as [|a l IH]; intros H Hin Hp Hq; simpl; [destruct Hin|].
  destruct Hin as [->|Hin].
  - rewrite Hp, Hq. simpl.
    assert (Hle := filter_length_le p q l (fun x Hx => H x (or_intror Hx))).
    lia.
  - assert (IH' := IH (fun x Hx => H x (or_intror Hx)) Hin Hp Hq).
    destruct (p a) eqn:Hpa.
    + rewrite (H a (or_introl eq_refl) Hpa). simpl. lia.
    + destruct (q a); simpl; lia.
Qed.

Lemma filter_length_pos {A : Type} (p : A -> bool) (l : list A) (x : A) :
  In x l -> p x = true -> (0 < length (List.filter p l))%nat.
Proof.
  intros Hin Hp.
  assert (In x (List.filter p l)) as H by (apply filter_In; auto).
  destruct (List.filter p l); [destruct H | simpl; lia].
Qed.

Lemma filter_length_zero {A : Type} (p : A -> bool) (l : list A) :
  length (List.filter p l) = 0%nat -> forall x, In x l -> p x = false.
Proof.
  intros H x Hin. destruct (p x) eqn:Hp; [|reflexivity].
  assert (Hpos := filter_length_pos p l x Hin Hp). lia.
Qed.

Lemma filter_ext_length {A : Type} (p q : A -> bool) (l : list A) :
  (forall x, In x l -> p x = q x) ->
  length (List.filter p l) = length (List.filter q l).
Proof.
  intros H. rewrite (filter_ext_in p q l H). reflexivity.
Qed.

Lemma In_insert_unique (x k : Z) (l : list Z) :
  In k (insert_unique x l) <-> k = x \/ In k l.
Proof.
  induction l as [|y l IH]; simpl; [intuition|].
  destruct (x <? y) eqn:Hlt; simpl; [intuition|].
  destruct (x =? y) eqn:Heq; simpl.
  - apply Z.eqb_eq in Heq. subst y. intuition.
  - rewrite IH. intuition.
Qed.

Lemma In_np_unique (k : Z) (l : list Z) : In k (np_unique l) <-> In k l.
Proof.
  induction l as [|x l IH]; simpl; [reflexivity|].
  rewrite In_insert_unique, IH. intuition.
Qed.

Lemma existsb_eqb_In (x : Z) (l : list Z) :
  existsb (Z.eqb x) l = true <-> In x l.
Proof.
  rewrite existsb_exists. split.
  - intros [y [Hin Heq]]. apply Z.eqb_eq in Heq. subst. exact Hin.
  - intros H. exists x. split; [exact H | apply Z.eqb_refl].
Qed.

Lemma In_np_select (n : nat) (a : ndarray Z) (mask : ndarray bool) (v : Z) :
  In v (np_select n a mask) <->
  exists i j, (i < n)%nat /\ (j < n)%nat /\
              getb mask i j = true /\ getz a i j = v.
Proof.
  unfold np_select. rewrite in_map_iff. split.
  - intros [[i j] [Hv Hin]]. apply filter_In in Hin. destruct Hin as [Hc Hm].
    apply in_cells in Hc. simpl in *. exists i, j. tauto.
  - intros (i & j & Hi & Hj & Hm & Hv). exists (i, j). split; [exact Hv|].
    apply filter_In. split; [apply in_cells; simpl; lia | exact Hm].
Qed.

Lemma nth_np_arange (lo hi : Z) (k : nat) (d : Z) :
  (Z.of_nat k < hi - lo) -> nth k (np_arange lo hi) d = lo + Z.of_nat k.
Proof.
  intros H. unfold np_arange.
  rewrite (nth_indep _ d (lo + Z.of_nat 0))
    by (rewrite length_map, length_seq; lia).
  rewrite (map_nth (fun k0 => lo + Z.of_nat k0)).
  rewrite seq_nth by lia. reflexivity.
Qed.

Lemma cell_ltb_irrefl (c : nat * nat) : cell_ltb c c = false.
Proof.
  unfold cell_ltb. rewrite !Nat.ltb_irrefl, andb_false_r. reflexivity.
Qed.

(** Ranks of the [True] cells of a mask: below the number of [True] cells,
    and strictly increasing in row-major order. *)
Lemma mask_rank_lt_sum (n : nat) (mask : ndarray bool) (i j : nat) :
  (i < n)%nat -> (j < n)%nat -> getb mask i j = true ->
  Z.of_nat (mask_rank n mask i j) < np_sum n mask.
Proof.
  intros Hi Hj Hm. unfold mask_rank, np_sum. apply inj_lt.
  apply (filter_length_lt _ _ _ (i, j)).
  - intros x _ H. apply andb_true_iff in H. tauto.
  - apply in_cells. simpl. lia.
  - rewrite cell_ltb_irrefl. apply andb_false_r.
  - exact Hm.
Qed.

Lemma cell_ltb_trans (c d e : nat * nat) :
  cell_ltb c d = true -> cell_ltb d e = true -> cell_ltb c e = true.
Proof.
  unfold cell_ltb. intros H1 H2.
  apply orb_true_iff in H1. apply orb_true_iff in H2. apply orb_true_iff.
  rewrite andb_true_iff, Nat.ltb_lt, Nat.eqb_eq, Nat.ltb_lt in *.
  lia.
Qed.

Lemma cell_ltb_total (c d : nat * nat) :
  c <> d -> cell_ltb c d = true \/ cell_ltb d c = true.
Proof.
  destruct c as [a b], d as [a' b']. unfold cell_ltb. simpl. intros H.
  rewrite !orb_true_iff, !andb_true_iff, !Nat.ltb_lt, !Nat.eqb_eq.
  assert (a <> a' \/ b <> b')%nat as Hne.
  { destruct (Nat.eq_dec a a'); [|lia].
    destruct (Nat.eq_dec b b'); [|lia]. subst. congruence. }
  lia.
Qed.

Lemma mask_rank_mono (n : nat) (mask : ndarray bool) (i j i' j' : nat) :
  (i < n)%nat -> (j < n)%nat -> getb mask i j = true ->
  cell_ltb (i, j) (i', j') = true ->
  (mask_rank n mask i j < mask_rank n mask i' j')%nat.
Proof.
  intros Hi Hj Hm Hlt. unfold mask_rank.
  apply (filter_length_lt _ _ _ (i, j)).
  - intros x _ H. apply andb_true_iff in H. destruct H as [Hx Hxl].
    apply andb_true_iff. split; [exact Hx|].
    exact (cell_ltb_trans _ _ _ Hxl Hlt).
  - apply in_cells. simpl. lia.
  - rewrite cell_ltb_irrefl. apply andb_false_r.
  - apply andb_true_iff. split; assumption.
Qed.

Lemma mask_rank_inj (n : nat) (mask : ndarray bool) (i j i' j' : nat) :
  (i < n)%nat -> (j < n)%nat -> (i' < n)%nat -> (j' < n)%nat ->
  getb mask i j = true -> getb mask i' j' = true ->
  mask_rank n mask i j = mask_rank n mask i' j' -> (i, j) = (i', j').
Proof.
  intros Hi Hj Hi' Hj' Hm Hm' Heq.
  destruct (decide ((i, j) = (i', j'))) as [|Hne]; [assumption|].
  destruct (cell_ltb_total _ _ Hne) as [H|H].
  - assert (Hlt := mask_rank_mono n mask i j i' j' Hi Hj Hm H). lia.
  - assert (Hlt := mask_rank_mono n mask i' j' i j Hi' Hj' Hm' H). lia.
Qed.

(** ** The step, cell by cell *)

Section StepCells.
Variable self : model.
Variables r_tree r_light : ndarray Q.
Local Abbreviation n := (grid_size self).

Lemma empty_at i j : (i < n)%nat -> (j < n)%nat ->
    getb (Step.empty self) i j = (state self i j =? EMPTY).
  Proof. intros. unfold Step.empty, np_eq, getb. by rewrite get_build. Qed.

Lemma trees_at i j : (i < n)%nat -> (j < n)%nat ->
    getb (Step.trees self) i j = (state self i j =? TREE).
  Proof. intros. unfold Step.trees, np_eq, getb. by rewrite get_build. Qed.

Lemma burning_at i j : (i < n)%nat -> (j < n)%nat ->
    getb (Step.burning self) i j = is_burning self (i, j).
  Proof. intros. unfold Step.burning, np_eq, getb. by rewrite get_build. Qed.

Lemma burnt_history_at i j : (i < n)%nat -> (j < n)%nat ->
    getb (Step.burnt_history self) i j = (state self i j =? ASH).
  Proof.
    intros. unfold Step.burnt_history, np_eq, getb. by rewrite get_build.
  Qed.

Lemma new_trees_at i j : (i < n)%nat -> (j < n)%nat ->
    getb (Step.new_trees self r_tree) i j =
    (state self i j =? EMPTY) && Qltb (getq r_tree i j) (p_tree self).
  Proof.
    intros. unfold Step.new_trees, np_and, np_lt, getb.
    rewrite !get_build by assumption. fold getb. by rewrite empty_at.
  Qed.

Lemma up_at i j : (i < n)%nat -> (j < n)%nat ->
    getb (Step.up self) i j = (S i <? n)%nat && is_burning self (S i, j).
  Proof.
    intros Hi Hj. unfold Step.up, np_and, np_roll, rows_lt, getb.
    rewrite !get_build by assumption. fold getb.
    destruct (S i <? n)%nat eqn:E.
    - apply Nat.ltb_lt in E. rewrite rolled_up by assumption.
      rewrite burning_at by assumption.
      replace (Z.of_nat i <? Z.of_nat n - 1) with true
        by (symmetry; apply Z.ltb_lt; lia).
      by rewrite andb_true_r.
    - apply Nat.ltb_ge in E.
      replace (Z.of_nat i <? Z.of_nat n - 1) with false
        by (symmetry; apply Z.ltb_ge; lia).
      by rewrite andb_false_r.
  Qed.

Lemma down_at i j : (i < n)%nat -> (j < n)%nat ->
    getb (Step.down self) i j = (0 <? i)%nat && is_burning self (Nat.pred i, j).
  Proof.
    intros Hi Hj. unfold Step.down, np_and, np_roll, rows_gt, getb.
    rewrite !get_build by assumption. fold getb.
    destruct (0 <? i)%nat eqn:E.
    - apply Nat.ltb_lt in E. rewrite rolled_down by assumption.
      rewrite burning_at by lia.
      replace (0 <? Z.of_nat i) with true by (symmetry; apply Z.ltb_lt; lia).
      by rewrite andb_true_r.
    - apply Nat.ltb_ge in E.
      replace (0 <? Z.of_nat i) with false by (symmetry; apply Z.ltb_ge; lia).
      by rewrite andb_false_r.
  Qed.

Lemma left_at i j : (i < n)%nat -> (j < n)%nat ->
    getb (Step.left self) i j = (S j <? n)%nat && is_burning self (i, S j).
  Proof.
    intros Hi Hj. unfold Step.left, np_and, np_roll, cols_lt, getb.
    rewrite !get_build by assumption. fold getb.
    destruct (S j <? n)%nat eqn:E.
    - apply Nat.ltb_lt in E. rewrite rolled_up by assumption.
      rewrite burning_at by assumption.
      replace (Z.of_nat j <? Z.of_nat n - 1) with true
        by (symmetry; apply Z.ltb_lt; lia).
      by rewrite andb_true_r.
    - apply Nat.ltb_ge in E.
      replace (Z.of_nat j <? Z.of_nat n - 1) with false
        by (symmetry; apply Z.ltb_ge; lia).
      by rewrite andb_false_r.
  Qed.

Lemma right_at i j : (i < n)%nat -> (j < n)%nat ->
    getb (Step.right self) i j = (0 <? j)%nat && is_burning self (i, Nat.pred j).
  Proof.
    intros Hi Hj. unfold Step.right, np_and, np_roll, cols_gt, getb.
    rewrite !get_build by assumption. fold getb.
    destruct (0 <? j)%nat eqn:E.
    - apply Nat.ltb_lt in E. rewrite rolled_down by assumption.
      rewrite burning_at by lia.
      replace (0 <? Z.of_nat j) with true by (symmetry; apply Z.ltb_lt; lia).
      by rewrite andb_true_r.
    - apply Nat.ltb_ge in E.
      replace (0 <? Z.of_nat j) with false by (symmetry; apply Z.ltb_ge; lia).
      by rewrite andb_false_r.
  Qed.

Lemma fire_neighbors_mask_at i j : (i < n)%nat -> (j < n)%nat ->
    getb (Step.fire_neighbors_mask self) i j =
    existsb (is_burning self) (neighbors n i j).
  Proof.
    intros Hi Hj. unfold Step.fire_neighbors_mask, np_or, getb.
    rewrite !get_build by assumption. fold getb.
    rewrite up_at, down_at, left_at, right_at by assumption.
    unfold neighbors.
    destruct (S i <? n)%nat, (0 <? i)%nat, (S j <? n)%nat, (0 <? j)%nat;
      simpl; rewrite ?orb_false_r; try reflexivity;
      rewrite ?orb_assoc; reflexivity.
  Qed.
End StepCells.

Section StepIds.
Variable self : model.
Variables r_tree r_light : ndarray Q.
Local Abbreviation n := (grid_size self).

Lemma ignited_trees_at i j : (i < n)%nat -> (j < n)%nat ->
    getb (Step.ignited_trees self r_light) i j = ignites self r_light i j.
  Proof.
    intros Hi Hj. unfold Step.ignited_trees, Step.lightning_mask.
    unfold np_and, np_or, np_lt, getb.
    rewrite !get_build by assumption. fold getb.
    by rewrite trees_at, fire_neighbors_mask_at.
  Qed.

Lemma propagated_mask_at i j : (i < n)%nat -> (j < n)%nat ->
    getb (Step.propagated_mask self r_light) i j =
    ignites self r_light i j && existsb (is_burning self) (neighbors n i j).
  Proof.
    intros Hi Hj. unfold Step.propagated_mask, np_and, getb.
    rewrite !get_build by assumption. fold getb.
    by rewrite ignited_trees_at, fire_neighbors_mask_at.
  Qed.

Lemma new_lightning_mask_at i j : (i < n)%nat -> (j < n)%nat ->
    getb (Step.new_lightning_mask self r_light) i j =
    ignites self r_light i j &&
    negb (existsb (is_burning self) (neighbors n i j)).
  Proof.
    intros Hi Hj. unfold Step.new_lightning_mask, np_and, np_not, getb.
    rewrite !get_build by assumption. fold getb.
    by rewrite ignited_trees_at, fire_neighbors_mask_at.
  Qed.

Lemma mul_mask (v : Z) (b : bool) :
    v * (if b then 1 else 0) = if b then v else 0.
  Proof. destruct b; lia. Qed.

Lemma id_up_at i j : (i < n)%nat -> (j < n)%nat ->
    getz (Step.id_up self) i j = nb_id self (S i <? n)%nat (S i, j).
  Proof.
    intros Hi Hj. unfold Step.id_up, np_mul_mask, getz.
    rewrite get_build by assumption. fold getz getb.
    rewrite up_at, mul_mask by assumption. unfold nb_id.
    destruct (S i <? n)%nat eqn:E; [|reflexivity]. simpl.
    destruct (is_burning self (S i, j)); [|reflexivity].
    unfold np_roll, getz. rewrite get_build by assumption.
    apply Nat.ltb_lt in E. by rewrite rolled_up.
  Qed.

Lemma id_down_at i j : (i < n)%nat -> (j < n)%nat ->
    getz (Step.id_down self) i j = nb_id self (0 <? i)%nat (Nat.pred i, j).
  Proof.
    intros Hi Hj. unfold Step.id_down, np_mul_mask, getz.
    rewrite get_build by assumption. fold getz getb.
    rewrite down_at, mul_mask by assumption. unfold nb_id.
    destruct (0 <? i)%nat eqn:E; [|reflexivity]. simpl.
    destruct (is_burning self (Nat.pred i, j)); [|reflexivity].
    unfold np_roll, getz. rewrite get_build by assumption.
    apply Nat.ltb_lt in E. by rewrite rolled_down.
  Qed.

Lemma id_left_at i j : (i < n)%nat -> (j < n)%nat ->
    getz (Step.id_left self) i j = nb_id self (S j <? n)%nat (i, S j).
  Proof.
    intros Hi Hj. unfold Step.id_left, np_mul_mask, getz.
    rewrite get_build by assumption. fold getz getb.
    rewrite left_at, mul_mask by assumption. unfold nb_id.
    destruct (S j <? n)%nat eqn:E; [|reflexivity]. simpl.
    destruct (is_burning self (i, S j)); [|reflexivity].
    unfold np_roll, getz. rewrite get_build by assumption.
    apply Nat.ltb_lt in E. by rewrite rolled_up.
  Qed.

Lemma id_right_at i j : (i < n)%nat -> (j < n)%nat ->
    getz (Step.id_right self) i j = nb_id self (0 <? j)%nat (i, Nat.pred j).
  Proof.
    intros Hi Hj. unfold Step.id_right, np_mul_mask, getz.
    rewrite get_build by assumption. fold getz getb.
    rewrite right_at, mul_mask by assumption. unfold nb_id.
    destruct (0 <? j)%nat eqn:E; [|reflexivity]. simpl.
    destruct (is_burning self (i, Nat.pred j)); [|reflexivity].
    unfold np_roll, getz. rewrite get_build by assumption.
    apply Nat.ltb_lt in E. by rewrite rolled_down.
  Qed.

Lemma max_neighbor_id_at i j : (i < n)%nat -> (j < n)%nat ->
    getz (Step.max_neighbor_id self) i j =
    Z.max (Z.max (Z.max (nb_id self (S i <? n)%nat (S i, j))
                        (nb_id self (0 <? i)%nat (Nat.pred i, j)))
                 (nb_id self (S j <? n)%nat (i, S j)))
          (nb_id self (0 <? j)%nat (i, Nat.pred j)).
  Proof.
    intros Hi Hj. unfold Step.max_neighbor_id, np_maximum_reduce. simpl.
    unfold np_maximum, getz. rewrite !get_build by assumption. fold getz.
    by rewrite id_up_at, id_down_at, id_left_at, id_right_at.
  Qed.

Lemma filter_guard {A : Type} (p : A -> bool) (b : bool) (x : A) :
    List.filter p (if b then x :: nil else nil) =
    if b && p x then x :: nil else nil.
  Proof. destruct b; simpl; [destruct (p x)|]; reflexivity. Qed.

Lemma burning_neighbors_eq i j :
    burning_neighbors self i j =
    (if (S i <? n)%nat && is_burning self (S i, j)
     then (S i, j) :: nil else nil) ++
    (if (0 <? i)%nat && is_burning self (Nat.pred i, j)
     then (Nat.pred i, j) :: nil else nil) ++
    (if (S j <? n)%nat && is_burning self (i, S j)
     then (i, S j) :: nil else nil) ++
    (if (0 <? j)%nat && is_burning self (i, Nat.pred j)
     then (i, Nat.pred j) :: nil else nil).
  Proof.
    unfold burning_neighbors, neighbors.
    by rewrite !List.filter_app, !filter_guard.
  Qed.

  (** The maximum is attained by a burning neighbour and bounds them all,
      when the burning neighbours carry non-negative ids. *)
Lemma max_neighbor_id_is_max i j : (i < n)%nat -> (j < n)%nat ->
    (forall c, In c (burning_neighbors self i j) ->
               0 <= cid self (fst c) (snd c)) ->
    burning_neighbors self i j <> nil ->
    (exists c, In c (burning_neighbors self i j) /\
               cid self (fst c) (snd c) = getz (Step.max_neighbor_id self) i j)
    /\ (forall c, In c (burning_neighbors self i j) ->
                  cid self (fst c) (snd c) <=
                  getz (Step.max_neighbor_id self) i j).
  Proof.
    intros Hi Hj. rewrite max_neighbor_id_at, burning_neighbors_eq by assumption.
    unfold nb_id.
    destruct ((S i <? n)%nat && is_burning self (S i, j)),
             ((0 <? i)%nat && is_burning self (Nat.pred i, j)),
             ((S j <? n)%nat && is_burning self (i, S j)),
             ((0 <? j)%nat && is_burning self (i, Nat.pred j));
      simpl; intros Hpos Hne; try congruence;
      repeat match goal with
             | H : forall c, _ \/ _ -> _ |- _ =>
                 let H1 := fresh "Hp" in
                 pose proof (H _ (or_introl eq_refl)) as H1;
                 pose proof (fun c Hc => H c (or_intror Hc));
                 clear H; simpl in H1
             end;
      (split;
       [ repeat match goal with
                | |- context [Z.max ?a ?b] =>
                    destruct (Z.max_spec a b) as [[? ->]|[? ->]]
                end;
         first
           [ eexists; split; [left; reflexivity | simpl; lia]
           | eexists; split; [right; left; reflexivity | simpl; lia]
           | eexists; split; [right; right; left; reflexivity | simpl; lia]
           | eexists; split;
             [right; right; right; left; reflexivity | simpl; lia] ]
       | intros c Hc;
         repeat (destruct Hc as [<-|Hc]; [simpl; lia|]); destruct Hc ]).
  Qed.
End StepIds.

Section StepGrid.
Variable self : model.
Variables r_tree r_light : ndarray Q.
Local Abbreviation n := (grid_size self).
Local Abbreviation self' := (step self r_tree r_light).

Lemma np_zeros_at i j : (i < n)%nat -> (j < n)%nat -> getz (np_zeros n) i j = 0.
  Proof. intros. unfold np_zeros, getz. by rewrite get_build. Qed.

Lemma num_new_fires_pos i j : (i < n)%nat -> (j < n)%nat ->
    getb (Step.new_lightning_mask self r_light) i j = true ->
    0 < Step.num_new_fires self r_light.
  Proof.
    intros Hi Hj H. unfold Step.num_new_fires, np_sum.
    assert (0 < length (List.filter
                         (mask_at (Step.new_lightning_mask self r_light))
                         (cells n)))%nat; [|lia].
    apply (filter_length_pos _ _ (i, j)); [|exact H].
    apply in_cells. simpl. lia.
  Qed.

  (** An ignited tree takes a fresh id when no neighbour burns, and the
      largest id next to it otherwise; other cells take none. *)
Lemma new_cluster_ids_at i j : (i < n)%nat -> (j < n)%nat ->
    getz (Step.new_cluster_ids self r_light) i j =
    if getb (Step.new_lightning_mask self r_light) i j
    then next_cluster_id self +
         Z.of_nat (mask_rank n (Step.new_lightning_mask self r_light) i j)
    else if getb (Step.propagated_mask self r_light) i j
         then getz (Step.max_neighbor_id self) i j
         else 0.
  Proof.
    intros Hi Hj. unfold Step.new_cluster_ids.
    destruct (0 <? Step.num_new_fires self r_light) eqn:Hnum.
    - unfold put_masked, copy_masked, getz.
      rewrite !get_build by assumption. fold getz getb.
      destruct (getb (Step.new_lightning_mask self r_light) i j) eqn:Hl.
      + unfold Step.new_ids. rewrite nth_np_arange; [reflexivity|].
        assert (H := mask_rank_lt_sum n _ i j Hi Hj Hl).
        unfold Step.num_new_fires. lia.
      + by rewrite np_zeros_at.
    - destruct (getb (Step.new_lightning_mask self r_light) i j) eqn:Hl.
      + assert (H := num_new_fires_pos i j Hi Hj Hl).
        apply Z.ltb_ge in Hnum. lia.
      + unfold copy_masked, getz. rewrite !get_build by assumption.
        fold getz getb. by rewrite np_zeros_at.
  Qed.

Lemma next_cluster_id'_eq :
    Step.next_cluster_id' self r_light =
    next_cluster_id self + Step.num_new_fires self r_light.
  Proof.
    unfold Step.next_cluster_id'.
    destruct (0 <? Step.num_new_fires self r_light) eqn:E; [reflexivity|].
    apply Z.ltb_ge in E. unfold Step.num_new_fires, np_sum in *. lia.
  Qed.

Lemma num_new_fires_nonneg : 0 <= Step.num_new_fires self r_light.
  Proof. unfold Step.num_new_fires, np_sum. lia. Qed.

  (** Ash keeps the id of the cell that burned. *)
Lemma ash_ids_at i j : (i < n)%nat -> (j < n)%nat ->
    getz (Step.ash_ids self) i j =
    if (state self i j =? ASH) || (state self i j =? BURNING)
    then cid self i j else 0.
  Proof.
    intros Hi Hj. unfold Step.ash_ids, np_where, getz.
    rewrite !get_build by assumption. fold getz getb.
    rewrite burnt_history_at, burning_at by assumption.
    unfold Step.current_cluster_ids, is_burning, cid. simpl.
    destruct (state self i j =? ASH); [reflexivity|]. simpl.
    destruct (state self i j =? BURNING); [reflexivity|].
    by rewrite np_zeros_at.
  Qed.

Lemma In_active_ids (k : Z) :
    In k (Step.active_ids self r_light) <->
    exists i j, (i < n)%nat /\ (j < n)%nat /\
                ignites self r_light i j = true /\
                getz (Step.new_cluster_ids self r_light) i j = k.
  Proof.
    unfold Step.active_ids. rewrite In_np_unique, In_np_select.
    split; intros (i & j & Hi & Hj & H1 & H2); exists i, j;
      rewrite ignited_trees_at in * by assumption; auto.
  Qed.

Lemma active_ash_mask_at i j : (i < n)%nat -> (j < n)%nat ->
    getb (Step.active_ash_mask self r_light) i j =
    existsb (Z.eqb (getz (Step.ash_ids self) i j)) (Step.active_ids self r_light)
    && (0 <? getz (Step.ash_ids self) i j).
  Proof.
    intros Hi Hj. unfold Step.active_ash_mask, np_and, np_isin, np_gt, getb.
    by rewrite !get_build.
  Qed.

  (** Ash is kept only on cells that burned or were ash. *)
Lemma active_ash_was_fire i j : (i < n)%nat -> (j < n)%nat ->
    getb (Step.active_ash_mask self r_light) i j = true ->
    (state self i j = BURNING \/ state self i j = ASH) /\
    0 < cid self i j /\
    getz (Step.ash_ids self) i j = cid self i j /\
    In (cid self i j) (Step.active_ids self r_light).
  Proof.
    intros Hi Hj. rewrite active_ash_mask_at by assumption.
    rewrite andb_true_iff, existsb_eqb_In, Z.ltb_lt.
    rewrite ash_ids_at by assumption.
    destruct (state self i j =? ASH) eqn:Ea;
      destruct (state self i j =? BURNING) eqn:Eb; simpl;
      rewrite ?Z.eqb_eq in *; intros [H1 H2]; try lia; auto.
  Qed.

Lemma active_ash_not_ignited i j : (i < n)%nat -> (j < n)%nat ->
    getb (Step.active_ash_mask self r_light) i j = true ->
    ignites self r_light i j = false.
  Proof.
    intros Hi Hj H. destruct (active_ash_was_fire i j Hi Hj H) as [Hs _].
    unfold ignites, BURNING, ASH, TREE in *.
    destruct (state self i j =? 1) eqn:E; [|reflexivity].
    apply Z.eqb_eq in E. lia.
  Qed.

  (** The next state of a cell. *)
Lemma state'_at i j : (i < n)%nat -> (j < n)%nat ->
    state self' i j =
    if ignites self r_light i j then BURNING
    else if getb (Step.active_ash_mask self r_light) i j then ASH
    else if getb (Step.new_trees self r_tree) i j then TREE
    else if state self i j =? TREE then TREE
    else EMPTY.
  Proof.
    intros Hi Hj. unfold state, step. simpl. unfold Step.grid', fill_masked, getz.
    rewrite !get_build by assumption. fold getz getb.
    rewrite ignited_trees_at by assumption.
    destruct (ignites self r_light i j) eqn:Hig; [reflexivity|].
    destruct (getb (Step.active_ash_mask self r_light) i j); [reflexivity|].
    destruct (getb (Step.new_trees self r_tree) i j); [reflexivity|].
    unfold np_and, np_not, getb. rewrite !get_build by assumption. fold getb.
    rewrite trees_at, ignited_trees_at, Hig by assumption. fold (state self i j).
    destruct (state self i j =? TREE); simpl; [reflexivity|].
    by rewrite np_zeros_at.
  Qed.

  (** The next cluster id of a cell. *)
Lemma cid'_at i j : (i < n)%nat -> (j < n)%nat ->
    cid self' i j =
    if getb (Step.active_ash_mask self r_light) i j then cid self i j
    else if ignites self r_light i j
         then getz (Step.new_cluster_ids self r_light) i j
         else 0.
  Proof.
    intros Hi Hj. unfold cid at 1, step. simpl.
    unfold Step.fire_cluster_ids', copy_masked, getz.
    rewrite !get_build by assumption. fold getz getb.
    rewrite ignited_trees_at by assumption.
    destruct (getb (Step.active_ash_mask self r_light) i j) eqn:Ha.
    - by destruct (active_ash_was_fire i j Hi Hj Ha) as (_ & _ & -> & _).
    - destruct (ignites self r_light i j); [reflexivity|].
      by rewrite np_zeros_at.
  Qed.

Lemma grid_size_step : grid_size self' = grid_size self.
  Proof. reflexivity. Qed.

Lemma window_size_step : window_size self' = window_size self.
  Proof. reflexivity. Qed.

Lemma step_count_step : step_count self' = step_count self + 1.
  Proof. reflexivity. Qed.

  (** The burning cells of the next state are the ignited trees. *)
Lemma burning'_iff i j : (i < n)%nat -> (j < n)%nat ->
    state self' i j = BURNING <-> ignites self r_light i j = true.
  Proof.
    intros Hi Hj. rewrite state'_at by assumption.
    unfold BURNING, ASH, TREE, EMPTY.
    destruct (ignites self r_light i j); [tauto|].
    destruct (getb (Step.active_ash_mask self r_light) i j);
      [split; [lia|discriminate]|].
    destruct (getb (Step.new_trees self r_tree) i j);
      [split; [lia|discriminate]|].
    destruct (state self i j =? 1); split; (lia || discriminate).
  Qed.

Lemma ash'_iff i j : (i < n)%nat -> (j < n)%nat ->
    state self' i j = ASH <->
    getb (Step.active_ash_mask self r_light) i j = true.
  Proof.
    intros Hi Hj. rewrite state'_at by assumption.
    destruct (getb (Step.active_ash_mask self r_light) i j) eqn:Ha.
    - rewrite (active_ash_not_ignited i j Hi Hj Ha). tauto.
    - unfold BURNING, ASH, TREE, EMPTY.
      destruct (ignites self r_light i j); [split; (lia || discriminate)|].
      destruct (getb (Step.new_trees self r_tree) i j);
        [split; (lia || discriminate)|].
      destruct (state self i j =? 1); split; (lia || discriminate).
  Qed.

  (** The ids that are active after the step are those of [active_ids]. *)
Lemma active'_iff (k : Z) :
    active self' k <-> In k (Step.active_ids self r_light).
  Proof.
    rewrite In_active_ids. unfold active, in_grid.
    split.
    - intros (i & j & [Hi Hj] & Hs & Hc). simpl in Hi, Hj.
      apply burning'_iff in Hs; [|assumption..].
      exists i, j. repeat split; try assumption.
      rewrite cid'_at in Hc by assumption. rewrite Hs in Hc.
      destruct (getb (Step.active_ash_mask self r_light) i j) eqn:Ha;
        [|exact Hc].
      rewrite (active_ash_not_ignited i j Hi Hj Ha) in Hs. discriminate.
    - intros (i & j & Hi & Hj & Hig & Hc).
      exists i, j. simpl. repeat split; try assumption.
      + by apply burning'_iff.
      + rewrite cid'_at by assumption. rewrite Hig.
        destruct (getb (Step.active_ash_mask self r_light) i j) eqn:Ha;
          [|exact Hc].
        rewrite (active_ash_not_ignited i j Hi Hj Ha) in Hig. discriminate.
  Qed.
End StepGrid.

(** ** The registry loops *)

Section StepRegistry.
Variable self : model.
Variables r_tree r_light : ndarray Q.
Local Abbreviation n := (grid_size self).
Local Abbreviation self' := (step self r_tree r_light).
Local Abbreviation track := (Step.track_cluster self r_light).
Local Abbreviation size_of := (Step.cluster_size self r_light).

Lemma track_cluster_eq (acc : gmap Z Z * gmap Z entry) (k : Z) :
    snd (track acc k) !! k = Some (track_entry self (size_of k) (snd acc !! k)).
  Proof.
    unfold Step.track_cluster, track_entry, Step.step_count'. simpl.
    destruct (snd acc !! k) as [e|] eqn:E.
    - rewrite E. by rewrite lookup_insert_eq.
    - rewrite lookup_insert_eq. by rewrite lookup_insert_eq.
  Qed.

Lemma track_cluster_ne (acc : gmap Z Z * gmap Z entry) (k k' : Z) :
    k <> k' -> snd (track acc k) !! k' = snd acc !! k'.
  Proof.
    intros Hne. unfold Step.track_cluster. simpl.
    destruct (snd acc !! k) as [e|] eqn:E.
    - rewrite E. by rewrite lookup_insert_ne.
    - rewrite lookup_insert_eq. by rewrite !lookup_insert_ne.
  Qed.

Lemma track_cluster_fst (acc : gmap Z Z * gmap Z entry) (k : Z) :
    fst (track acc k) = <[k := size_of k]> (fst acc).
  Proof. reflexivity. Qed.

Lemma fold_track_lookup (l : list Z) (acc : gmap Z Z * gmap Z entry) (k : Z) :
    NoDup l ->
    snd (fold_left track l acc) !! k =
    if decide (k ∈ l) then Some (track_entry self (size_of k) (snd acc !! k))
    else snd acc !! k.
  Proof.
    revert acc. induction l as [|a l IH]; intros acc Hnd; simpl.
    - destruct (decide (k ∈ [])) as [H|_]; [|reflexivity]. by inversion H.
    - apply NoDup_cons in Hnd as [Ha Hnd]. rewrite IH by assumption.
      destruct (decide (k = a)) as [->|Hne].
      + destruct (decide (a ∈ l)); [contradiction|].
        destruct (decide (a ∈ a :: l)) as [_|H]; [|exfalso; apply H; left].
        apply track_cluster_eq.
      + rewrite track_cluster_ne by congruence.
        destruct (decide (k ∈ l)) as [Hin|Hnin];
          destruct (decide (k ∈ a :: l)) as [Hin'|Hnin']; try reflexivity.
        * exfalso. apply Hnin'. by right.
        * exfalso. apply elem_of_cons in Hin' as [?|?]; contradiction.
  Qed.

Lemma fold_track_fst (l : list Z) (acc : gmap Z Z * gmap Z entry) (k : Z) :
    fst (fold_left track l acc) !! k =
    if decide (k ∈ l) then Some (size_of k) else fst acc !! k.
  Proof.
    revert acc. induction l as [|a l IH]; intros acc; simpl.
    - destruct (decide (k ∈ [])) as [H|_]; [|reflexivity]. by inversion H.
    - rewrite IH, track_cluster_fst.
      destruct (decide (k ∈ l)) as [Hin|Hnin];
        destruct (decide (k ∈ a :: l)) as [Hin'|Hnin']; try reflexivity.
      + exfalso. apply Hnin'. by right.
      + apply elem_of_cons in Hin' as [->|?]; [|contradiction].
        by rewrite lookup_insert_eq.
      + rewrite lookup_insert_ne; [reflexivity|].
        intros ->. apply Hnin'. by left.
  Qed.

Lemma tracked_lookup (k : Z) :
    snd (Step.tracked self r_tree r_light) !! k =
    if decide (k ∈ Step.active_cluster_ids self r_tree r_light)
    then Some (track_entry self (size_of k) (cluster_registry self !! k))
    else cluster_registry self !! k.
  Proof.
    unfold Step.tracked. rewrite fold_track_lookup by apply NoDup_elements.
    simpl.
    destruct (decide (k ∈ elements (Step.active_cluster_ids self r_tree r_light)))
      as [H|H]; rewrite elem_of_elements in H;
      destruct (decide (k ∈ Step.active_cluster_ids self r_tree r_light));
      try contradiction; reflexivity.
  Qed.

Lemma new_current_clusters_lookup (k : Z) :
    Step.new_current_clusters self r_tree r_light !! k =
    if decide (k ∈ Step.active_cluster_ids self r_tree r_light)
    then Some (size_of k) else None.
  Proof.
    unfold Step.new_current_clusters, Step.tracked. rewrite fold_track_fst.
    simpl.
    destruct (decide (k ∈ elements (Step.active_cluster_ids self r_tree r_light)))
      as [H|H]; rewrite elem_of_elements in H;
      destruct (decide (k ∈ Step.active_cluster_ids self r_tree r_light));
      try contradiction; [reflexivity | apply lookup_empty].
  Qed.

Local Abbreviation mark := (Step.mark_dead self).

Lemma mark_dead_eq (reg : gmap Z entry) (k : Z) :
    mark reg k !! k = mark_entry self <$> reg !! k.
  Proof.
    unfold Step.mark_dead, mark_entry, Step.step_count'.
    destruct (reg !! k) as [e|] eqn:E; simpl; [|by rewrite E].
    destruct (death e); [by rewrite E|]. by rewrite lookup_insert_eq.
  Qed.

Lemma mark_dead_ne (reg : gmap Z entry) (k k' : Z) :
    k <> k' -> mark reg k !! k' = reg !! k'.
  Proof.
    intros Hne. unfold Step.mark_dead.
    destruct (reg !! k) as [e|]; [|reflexivity].
    destruct (death e); [reflexivity|]. by rewrite lookup_insert_ne.
  Qed.

Lemma fold_mark_lookup (l : list Z) (reg : gmap Z entry) (k : Z) :
    NoDup l ->
    fold_left mark l reg !! k =
    if decide (k ∈ l) then mark_entry self <$> reg !! k else reg !! k.
  Proof.
    revert reg. induction l as [|a l IH]; intros reg Hnd; simpl.
    - destruct (decide (k ∈ [])) as [H|_]; [|reflexivity]. by inversion H.
    - apply NoDup_cons in Hnd as [Ha Hnd]. rewrite IH by assumption.
      destruct (decide (k = a)) as [->|Hne].
      + destruct (decide (a ∈ l)); [contradiction|].
        destruct (decide (a ∈ a :: l)) as [_|H]; [|exfalso; apply H; left].
        apply mark_dead_eq.
      + rewrite mark_dead_ne by congruence.
        destruct (decide (k ∈ l)) as [Hin|Hnin];
          destruct (decide (k ∈ a :: l)) as [Hin'|Hnin']; try reflexivity.
        * exfalso. apply Hnin'. by right.
        * exfalso. apply elem_of_cons in Hin' as [?|?]; contradiction.
  Qed.

Lemma marked_lookup (k : Z) :
    Step.marked self r_tree r_light !! k =
    if decide (k ∈ Step.died_cluster_ids self r_tree r_light)
    then mark_entry self <$> snd (Step.tracked self r_tree r_light) !! k
    else snd (Step.tracked self r_tree r_light) !! k.
  Proof.
    unfold Step.marked. rewrite fold_mark_lookup by apply NoDup_elements.
    destruct (decide (k ∈ elements (Step.died_cluster_ids self r_tree r_light)))
      as [H|H]; rewrite elem_of_elements in H;
      destruct (decide (k ∈ Step.died_cluster_ids self r_tree r_light));
      try contradiction; reflexivity.
  Qed.

Lemma fold_delete_lookup (l : list Z) (reg : gmap Z entry) (k : Z) :
    fold_left (fun registry cluster_id => delete cluster_id registry) l reg !! k
    = if decide (k ∈ l) then None else reg !! k.
  Proof.
    revert reg. induction l as [|a l IH]; intros reg; simpl.
    - destruct (decide (k ∈ [])) as [H|_]; [|reflexivity]. by inversion H.
    - rewrite IH.
      destruct (decide (k ∈ l)) as [Hin|Hnin];
        destruct (decide (k ∈ a :: l)) as [Hin'|Hnin']; try reflexivity.
      + exfalso. apply Hnin'. by right.
      + apply elem_of_cons in Hin' as [->|?]; [|contradiction].
        apply lookup_delete_eq.
      + rewrite lookup_delete_ne; [reflexivity|].
        intros ->. apply Hnin'. by left.
  Qed.

Lemma elem_of_clusters_to_remove (k : Z) :
    k ∈ Step.clusters_to_remove self r_tree r_light <->
    exists e, Step.marked self r_tree r_light !! k = Some e /\
              Step.expired self e = true.
  Proof.
    unfold Step.clusters_to_remove.
    rewrite list_elem_of_In, in_map_iff. split.
    - intros [[k' e] [Hk Hin]]. simpl in Hk. subst k'.
      apply filter_In in Hin as [Hin Hexp]. simpl in Hexp.
      apply list_elem_of_In, elem_of_map_to_list in Hin. eauto.
    - intros [e [Hm Hexp]]. exists (k, e). split; [reflexivity|].
      apply filter_In. split; [|exact Hexp].
      by apply list_elem_of_In, elem_of_map_to_list.
  Qed.

  (** The pruning loop removes exactly the expired entries. *)
Lemma cluster_registry'_lookup (k : Z) :
    cluster_registry self' !! k =
    match Step.marked self r_tree r_light !! k with
    | Some e => if Step.expired self e then None else Some e
    | None => None
    end.
  Proof.
    unfold step. simpl. unfold Step.cluster_registry'.
    rewrite fold_delete_lookup.
    destruct (decide (k ∈ Step.clusters_to_remove self r_tree r_light))
      as [H|H].
    - apply elem_of_clusters_to_remove in H as [e [-> ->]]. reflexivity.
    - destruct (Step.marked self r_tree r_light !! k) as [e|] eqn:E;
        [|reflexivity].
      destruct (Step.expired self e) eqn:Hexp; [|reflexivity].
      exfalso. apply H, elem_of_clusters_to_remove. eauto.
  Qed.
End StepRegistry.

Section StepCollect.
Variable self : model.
Variables r_tree r_light : ndarray Q.
Local Abbreviation n := (grid_size self).
Local Abbreviation self' := (step self r_tree r_light).

Lemma burning_cells_mask_at i j : (i < n)%nat -> (j < n)%nat ->
    getb (Step.burning_cells_mask self r_tree r_light) i j =
    is_burning self' (i, j).
  Proof.
    intros. unfold Step.burning_cells_mask, np_eq, getb.
    by rewrite get_build.
  Qed.

Lemma elem_of_active_cluster_ids (k : Z) :
    k ∈ Step.active_cluster_ids self r_tree r_light <->
    k <> 0 /\ active self' k.
  Proof.
    unfold Step.active_cluster_ids.
    rewrite elem_of_difference, elem_of_list_to_set, list_elem_of_In.
    rewrite In_np_select, elem_of_singleton. unfold active, in_grid.
    split.
    - intros [(i & j & Hi & Hj & Hm & Hv) Hne]. split; [exact Hne|].
      exists i, j. rewrite burning_cells_mask_at in Hm by assumption.
      apply Z.eqb_eq in Hm. simpl in *. auto.
    - intros [Hne (i & j & [Hi Hj] & Hs & Hc)]. split; [|exact Hne].
      simpl in Hi, Hj. exists i, j.
      rewrite burning_cells_mask_at by assumption.
      unfold is_burning. simpl. rewrite Hs. auto.
  Qed.

Lemma cluster_size_eq (k : Z) :
    Step.cluster_size self r_light k = cluster_cells self' k.
  Proof.
    unfold Step.cluster_size, np_sum, cluster_cells. f_equal.
    apply filter_ext_length. intros [i j] Hin. apply in_cells in Hin.
    simpl in Hin. unfold mask_at, np_eq, getb. simpl.
    by rewrite get_build by lia.
  Qed.

Lemma total_fire_count_eq :
    Step.total_fire_count self r_tree r_light =
    Z.of_nat (length (List.filter (is_burning self') (cells n))).
  Proof.
    unfold Step.total_fire_count, np_sum. f_equal.
    apply filter_ext_length. intros [i j] Hin. apply in_cells in Hin.
    simpl in Hin. unfold mask_at. simpl.
    fold (Step.burning_cells_mask self r_tree r_light).
    by rewrite burning_cells_mask_at by lia.
  Qed.

  (** How one step rewrites the registry entry of an id: tracked when the
      id is active, marked when it died, pruned when expired. *)
Lemma registry_step (k : Z) :
    cluster_registry self' !! k =
    let o1 :=
      if decide (k ∈ Step.active_cluster_ids self r_tree r_light)
      then Some (track_entry self (cluster_cells self' k)
                   (cluster_registry self !! k))
      else cluster_registry self !! k in
    let o2 :=
      if decide (k ∈ Step.died_cluster_ids self r_tree r_light)
      then mark_entry self <$> o1 else o1 in
    match o2 with
    | Some e => if Step.expired self e then None else Some e
    | None => None
    end.
  Proof.
    rewrite cluster_registry'_lookup, marked_lookup, tracked_lookup.
    by rewrite cluster_size_eq.
  Qed.

Lemma elem_of_died_cluster_ids (k : Z) :
    k ∈ Step.died_cluster_ids self r_tree r_light <->
    is_Some (current_clusters self !! k) /\
    k ∉ Step.active_cluster_ids self r_tree r_light.
  Proof.
    unfold Step.died_cluster_ids, Step.previous_cluster_ids.
    by rewrite elem_of_difference, elem_of_dom.
  Qed.

Lemma current_clusters_step (k : Z) :
    is_Some (current_clusters self' !! k) <->
    k ∈ Step.active_cluster_ids self r_tree r_light.
  Proof.
    unfold step. simpl. rewrite new_current_clusters_lookup.
    destruct (decide (k ∈ Step.active_cluster_ids self r_tree r_light));
      split; intros H; try done; by destruct H.
  Qed.
End StepCollect.

(** ** Neighbours *)

Lemma neighbors_in_grid (n i j : nat) (c : nat * nat) :
  (i < n)%nat -> (j < n)%nat -> In c (neighbors n i j) ->
  (fst c < n)%nat /\ (snd c < n)%nat.
Proof.
  intros Hi Hj. unfold neighbors.
  destruct (S i <? n)%nat eqn:E1, (0 <? i)%nat eqn:E2,
           (S j <? n)%nat eqn:E3, (0 <? j)%nat eqn:E4;
    simpl; rewrite ?Nat.ltb_lt in *;
    intros H; repeat (destruct H as [<-|H]; [simpl; lia|]); destruct H.
Qed.

Lemma burning_neighbors_spec (m : model) (i j : nat) (c : nat * nat) :
  In c (burning_neighbors m i j) <->
  In c (neighbors (grid_size m) i j) /\ state m (fst c) (snd c) = BURNING.
Proof.
  unfold burning_neighbors. rewrite filter_In. unfold is_burning.
  by rewrite Z.eqb_eq.
Qed.

Lemma burning_neighbors_nil (m : model) (i j : nat) :
  burning_neighbors m i j = nil <->
  existsb (is_burning m) (neighbors (grid_size m) i j) = false.
Proof.
  unfold burning_neighbors.
  induction (neighbors (grid_size m) i j) as [|c l IH]; simpl; [tauto|].
  destruct (is_burning m c); simpl; [split; discriminate | exact IH].
Qed.

(** ** State/id coupling is preserved *)

Lemma coupled_burning_pos (m : model) (i j : nat) :
  coupled m -> in_grid m i j -> state m i j = BURNING -> 0 < cid m i j.
Proof. intros Hc Hin Hs. apply (Hc i j Hin). by left. Qed.

Lemma coupled_nonneg (m : model) (i j : nat) :
  coupled m -> in_grid m i j -> 0 <= cid m i j.
Proof.
  intros Hc Hin. destruct (Hc i j Hin) as [H1 H2].
  destruct (decide (state m i j = BURNING \/ state m i j = ASH)) as [H|H].
  - apply H1 in H. lia.
  - rewrite (H2 H). lia.
Qed.

Lemma propagated_id_pos (m : model) (i j : nat) :
  coupled m -> in_grid m i j -> burning_neighbors m i j <> nil ->
  0 < getz (Step.max_neighbor_id m) i j.
Proof.
  intros Hc [Hi Hj] Hne.
  assert (forall c, In c (burning_neighbors m i j) ->
                    0 < cid m (fst c) (snd c)) as Hpos.
  { intros c Hin. apply burning_neighbors_spec in Hin as [Hin Hs].
    apply coupled_burning_pos; [exact Hc | | exact Hs].
    by apply (neighbors_in_grid _ i j). }
  destruct (max_neighbor_id_is_max m i j Hi Hj) as [[c [Hin Heq]] _];
    [|exact Hne|].
  - intros c Hin. apply Hpos in Hin. lia.
  - rewrite <- Heq. by apply Hpos.
Qed.

Lemma coupled_step (m : model) (r_tree r_light : ndarray Q) :
  coupled m -> 1 <= next_cluster_id m -> coupled (step m r_tree r_light).
Proof.
  intros Hc Hnext i j [Hi Hj]. simpl in Hi, Hj.
  pose proof (burning'_iff m r_tree r_light i j Hi Hj) as Hb.
  pose proof (ash'_iff m r_tree r_light i j Hi Hj) as Ha.
  rewrite cid'_at by assumption.
  destruct (getb (Step.active_ash_mask m r_light) i j) eqn:Hash.
  - destruct (active_ash_was_fire m r_light i j Hi Hj Hash) as (_ & Hpos & _).
    split; [|intros H; exfalso; apply H; right; by apply Ha].
    split; [intros _; right; by apply Ha | intros _; exact Hpos].
  - destruct (ignites m r_light i j) eqn:Hig.
    + assert (0 < getz (Step.new_cluster_ids m r_light) i j) as Hpos.
      { rewrite new_cluster_ids_at by assumption.
        rewrite new_lightning_mask_at, propagated_mask_at, Hig by assumption.
        simpl.
        destruct (existsb (is_burning m) (neighbors (grid_size m) i j)) eqn:E;
          simpl; [|lia].
        apply propagated_id_pos; [exact Hc | by split |].
        intros Hnil. apply burning_neighbors_nil in Hnil. congruence. }
      split; [|intros H; exfalso; apply H; left; by apply Hb].
      split; [intros _; left; by apply Hb | intros _; exact Hpos].
    + split; [|reflexivity].
      split; [lia|]. intros [H|H]; [apply Hb in H | apply Ha in H]; congruence.
Qed.

(** ** Deques *)

Lemma deque_append_maxlen {A : Type} (x : A) (d : deque A) :
  maxlen (deque_append x d) = maxlen d.
Proof. reflexivity. Qed.

Lemma deque_append_bounded {A : Type} (x : A) (d : deque A) :
  bounded (deque_append x d).
Proof.
  unfold bounded, deque_append. simpl.
  rewrite length_skipn, length_app. simpl. lia.
Qed.

Lemma deque_new_bounded {A : Type} (w : nat) : bounded (@deque_new A w).
Proof. unfold bounded. simpl. lia. Qed.

Lemma deque_append_room {A : Type} (x : A) (d : deque A) :
  (length (items d) < maxlen d)%nat ->
  items (deque_append x d) = items d ++ x :: nil.
Proof.
  intros H. unfold deque_append. simpl.
  replace (length (items d ++ x :: nil) - maxlen d)%nat with 0%nat
    by (rewrite length_app; simpl; lia).
  reflexivity.
Qed.

Lemma deque_append_full {A : Type} (x : A) (d : deque A) :
  length (items d) = maxlen d -> (0 < maxlen d)%nat ->
  items (deque_append x d) = List.tl (items d) ++ x :: nil.
Proof.
  intros H Hpos. unfold deque_append. simpl.
  replace (length (items d ++ x :: nil) - maxlen d)%nat with 1%nat
    by (rewrite length_app; simpl; lia).
  destruct (items d) as [|y l]; [simpl in H; lia|]. reflexivity.
Qed.

(** ** Entries *)

Lemma track_entry_death (m : model) (size : Z) (o : option entry) :
  death (track_entry m size o) =
  match o with Some e => death e | None => None end.
Proof. by destruct o. Qed.

Lemma track_entry_birth (m : model) (size : Z) (o : option entry) :
  birth (track_entry m size o) =
  match o with Some e => birth e | None => step_count m + 1 end.
Proof. by destruct o. Qed.

Lemma track_entry_max_size (m : model) (size : Z) (o : option entry) :
  max_size (track_entry m size o) =
  match o with Some e => Z.max (max_size e) size | None => size end.
Proof.
  destruct o as [e|]; unfold track_entry; simpl.
  - destruct (max_size e <? size) eqn:E;
      [apply Z.ltb_lt in E | apply Z.ltb_ge in E]; lia.
  - by rewrite Z.ltb_irrefl.
Qed.

Lemma track_entry_sizes (m : model) (size : Z) (o : option entry) :
  sizes (track_entry m size o) =
  deque_append (step_count m + 1, size)
    (match o with
     | Some e => sizes e
     | None => deque_new (window_size m)
     end).
Proof. by destruct o. Qed.

Lemma mark_entry_birth (m : model) (e : entry) :
  birth (mark_entry m e) = birth e.
Proof. unfold mark_entry. by destruct (death e). Qed.

Lemma mark_entry_max_size (m : model) (e : entry) :
  max_size (mark_entry m e) = max_size e.
Proof. unfold mark_entry. by destruct (death e). Qed.

Lemma mark_entry_sizes (m : model) (e : entry) :
  sizes (mark_entry m e) = sizes e.
Proof. unfold mark_entry. by destruct (death e). Qed.

Lemma mark_entry_death (m : model) (e : entry) :
  death (mark_entry m e) =
  match death e with Some d => Some d | None => Some (step_count m + 1) end.
Proof. unfold mark_entry. by destruct (death e) eqn:E. Qed.

(** ** Where the active ids of the next state come from *)

Section Origin.
Variable m : model.
Variables r_tree r_light : ndarray Q.
Local Abbreviation m' := (step m r_tree r_light).

Lemma next_cluster_id_step :
    next_cluster_id m' =
    next_cluster_id m + Step.num_new_fires m r_light.
  Proof. unfold step. simpl. apply next_cluster_id'_eq. Qed.

Lemma next_cluster_id_mono : next_cluster_id m <= next_cluster_id m'.
  Proof.
    rewrite next_cluster_id_step.
    pose proof (num_new_fires_nonneg m r_light). lia.
  Qed.

  (** The id given to an ignited tree: inherited from a burning neighbour,
      or fresh. *)
Lemma ignited_id_origin (i j : nat) :
    coupled m -> in_grid m i j -> ignites m r_light i j = true ->
    (burning_neighbors m i j <> nil /\
     exists c, In c (burning_neighbors m i j) /\
               cid m (fst c) (snd c) =
               getz (Step.new_cluster_ids m r_light) i j) \/
    (burning_neighbors m i j = nil /\
     getz (Step.new_cluster_ids m r_light) i j =
     next_cluster_id m +
     Z.of_nat (mask_rank (grid_size m) (Step.new_lightning_mask m r_light) i j)
     /\ next_cluster_id m <= getz (Step.new_cluster_ids m r_light) i j
        < next_cluster_id m').
  Proof.
    intros Hc [Hi Hj] Hig.
    rewrite new_cluster_ids_at by assumption.
    pose proof (new_lightning_mask_at m r_light i j Hi Hj) as Hl.
    rewrite propagated_mask_at, Hl, Hig by assumption. simpl.
    destruct (existsb (is_burning m) (neighbors (grid_size m) i j)) eqn:E;
      simpl.
    - left.
      assert (burning_neighbors m i j <> nil) as Hne.
      { intros Hnil. apply burning_neighbors_nil in Hnil. congruence. }
      split; [exact Hne|].
      destruct (max_neighbor_id_is_max m i j Hi Hj) as [Hex _];
        [|exact Hne|exact Hex].
      intros c Hin. apply burning_neighbors_spec in Hin as [Hin _].
      apply coupled_nonneg; [exact Hc|]. by apply (neighbors_in_grid _ i j).
    - right. split; [by apply burning_neighbors_nil|]. split; [reflexivity|].
      rewrite Hig in Hl; simpl in Hl.
      pose proof (mask_rank_lt_sum _ _ i j Hi Hj Hl) as Hlt.
      rewrite next_cluster_id'_eq. unfold Step.num_new_fires. lia.
  Qed.

Lemma active_origin (k : Z) :
    coupled m -> active m' k ->
    active m k \/ next_cluster_id m <= k < next_cluster_id m'.
  Proof.
    intros Hc Ha. apply active'_iff, In_active_ids in Ha.
    destruct Ha as (i & j & Hi & Hj & Hig & Hk).
    destruct (ignited_id_origin i j Hc (conj Hi Hj) Hig)
      as [[_ [c [Hin Heq]]]|(_ & _ & Hrange)].
    - left. apply burning_neighbors_spec in Hin as [Hin Hs].
      apply (neighbors_in_grid _ i j) in Hin; [|assumption..].
      exists (fst c), (snd c). split; [exact Hin|]. split; [exact Hs|].
      congruence.
    - right. by rewrite <- Hk.
  Qed.

  (** Every id carried after the step is the id of an active cluster. *)
Lemma carried_active (i j : nat) :
    coupled m' -> in_grid m' i j -> 0 < cid m' i j -> active m' (cid m' i j).
  Proof.
    intros Hc' Hin Hpos. destruct Hin as [Hi Hj]. simpl in Hi, Hj.
    apply (Hc' i j (conj Hi Hj)) in Hpos as [Hs|Hs].
    - exists i, j. by repeat split.
    - apply ash'_iff in Hs; [|assumption..].
      apply active'_iff. rewrite cid'_at, Hs by assumption.
      by destruct (active_ash_was_fire m r_light i j Hi Hj Hs) as (_&_&_&H).
  Qed.
End Origin.

(** ** The invariant holds in every reachable state *)

Lemma init_Some (gs : Z) (pt pf : Q) (r : ndarray Q) (m : model) :
  init gs pt pf r = Some m ->
  0 <= gs /\
  m = mk_model (Z.to_nat gs) pt pf
        (fill_masked (Z.to_nat gs) (np_zeros (Z.to_nat gs))
           (np_lt (Z.to_nat gs) r initial_density) 1)
        (np_zeros (Z.to_nat gs)) 1 0 (Z.to_nat 6000)
        (deque_new (Z.to_nat 6000)) ∅ ∅.
Proof.
  unfold init. destruct (gs <? 0) eqn:E; [discriminate|].
  apply Z.ltb_ge in E. intros H. by inversion H.
Qed.

Lemma init_cells (gs : Z) (pt pf : Q) (r : ndarray Q) (m : model) (i j : nat) :
  init gs pt pf r = Some m -> in_grid m i j ->
  (state m i j = TREE \/ state m i j = EMPTY) /\ cid m i j = 0.
Proof.
  intros H Hin. apply init_Some in H as [_ ->].
  destruct Hin as [Hi Hj]. simpl in Hi, Hj. unfold state, cid. simpl.
  unfold fill_masked, np_zeros, getz. rewrite !get_build by assumption.
  split; [|reflexivity].
  destruct (getb _ i j); [by left | by right].
Qed.

Lemma inv_init (gs : Z) (pt pf : Q) (r : ndarray Q) (m : model) :
  init gs pt pf r = Some m -> inv m.
Proof.
  intros H. pose proof (init_cells gs pt pf r m) as Hcells.
  pose proof (init_Some _ _ _ _ _ H) as [_ Hm].
  split.
  - intros i j Hin. destruct (Hcells i j H Hin) as [Hs Hc]. rewrite Hc.
    unfold BURNING, ASH, TREE, EMPTY in *. split; [|done].
    split; [lia|]. intros [?|?]; lia.
  - subst m. simpl. lia.
  - intros i j Hin. destruct (Hcells i j H Hin) as [_ ->]. subst m. simpl. lia.
  - intros k e. subst m. simpl. by rewrite lookup_empty.
  - intros i j Hin. destruct (Hcells i j H Hin) as [_ ->]. lia.
  - intros k. split.
    + subst m. simpl. rewrite lookup_empty. by intros [? ?].
    + intros (i & j & Hin & Hs & _). destruct (Hcells i j H Hin) as [Hs' _].
      unfold BURNING, TREE, EMPTY in *. lia.
  - subst m. reflexivity.
  - subst m. simpl. split; [reflexivity | apply deque_new_bounded].
  - intros k e. subst m. simpl. by rewrite lookup_empty.
Qed.

Section InvStep.
Variable m : model.
Variables r_tree r_light : ndarray Q.
Hypothesis Hinv : inv m.
Local Abbreviation m' := (step m r_tree r_light).

Lemma inv_step_coupled : coupled m'.
  Proof. apply coupled_step; [apply inv_coupled | apply inv_next]; exact Hinv. Qed.

Lemma active_pos (k : Z) : active m' k -> 0 < k.
  Proof.
    intros (i & j & Hin & Hs & <-).
    by apply (coupled_burning_pos m' i j inv_step_coupled).
  Qed.

Lemma inv_step_ids_lt (i j : nat) :
    in_grid m' i j -> cid m' i j < next_cluster_id m'.
  Proof.
    intros [Hi Hj]. simpl in Hi, Hj.
    pose proof (next_cluster_id_mono m r_tree r_light) as Hmono.
    pose proof (inv_next m Hinv) as Hnext.
    pose proof (inv_ids_lt m Hinv i j (conj Hi Hj)) as Hlt.
    rewrite cid'_at by assumption.
    destruct (getb (Step.active_ash_mask m r_light) i j); [lia|].
    destruct (ignites m r_light i j) eqn:Hig; [|lia].
    destruct (ignited_id_origin m r_tree r_light i j (inv_coupled m Hinv)
                (conj Hi Hj) Hig) as [[_ [c [Hin Heq]]]|(_ & _ & Hrange)];
      [|lia].
    apply burning_neighbors_spec in Hin as [Hin _].
    apply (neighbors_in_grid _ i j) in Hin; [|assumption..].
    pose proof (inv_ids_lt m Hinv (fst c) (snd c) Hin). lia.
  Qed.

Lemma active_lt (k : Z) : active m' k -> k < next_cluster_id m'.
  Proof. intros (i & j & Hin & _ & <-). by apply inv_step_ids_lt. Qed.

  (** What is in the registry after a step was there before, or is active. *)
Lemma registry_step_Some (k : Z) (e' : entry) :
    cluster_registry m' !! k = Some e' ->
    is_Some (cluster_registry m !! k) \/
    k ∈ Step.active_cluster_ids m r_tree r_light.
  Proof.
    rewrite registry_step. simpl.
    destruct (decide (k ∈ Step.active_cluster_ids m r_tree r_light));
      [by right|].
    destruct (cluster_registry m !! k); [by left|].
    by destruct (decide (k ∈ Step.died_cluster_ids m r_tree r_light)).
  Qed.

Lemma inv_step_keys (k : Z) (e' : entry) :
    cluster_registry m' !! k = Some e' -> 0 < k < next_cluster_id m'.
  Proof.
    intros H. apply registry_step_Some in H as [[e He]|Ha].
    - pose proof (inv_keys m Hinv k e He).
      pose proof (next_cluster_id_mono m r_tree r_light). lia.
    - apply elem_of_active_cluster_ids in Ha as [_ Ha].
      split; [by apply active_pos | by apply active_lt].
  Qed.

  (** An id that is active after the step has a live registry entry. *)
Lemma active_registered (k : Z) :
    active m' k ->
    exists e', cluster_registry m' !! k = Some e' /\ death e' = None.
  Proof.
    intros Ha. pose proof (active_pos k Ha) as Hpos.
    assert (k ∈ Step.active_cluster_ids m r_tree r_light) as Hin
      by (apply elem_of_active_cluster_ids; split; [lia | exact Ha]).
    assert (match cluster_registry m !! k with
            | Some e => death e = None
            | None => True
            end) as Hold.
    { destruct (cluster_registry m !! k) as [e|] eqn:He; [|exact I].
      destruct (active_origin m r_tree r_light k (inv_coupled m Hinv) Ha)
        as [(i & j & Hij & Hs & Hc)|Hfresh].
      - pose proof (coupled_burning_pos m i j (inv_coupled m Hinv) Hij Hs).
        destruct (inv_carried m Hinv i j Hij) as [e0 [He0 Hd]]; [lia|].
        rewrite Hc, He in He0. by inversion He0.
      - pose proof (inv_keys m Hinv k e He). lia. }
    rewrite registry_step. simpl.
    destruct (decide (k ∈ Step.active_cluster_ids m r_tree r_light));
      [|contradiction].
    destruct (decide (k ∈ Step.died_cluster_ids m r_tree r_light)) as [Hd|_].
    { apply elem_of_died_cluster_ids in Hd as [_ Hd]. contradiction. }
    assert (death (track_entry m (cluster_cells m' k)
                     (cluster_registry m !! k)) = None) as Hdeath.
    { rewrite track_entry_death.
      by destruct (cluster_registry m !! k). }
    unfold Step.expired. rewrite Hdeath. eauto.
  Qed.

Lemma inv_step_carried (i j : nat) :
    in_grid m' i j -> 0 < cid m' i j ->
    exists e', cluster_registry m' !! cid m' i j = Some e' /\ death e' = None.
  Proof.
    intros Hin Hpos. apply active_registered.
    by apply carried_active; [apply inv_step_coupled|..].
  Qed.

Lemma inv_step_current (k : Z) :
    is_Some (current_clusters m' !! k) <-> active m' k.
  Proof.
    rewrite current_clusters_step, elem_of_active_cluster_ids.
    split; [tauto|]. intros Ha. split; [|exact Ha].
    pose proof (active_pos k Ha). lia.
  Qed.

Lemma inv_step_sizes (k : Z) (e' : entry) :
    cluster_registry m' !! k = Some e' ->
    maxlen (sizes e') = window_size m' /\ bounded (sizes e').
  Proof.
    rewrite registry_step. simpl.
    assert (forall o,
              match o with
              | Some e => maxlen (sizes e) = window_size m /\ bounded (sizes e)
              | None => True
              end ->
              forall e1,
                (if decide (k ∈ Step.died_cluster_ids m r_tree r_light)
                 then mark_entry m <$> o else o) = Some e1 ->
                maxlen (sizes e1) = window_size m /\ bounded (sizes e1))
      as Hmark.
    { intros o Ho e1.
      destruct (decide (k ∈ Step.died_cluster_ids m r_tree r_light))
        as [Hd|Hd];
        destruct o as [e0|]; simpl; intros H1; inversion H1; subst;
        rewrite ?mark_entry_sizes; exact Ho. }
    intros H.
    destruct (decide (k ∈ Step.active_cluster_ids m r_tree r_light))
      as [Hact|Hact].
    - match type of H with
      | match ?o2 with _ => _ end = _ => destruct o2 as [e1|] eqn:E2
      end; [|discriminate].
      destruct (Step.expired m e1); [discriminate|]. inversion H; subst e'.
      apply (Hmark _) in E2; [exact E2|].
      rewrite track_entry_sizes. split; [|apply deque_append_bounded].
      rewrite deque_append_maxlen.
      destruct (cluster_registry m !! k) as [e0|] eqn:He; [|reflexivity].
      apply (inv_sizes m Hinv k e0 He).
    - match type of H with
      | match ?o2 with _ => _ end = _ => destruct o2 as [e1|] eqn:E2
      end; [|discriminate].
      destruct (Step.expired m e1); [discriminate|]. inversion H; subst e'.
      apply (Hmark _) in E2; [exact E2|].
      destruct (cluster_registry m !! k) as [e0|] eqn:He; [|exact I].
      apply (inv_sizes m Hinv k e0 He).
  Qed.

Lemma inv_step : inv m'.
  Proof.
    split.
    - exact inv_step_coupled.
    - pose proof (next_cluster_id_mono m r_tree r_light).
      pose proof (inv_next m Hinv). lia.
    - exact inv_step_ids_lt.
    - exact inv_step_keys.
    - exact inv_step_carried.
    - exact inv_step_current.
    - exact (inv_window m Hinv).
    - destruct (inv_history m Hinv) as [Hw _]. unfold step. simpl.
      unfold Step.active_fire_history'.
      split; [exact Hw | apply deque_append_bounded].
    - exact inv_step_sizes.
  Qed.
End InvStep.

Lemma reachable_inv (m : model) : reachable m -> inv m.
Proof.
  induction 1 as [gs pt pf r m H|m r1 r2 _ IH].
  - exact (inv_init gs pt pf r m H).
  - by apply inv_step.
Qed.

(** ** The small run *)

Lemma ex_m0_init : init 2 0 (1 # 2) (all_draws 2 0) = Some ex_m0.
Proof. reflexivity. Qed.

Lemma ex_m0_reachable : reachable ex_m0.
Proof. exact (reachable_init _ _ _ _ _ ex_m0_init). Qed.

Lemma ex_m1_reachable : reachable ex_m1.
Proof. apply reachable_step, ex_m0_reachable. Qed.

Lemma ex_m2_reachable : reachable ex_m2.
Proof. apply reachable_step, ex_m1_reachable. Qed.

Lemma ex_m3_reachable : reachable ex_m3.
Proof. apply reachable_step, ex_m2_reachable. Qed.

Lemma ex_m4_reachable : reachable ex_m4.
Proof. apply reachable_step, ex_m3_reachable. Qed.

(** ** Counting burning cells *)

Lemma burning_count_zero (m : model) (k : Z) :
  burning_count m k = 0 <-> ~ active m k.
Proof.
  unfold burning_count, active, in_grid. split.
  - intros H (i & j & [Hi Hj] & Hs & Hc).
    assert (length (List.filter
                      (fun c => is_burning m c && (cid m (fst c) (snd c) =? k))
                      (cells (grid_size m))) = 0%nat) as H0 by lia.
    pose proof (filter_length_zero _ _ H0 (i, j)) as Hf.
    unfold is_burning in Hf. simpl in Hf. rewrite Hs, Hc in Hf.
    rewrite !Z.eqb_refl in Hf. simpl in Hf.
    assert (In (i, j) (cells (grid_size m))) as Hin
      by (apply in_cells; simpl; lia).
    specialize (Hf Hin). discriminate.
  - intros H.
    destruct (List.filter
                (fun c => is_burning m c && (cid m (fst c) (snd c) =? k))
                (cells (grid_size m))) as [|[i j] l] eqn:E; [reflexivity|].
    exfalso. apply H.
    assert (In (i, j) (List.filter
                (fun c => is_burning m c && (cid m (fst c) (snd c) =? k))
                (cells (grid_size m)))) as Hin by (rewrite E; by left).
    apply filter_In in Hin as [Hin Hp]. apply in_cells in Hin.
    apply andb_true_iff in Hp as [Hb Hc]. unfold is_burning in Hb.
    apply Z.eqb_eq in Hb, Hc. simpl in *. exists i, j. auto.
Qed.

Lemma burning_count_nonneg (m : model) (k : Z) : 0 <= burning_count m k.
Proof. unfold burning_count. lia. Qed.

Lemma burning_count_pos (m : model) (k : Z) :
  0 < burning_count m k <-> active m k.
Proof.
  pose proof (burning_count_zero m k) as Hz.
  pose proof (burning_count_nonneg m k) as Hn.
  split.
  - intros Hpos.
    destruct (decide (burning_count m k = 0)) as [H0|H0]; [lia|].
    unfold active, in_grid.
    destruct (List.filter
                (fun c => is_burning m c && (cid m (fst c) (snd c) =? k))
                (cells (grid_size m))) as [|[i j] l] eqn:E.
    { unfold burning_count in H0. rewrite E in H0. simpl in H0. lia. }
    assert (In (i, j) (List.filter
                (fun c => is_burning m c && (cid m (fst c) (snd c) =? k))
                (cells (grid_size m)))) as Hin by (rewrite E; by left).
    apply filter_In in Hin as [Hin Hp]. apply in_cells in Hin.
    apply andb_true_iff in Hp as [Hb Hc]. unfold is_burning in Hb.
    apply Z.eqb_eq in Hb, Hc. simpl in *. exists i, j. auto.
  - intros Ha. destruct (decide (burning_count m k = 0)) as [H0|H0]; [|lia].
    apply Hz in H0. contradiction.
Qed.

(** ** C1: state/id coupling *)

(** C1. In every reachable state and for every cell of the grid, the
    cluster id of the cell is positive exactly when the cell is BURNING or
    ASH, and it is 0 on every other cell. *)
Theorem state_id_coupling (m : model) (i j : nat) :
  reachable m -> in_grid m i j ->
  (0 < cid m i j <-> state m i j = BURNING \/ state m i j = ASH) /\
  (~ (state m i j = BURNING \/ state m i j = ASH) -> cid m i j = 0).
Proof.
  intros Hr Hin. exact (inv_coupled m (reachable_inv m Hr) i j Hin).
Qed.

Lemma state_id_coupling_witness :
  (0 < cid ex_m2 0 1 <-> state ex_m2 0 1 = BURNING \/ state ex_m2 0 1 = ASH) /\
  (~ (state ex_m2 0 1 = BURNING \/ state ex_m2 0 1 = ASH) -> cid ex_m2 0 1 = 0).
Proof.
  apply (state_id_coupling ex_m2 0 1).
  - exact ex_m2_reachable.
  - split; vm_compute; lia.
Defined.

(** ** C2: a cluster without burning cells is cleared *)

Section Clearing.
Variable m : model.
Variables r_tree r_light : ndarray Q.
Local Abbreviation m' := (step m r_tree r_light).

Lemma dead_no_active_ash (k : Z) (i j : nat) :
    ~ active m' k -> in_grid m i j -> cid m i j = k ->
    getb (Step.active_ash_mask m r_light) i j = false.
  Proof.
    intros Hdead [Hi Hj] Hc.
    destruct (getb (Step.active_ash_mask m r_light) i j) eqn:Ha; [|reflexivity].
    destruct (active_ash_was_fire m r_light i j Hi Hj Ha) as (_ & _ & _ & Hin).
    exfalso. apply Hdead. apply active'_iff. by rewrite <- Hc.
  Qed.

Lemma dead_cell_cleared (k : Z) (i j : nat) :
    ~ active m' k -> in_grid m i j ->
    state m i j = BURNING \/ state m i j = ASH -> cid m i j = k ->
    state m' i j = EMPTY /\ cid m' i j = 0.
  Proof.
    intros Hdead Hin Hs Hc. pose proof Hin as [Hi Hj].
    pose proof (dead_no_active_ash k i j Hdead Hin Hc) as Ha.
    assert (ignites m r_light i j = false) as Hig.
    { unfold ignites, BURNING, ASH, TREE in *.
      destruct (state m i j =? 1) eqn:E; [|reflexivity].
      apply Z.eqb_eq in E. lia. }
    rewrite state'_at, cid'_at, Ha, Hig by assumption.
    rewrite new_trees_at by assumption.
    unfold BURNING, ASH, TREE, EMPTY in *.
    destruct (state m i j =? 0) eqn:E0; [apply Z.eqb_eq in E0; lia|].
    destruct (state m i j =? 1) eqn:E1; [apply Z.eqb_eq in E1; lia|].
    simpl. by split.
  Qed.

Lemma dead_id_gone (k : Z) (i j : nat) :
    ~ active m' k -> k <> 0 -> in_grid m i j -> cid m' i j <> k.
  Proof.
    intros Hdead Hk [Hi Hj] Hc. rewrite cid'_at in Hc by assumption.
    destruct (getb (Step.active_ash_mask m r_light) i j) eqn:Ha.
    - pose proof (dead_no_active_ash k i j Hdead (conj Hi Hj) Hc). congruence.
    - destruct (ignites m r_light i j) eqn:Hig; [|congruence].
      apply Hdead. apply active'_iff, In_active_ids. exists i, j. auto.
  Qed.
End Clearing.

(** C2. In every step, if a cluster id has no BURNING cell in the grid the
    step produces, every cell that carried the id (BURNING or ASH before the
    step) is EMPTY in that grid and carries no id, and no cell of the new
    grid carries the id any more. *)
Theorem dead_cluster_cleared (m : model) (r_tree r_light : ndarray Q) (k : Z) :
  burning_count (step m r_tree r_light) k = 0 ->
  (forall i j, in_grid m i j ->
     state m i j = BURNING \/ state m i j = ASH -> cid m i j = k ->
     state (step m r_tree r_light) i j = EMPTY /\
     cid (step m r_tree r_light) i j = 0) /\
  (k <> 0 -> forall i j, in_grid m i j -> cid (step m r_tree r_light) i j <> k).
Proof.
  intros H. apply burning_count_zero in H. split.
  - intros i j. by apply dead_cell_cleared.
  - intros Hk i j. by apply dead_id_gone.
Qed.

Lemma dead_cluster_cleared_witness :
  burning_count ex_m4 1 = 0 /\
  (forall i j, in_grid ex_m3 i j ->
     state ex_m3 i j = BURNING \/ state ex_m3 i j = ASH -> cid ex_m3 i j = 1 ->
     state ex_m4 i j = EMPTY /\ cid ex_m4 i j = 0) /\
  (1 <> 0 -> forall i j, in_grid ex_m3 i j -> cid ex_m4 i j <> 1).
Proof.
  split; [vm_compute; reflexivity|].
  apply (dead_cluster_cleared ex_m3 (all_draws 2 1) (all_draws 2 1) 1).
  vm_compute. reflexivity.
Defined.

(** ** C6: pruning *)

(** An entry that a step keeps is not expired. *)
Lemma kept_entry_recent (m : model) (r_tree r_light : ndarray Q)
    (k : Z) (e : entry) (d : Z) :
  cluster_registry (step m r_tree r_light) !! k = Some e ->
  death e = Some d ->
  step_count m + 1 - d <= Z.of_nat (window_size m).
Proof.
  rewrite cluster_registry'_lookup. intros H Hd.
  destruct (Step.marked m r_tree r_light !! k) as [e1|]; [|discriminate].
  destruct (Step.expired m e1) eqn:Hexp; [discriminate|].
  inversion H; subst e1. unfold Step.expired in Hexp. rewrite Hd in Hexp.
  apply Z.ltb_ge in Hexp. unfold Step.step_count' in Hexp. lia.
Qed.

(** C6. After every step, the registry holds no entry whose death is set
    and lies more than the window size behind the step counter: such an
    entry is removed by the step. *)
Theorem registry_pruned (m : model) (r_tree r_light : ndarray Q)
    (k : Z) (e : entry) (d : Z) :
  cluster_registry (step m r_tree r_light) !! k = Some e ->
  death e = Some d ->
  step_count (step m r_tree r_light) - d <= Z.of_nat (window_size m).
Proof.
  intros H Hd. rewrite step_count_step.
  exact (kept_entry_recent m r_tree r_light k e d H Hd).
Qed.

Lemma registry_pruned_witness :
  cluster_registry ex_m4 !! 1 = Some ex_e4 /\ death ex_e4 = Some 4 /\
  step_count ex_m4 - 4 <= Z.of_nat (window_size ex_m3).
Proof.
  split; [vm_compute; reflexivity|]. split; [reflexivity|].
  apply (registry_pruned ex_m3 (all_draws 2 1) (all_draws 2 1) 1 ex_e4 4).
  - vm_compute. reflexivity.
  - reflexivity.
Defined.

(** ** C4: the id of an igniting tree *)

Lemma In_minted (m : model) (r_light : ndarray Q) (k : Z) :
  In k (minted m r_light) <->
  next_cluster_id m <= k < next_cluster_id m + Step.num_new_fires m r_light.
Proof.
  unfold minted, Step.new_ids, np_arange.
  pose proof (num_new_fires_nonneg m r_light) as Hn.
  destruct (0 <? Step.num_new_fires m r_light) eqn:E.
  - rewrite in_map_iff. split.
    + intros [x [<- Hx]]. apply in_seq in Hx. lia.
    + intros H. exists (Z.to_nat (k - next_cluster_id m)). split; [lia|].
      apply in_seq. lia.
  - apply Z.ltb_ge in E. simpl. lia.
Qed.

Section Ignition.
Variable m : model.
Variables r_tree r_light : ndarray Q.
Hypothesis Hinv : inv m.
Local Abbreviation m' := (step m r_tree r_light).

Lemma ignited_cid (i j : nat) :
    in_grid m i j -> ignites m r_light i j = true ->
    cid m' i j = getz (Step.new_cluster_ids m r_light) i j.
  Proof.
    intros [Hi Hj] Hig. rewrite cid'_at, Hig by assumption.
    destruct (getb (Step.active_ash_mask m r_light) i j) eqn:Ha;
      [|reflexivity].
    rewrite (active_ash_not_ignited m r_light i j Hi Hj Ha) in Hig.
    discriminate.
  Qed.

Lemma propagated_cid (i j : nat) :
    in_grid m i j -> ignites m r_light i j = true ->
    burning_neighbors m i j <> nil ->
    cid m' i j = getz (Step.max_neighbor_id m) i j.
  Proof.
    intros Hin Hig Hne. rewrite ignited_cid by assumption.
    destruct Hin as [Hi Hj]. rewrite new_cluster_ids_at by assumption.
    rewrite new_lightning_mask_at, propagated_mask_at, Hig by assumption.
    destruct (existsb (is_burning m) (neighbors (grid_size m) i j)) eqn:E;
      [reflexivity|].
    apply burning_neighbors_nil in E. contradiction.
  Qed.

Lemma lightning_cid (i j : nat) :
    in_grid m i j -> ignites m r_light i j = true ->
    burning_neighbors m i j = nil ->
    getb (Step.new_lightning_mask m r_light) i j = true /\
    cid m' i j =
    next_cluster_id m +
    Z.of_nat (mask_rank (grid_size m) (Step.new_lightning_mask m r_light) i j).
  Proof.
    intros Hin Hig Hnil. rewrite ignited_cid by assumption.
    destruct Hin as [Hi Hj]. rewrite new_cluster_ids_at by assumption.
    rewrite new_lightning_mask_at, Hig by assumption.
    apply burning_neighbors_nil in Hnil. rewrite Hnil. by split.
  Qed.

  (** Every id of the next grid below the old counter was there before the
      step, and a fresh id sits on one cell only. *)
Lemma fresh_id_unique (i j i' j' : nat) :
    in_grid m i j -> ignites m r_light i j = true ->
    burning_neighbors m i j = nil ->
    in_grid m i' j' -> (i', j') <> (i, j) -> cid m' i' j' <> cid m' i j.
  Proof.
    intros Hin Hig Hnil Hin' Hne.
    destruct (lightning_cid i j Hin Hig Hnil) as [Hl ->].
    pose proof (inv_next m Hinv) as Hnext.
    pose proof (inv_ids_lt m Hinv i' j' Hin') as Hlt.
    destruct Hin as [Hi Hj]. pose proof Hin' as [Hi' Hj'].
    rewrite cid'_at by assumption.
    destruct (getb (Step.active_ash_mask m r_light) i' j'); [lia|].
    destruct (ignites m r_light i' j') eqn:Hig'; [|lia].
    destruct (ignited_id_origin m r_tree r_light i' j'
                (inv_coupled m Hinv) Hin' Hig')
      as [[_ [c [Hc Heq]]]|(Hnil' & Heq & _)].
    - apply burning_neighbors_spec in Hc as [Hc _].
      apply (neighbors_in_grid _ i' j') in Hc; [|assumption..].
      pose proof (inv_ids_lt m Hinv (fst c) (snd c) Hc). lia.
    - rewrite Heq. intros H. apply Hne.
      destruct (lightning_cid i' j' Hin' Hig' Hnil') as [Hl' _].
      apply (mask_rank_inj (grid_size m) (Step.new_lightning_mask m r_light));
        try assumption. lia.
  Qed.
End Ignition.

(** C4. In every step from a reachable state, a TREE cell that ignites
    takes the largest cluster id among its burning 4-neighbours when it
    has one; when it has none (lightning) it takes an id drawn from the
    counter: one of the ids minted by the step, at or above the counter
    before the step, carried by no cell and no registry entry before, and
    by no other cell after. *)
Theorem ignition_id_assignment (m : model) (r_tree r_light : ndarray Q)
    (i j : nat) :
  reachable m -> in_grid m i j ->
  state m i j = TREE -> state (step m r_tree r_light) i j = BURNING ->
  (burning_neighbors m i j <> nil ->
     (exists c, In c (burning_neighbors m i j) /\
                cid (step m r_tree r_light) i j = cid m (fst c) (snd c)) /\
     (forall c, In c (burning_neighbors m i j) ->
                cid m (fst c) (snd c) <= cid (step m r_tree r_light) i j)) /\
  (burning_neighbors m i j = nil ->
     In (cid (step m r_tree r_light) i j) (minted m r_light) /\
     next_cluster_id m <= cid (step m r_tree r_light) i j
       < next_cluster_id (step m r_tree r_light) /\
     (forall i' j', in_grid m i' j' ->
                    cid m i' j' <> cid (step m r_tree r_light) i j) /\
     cluster_registry m !! cid (step m r_tree r_light) i j = None /\
     (forall i' j', in_grid m i' j' -> (i', j') <> (i, j) ->
                    cid (step m r_tree r_light) i' j' <>
                    cid (step m r_tree r_light) i j)).
Proof.
  intros Hr Hin _ Hs'. pose proof (reachable_inv m Hr) as Hinv.
  pose proof Hin as [Hi Hj].
  apply burning'_iff in Hs'; [|assumption..]. split.
  - intros Hne. rewrite (propagated_cid m r_tree r_light i j Hin Hs' Hne).
    destruct (max_neighbor_id_is_max m i j Hi Hj) as [[c [Hc Heq]] Hmax];
      [|exact Hne|].
    + intros c Hc. apply burning_neighbors_spec in Hc as [Hc _].
      apply coupled_nonneg; [apply (inv_coupled m Hinv)|].
      by apply (neighbors_in_grid _ i j).
    + split; [exists c; split; [exact Hc | by symmetry] | exact Hmax].
  - intros Hnil.
    destruct (lightning_cid m r_tree r_light i j Hin Hs' Hnil) as [Hl Heq].
    pose proof (mask_rank_lt_sum _ _ i j Hi Hj Hl) as Hrank.
    fold (Step.num_new_fires m r_light) in Hrank.
    assert (next_cluster_id m <= cid (step m r_tree r_light) i j
            < next_cluster_id m + Step.num_new_fires m r_light) as Hrange
      by (rewrite Heq; lia).
    split; [by apply In_minted|].
    split; [by rewrite next_cluster_id_step|].
    split; [|split].
    + intros i' j' Hin'. pose proof (inv_ids_lt m Hinv i' j' Hin'). lia.
    + destruct (cluster_registry m !! cid (step m r_tree r_light) i j)
        as [e|] eqn:He; [|reflexivity].
      pose proof (inv_keys m Hinv _ e He). lia.
    + intros i' j' Hin' Hne. by apply fresh_id_unique.
Qed.

Lemma ignition_id_assignment_witness :
  (burning_neighbors ex_m1 0 1 <> nil ->
     (exists c, In c (burning_neighbors ex_m1 0 1) /\
                cid ex_m2 0 1 = cid ex_m1 (fst c) (snd c)) /\
     (forall c, In c (burning_neighbors ex_m1 0 1) ->
                cid ex_m1 (fst c) (snd c) <= cid ex_m2 0 1)) /\
  (burning_neighbors ex_m1 0 1 = nil ->
     In (cid ex_m2 0 1) (minted ex_m1 (all_draws 2 1)) /\
     next_cluster_id ex_m1 <= cid ex_m2 0 1 < next_cluster_id ex_m2 /\
     (forall i' j', in_grid ex_m1 i' j' -> cid ex_m1 i' j' <> cid ex_m2 0 1) /\
     cluster_registry ex_m1 !! cid ex_m2 0 1 = None /\
     (forall i' j', in_grid ex_m1 i' j' -> (i', j') <> (0%nat, 1%nat) ->
                    cid ex_m2 i' j' <> cid ex_m2 0 1)).
Proof.
  apply (ignition_id_assignment ex_m1 (all_draws 2 1) (all_draws 2 1) 0 1).
  - exact ex_m1_reachable.
  - split; vm_compute; lia.
  - vm_compute. reflexivity.
  - vm_compute. reflexivity.
Defined.

(** ** C5: cluster ids are minted in increasing order *)

Lemma map_seq_shift (a b : Z) (s n : nat) :
  a <= b ->
  List.map (fun k => a + Z.of_nat k) (seq (Z.to_nat (b - a) + s) n) =
  List.map (fun k => b + Z.of_nat k) (seq s n).
Proof.
  intros Hab. revert s. induction n as [|n IH]; intros s; simpl; [reflexivity|].
  f_equal; [lia|].
  replace (S (Z.to_nat (b - a) + s)) with (Z.to_nat (b - a) + S s)%nat by lia.
  apply IH.
Qed.

Lemma np_arange_app (a b c : Z) :
  a <= b -> b <= c -> np_arange a c = np_arange a b ++ np_arange b c.
Proof.
  intros Hab Hbc. unfold np_arange.
  replace (Z.to_nat (c - a)) with (Z.to_nat (b - a) + Z.to_nat (c - b))%nat
    by lia.
  rewrite seq_app, List.map_app. f_equal. simpl.
  rewrite <- (map_seq_shift a b 0 _ Hab). by rewrite Nat.add_0_r.
Qed.

Lemma np_arange_empty (a b : Z) : b <= a -> np_arange a b = nil.
Proof.
  intros H. unfold np_arange. by replace (Z.to_nat (b - a)) with 0%nat by lia.
Qed.

Lemma In_np_arange (a b k : Z) : In k (np_arange a b) <-> a <= k < b.
Proof.
  unfold np_arange. rewrite in_map_iff. split.
  - intros [x [<- Hx]]. apply in_seq in Hx. lia.
  - intros H. exists (Z.to_nat (k - a)). split; [lia|]. apply in_seq. lia.
Qed.

Lemma np_arange_sorted (a b : Z) : StronglySorted Z.lt (np_arange a b).
Proof.
  unfold np_arange. generalize (Z.to_nat (b - a)) as n. generalize 0%nat as s.
  intros s n. revert s.
  induction n as [|n IH]; intros s; simpl; constructor; [apply IH|].
  apply List.Forall_forall. intros x Hx. apply in_map_iff in Hx as [y [<- Hy]].
  apply in_seq in Hy. lia.
Qed.

Lemma sorted_NoDup (l : list Z) : StronglySorted Z.lt l -> NoDup l.
Proof.
  induction 1 as [|x l Hs IH Hall]; constructor; [|exact IH].
  intros Hin. apply list_elem_of_In in Hin.
  rewrite List.Forall_forall in Hall. specialize (Hall x Hin). lia.
Qed.

Lemma minted_eq (m : model) (r_light : ndarray Q) :
  minted m r_light =
  np_arange (next_cluster_id m)
    (next_cluster_id m + Step.num_new_fires m r_light).
Proof.
  unfold minted, Step.new_ids.
  destruct (0 <? Step.num_new_fires m r_light) eqn:E; [reflexivity|].
  apply Z.ltb_ge in E. symmetry. apply np_arange_empty. lia.
Qed.

Lemma next_cluster_id_run (m : model) (draws : list (ndarray Q * ndarray Q)) :
  next_cluster_id m <= next_cluster_id (run m draws).
Proof.
  revert m. induction draws as [|d ds IH]; intros m; unfold run; simpl; [lia|].
  pose proof (next_cluster_id_mono m (fst d) (snd d)).
  specialize (IH (step m (fst d) (snd d))). unfold run in IH. lia.
Qed.

(** The ids minted along a run are the integers from the counter at its
    start up to the counter at its end. *)
Lemma minted_run_eq (m : model) (draws : list (ndarray Q * ndarray Q)) :
  minted_run m draws =
  np_arange (next_cluster_id m) (next_cluster_id (run m draws)).
Proof.
  revert m. induction draws as [|d ds IH]; intros m; simpl.
  - symmetry. apply np_arange_empty. unfold run. simpl. lia.
  - change (run m (d :: ds)) with (run (step m (fst d) (snd d)) ds).
    rewrite IH, minted_eq, <- next_cluster_id_step with (r_tree := fst d).
    symmetry. apply np_arange_app.
    + apply next_cluster_id_mono.
    + apply (next_cluster_id_run (step m (fst d) (snd d)) ds).
Qed.

(** C5. Along a whole run from any reachable state, the newly minted
    cluster ids form a strictly increasing sequence without repetition, and
    none of them is an id that a cell or a registry entry held before: an id
    is never handed out a second time. *)
Theorem minted_ids_increasing (m : model)
    (draws : list (ndarray Q * ndarray Q)) :
  reachable m ->
  StronglySorted Z.lt (minted_run m draws) /\
  NoDup (minted_run m draws) /\
  (forall k, In k (minted_run m draws) ->
     next_cluster_id m <= k < next_cluster_id (run m draws) /\
     (forall i j, in_grid m i j -> cid m i j <> k) /\
     cluster_registry m !! k = None).
Proof.
  intros Hr. pose proof (reachable_inv m Hr) as Hinv.
  rewrite minted_run_eq. split; [apply np_arange_sorted|].
  split; [apply sorted_NoDup, np_arange_sorted|].
  intros k Hk. apply In_np_arange in Hk. split; [exact Hk|]. split.
  - intros i j Hin. pose proof (inv_ids_lt m Hinv i j Hin). lia.
  - destruct (cluster_registry m !! k) as [e|] eqn:He; [|reflexivity].
    pose proof (inv_keys m Hinv k e He). lia.
Qed.

Lemma minted_ids_increasing_witness :
  StronglySorted Z.lt
    (minted_run ex_m0 ((all_draws 2 1, strike_corner 2) :: nil)) /\
  NoDup (minted_run ex_m0 ((all_draws 2 1, strike_corner 2) :: nil)) /\
  (forall k, In k (minted_run ex_m0 ((all_draws 2 1, strike_corner 2) :: nil)) ->
     next_cluster_id ex_m0 <= k
       < next_cluster_id (run ex_m0 ((all_draws 2 1, strike_corner 2) :: nil)) /\
     (forall i j, in_grid ex_m0 i j -> cid ex_m0 i j <> k) /\
     cluster_registry ex_m0 !! k = None).
Proof.
  apply (minted_ids_increasing ex_m0 ((all_draws 2 1, strike_corner 2) :: nil)).
  exact ex_m0_reachable.
Defined.

(** ** The registry entry of one id across a step *)

Section EntryStep.
Variable m : model.
Variables r_tree r_light : ndarray Q.
Local Abbreviation m' := (step m r_tree r_light).

(** An id that is active after the step is tracked, and nothing else happens
    to its entry but pruning. *)
Lemma registry_step_active (k : Z) :
  k ∈ Step.active_cluster_ids m r_tree r_light ->
  cluster_registry m' !! k =
  let e1 := track_entry m (cluster_cells m' k) (cluster_registry m !! k) in
  if Step.expired m e1 then None else Some e1.
Proof.
  intros Ha. rewrite registry_step. simpl.
  destruct (decide (k ∈ Step.active_cluster_ids m r_tree r_light));
    [|contradiction].
  destruct (decide (k ∈ Step.died_cluster_ids m r_tree r_light)) as [Hd|_];
    [|reflexivity].
  apply elem_of_died_cluster_ids in Hd as [_ Hd]. contradiction.
Qed.

(** The entry of an id that is not active is at most marked dead, then
    pruned when expired. *)
Lemma registry_step_inactive (k : Z) :
  k ∉ Step.active_cluster_ids m r_tree r_light ->
  cluster_registry m' !! k =
  match cluster_registry m !! k with
  | Some e =>
      let e1 := if decide (is_Some (current_clusters m !! k))
                then mark_entry m e else e in
      if Step.expired m e1 then None else Some e1
  | None => None
  end.
Proof.
  intros Ha. rewrite registry_step. simpl.
  destruct (decide (k ∈ Step.active_cluster_ids m r_tree r_light));
    [contradiction|].
  destruct (decide (k ∈ Step.died_cluster_ids m r_tree r_light)) as [Hd|Hd];
    rewrite elem_of_died_cluster_ids in Hd;
    destruct (decide (is_Some (current_clusters m !! k))) as [Hc|Hc];
    destruct (cluster_registry m !! k); simpl; try reflexivity; tauto.
Qed.

(** Birth and a recorded death survive a step in which the entry is kept. *)
Lemma entry_step_preserved (k : Z) (e e' : entry) :
  cluster_registry m !! k = Some e ->
  cluster_registry m' !! k = Some e' ->
  birth e' = birth e /\ (forall d, death e = Some d -> death e' = Some d).
Proof.
  intros He He'.
  destruct (decide (k ∈ Step.active_cluster_ids m r_tree r_light)) as [Ha|Ha].
  - rewrite registry_step_active, He in He' by assumption. simpl in He'.
    destruct (Step.expired m _); [discriminate|]. inversion He'; subst e'.
    rewrite track_entry_birth, track_entry_death. auto.
  - rewrite registry_step_inactive, He in He' by assumption. simpl in He'.
    destruct (Step.expired m _); [discriminate|]. inversion He'; subst e'.
    destruct (decide (is_Some (current_clusters m !! k))); [|auto].
    rewrite mark_entry_birth, mark_entry_death. split; [reflexivity|].
    by intros d ->.
Qed.

(** An id below the counter that has left the registry does not come back. *)
Lemma gone_stays_gone (k : Z) :
  inv m -> k < next_cluster_id m -> cluster_registry m !! k = None ->
  cluster_registry m' !! k = None.
Proof.
  intros Hinv Hlt Hnone.
  destruct (cluster_registry m' !! k) as [e'|] eqn:He'; [|reflexivity].
  exfalso. apply registry_step_Some in He' as [[e He]|Ha]; [congruence|].
  apply elem_of_active_cluster_ids in Ha as [_ Ha].
  destruct (active_origin m r_tree r_light k (inv_coupled m Hinv) Ha)
    as [(i & j & Hin & Hs & Hc)|Hfresh]; [|lia].
  pose proof (coupled_burning_pos m i j (inv_coupled m Hinv) Hin Hs) as Hpos.
  destruct (inv_carried m Hinv i j Hin Hpos) as [e [He _]]. congruence.
Qed.
End EntryStep.

Lemma run_cons (m : model) (d : ndarray Q * ndarray Q)
    (ds : list (ndarray Q * ndarray Q)) :
  run m (d :: ds) = run (step m (fst d) (snd d)) ds.
Proof. reflexivity. Qed.

Lemma run_snoc (m : model) (ds : list (ndarray Q * ndarray Q))
    (d : ndarray Q * ndarray Q) :
  run m (ds ++ d :: nil) = step (run m ds) (fst d) (snd d).
Proof. unfold run. by rewrite fold_left_app. Qed.

Lemma run_app (m : model) (ds ds' : list (ndarray Q * ndarray Q)) :
  run m (ds ++ ds') = run (run m ds) ds'.
Proof. unfold run. by rewrite fold_left_app. Qed.

Lemma reachable_run (m : model) (draws : list (ndarray Q * ndarray Q)) :
  reachable m -> reachable (run m draws).
Proof.
  revert m. induction draws as [|d ds IH]; intros m Hr; [exact Hr|].
  rewrite run_cons. apply IH. by apply reachable_step.
Qed.

Lemma inv_run (m : model) (draws : list (ndarray Q * ndarray Q)) :
  inv m -> inv (run m draws).
Proof.
  revert m. induction draws as [|d ds IH]; intros m Hr; [exact Hr|].
  rewrite run_cons. apply IH. by apply inv_step.
Qed.

Lemma gone_forever (m : model) (draws : list (ndarray Q * ndarray Q)) (k : Z) :
  inv m -> k < next_cluster_id m -> cluster_registry m !! k = None ->
  cluster_registry (run m draws) !! k = None.
Proof.
  revert m. induction draws as [|d ds IH]; intros m Hinv Hlt Hnone;
    [exact Hnone|].
  rewrite run_cons. apply IH.
  - by apply inv_step.
  - pose proof (next_cluster_id_mono m (fst d) (snd d)). lia.
  - by apply gone_stays_gone.
Qed.

(** ** C10: birth and death are written once *)

(** C10. For every registry entry of a reachable state and every later
    state of the run in which the id is still registered, the birth field
    is the same, and a death step that was recorded is unchanged: a later
    step that sees an id already dead does not overwrite its death. *)
Theorem birth_death_write_once (m : model)
    (draws : list (ndarray Q * ndarray Q)) (k : Z) (e e' : entry) :
  reachable m ->
  cluster_registry m !! k = Some e ->
  cluster_registry (run m draws) !! k = Some e' ->
  birth e' = birth e /\ (forall d, death e = Some d -> death e' = Some d).
Proof.
  intros Hr. pose proof (reachable_inv m Hr) as Hinv. clear Hr.
  revert m e Hinv. induction draws as [|d ds IH]; intros m e Hinv He He'.
  - unfold run in He'. simpl in He'. rewrite He in He'. inversion He'. auto.
  - rewrite run_cons in He'.
    destruct (cluster_registry (step m (fst d) (snd d)) !! k) as [e1|] eqn:E1.
    + destruct (entry_step_preserved m (fst d) (snd d) k e e1 He E1)
        as [Hb Hd].
      destruct (IH _ e1 (inv_step m (fst d) (snd d) Hinv) E1 He') as [Hb' Hd'].
      split; [congruence|]. intros d0 H0. apply Hd', Hd, H0.
    + pose proof (inv_keys m Hinv k e He) as Hk.
      pose proof (next_cluster_id_mono m (fst d) (snd d)) as Hmono.
      rewrite (gone_forever (step m (fst d) (snd d)) ds k) in He';
        [discriminate | by apply inv_step | lia | exact E1].
Qed.

Lemma birth_death_write_once_witness :
  cluster_registry ex_m4 !! 1 = Some ex_e4 /\
  cluster_registry
    (run ex_m4 ((all_draws 2 1, all_draws 2 1) :: nil)) !! 1 = Some ex_e4 /\
  birth ex_e4 = birth ex_e4 /\
  (forall d, death ex_e4 = Some d -> death ex_e4 = Some d).
Proof.
  split; [vm_compute; reflexivity|]. split; [vm_compute; reflexivity|].
  apply (birth_death_write_once ex_m4
           ((all_draws 2 1, all_draws 2 1) :: nil) 1 ex_e4 ex_e4).
  - exact ex_m4_reachable.
  - vm_compute. reflexivity.
  - vm_compute. reflexivity.
Defined.

(** ** C8: bounded histories *)

Lemma deque_append_fifo {A : Type} (w : nat) (x : A) (d : deque A) :
  maxlen d = w -> (0 < w)%nat -> bounded d ->
  items (deque_append x d) = fifo_push w x (items d).
Proof.
  intros Hw Hpos Hb. unfold fifo_push, bounded in *. subst w.
  destruct (length (items d) <? maxlen d)%nat eqn:E.
  - apply Nat.ltb_lt in E. by apply deque_append_room.
  - apply Nat.ltb_ge in E. apply deque_append_full; lia.
Qed.

Lemma total_burning_step (m : model) (r_tree r_light : ndarray Q) :
  Step.total_fire_count m r_tree r_light =
  total_burning (step m r_tree r_light).
Proof. apply total_fire_count_eq. Qed.

(** C8. In every reachable state the active fire history and the size
    history of every registry entry hold at most [window_size] samples,
    and every append made by a step is a first-in-first-out insertion:
    the new sample goes last, and at capacity the oldest sample leaves. *)
Theorem histories_bounded (m : model) :
  reachable m ->
  (length (items (active_fire_history m)) <= window_size m)%nat /\
  (forall k e, cluster_registry m !! k = Some e ->
               (length (items (sizes e)) <= window_size m)%nat) /\
  (forall r_tree r_light,
     items (active_fire_history (step m r_tree r_light)) =
     fifo_push (window_size m)
       (step_count m + 1, total_burning (step m r_tree r_light))
       (items (active_fire_history m))) /\
  (forall r_tree r_light k e',
     cluster_registry (step m r_tree r_light) !! k = Some e' ->
     active (step m r_tree r_light) k ->
     items (sizes e') =
     fifo_push (window_size m)
       (step_count m + 1, cluster_cells (step m r_tree r_light) k)
       (match cluster_registry m !! k with
        | Some e => items (sizes e)
        | None => nil
        end)).
Proof.
  intros Hr. pose proof (reachable_inv m Hr) as Hinv.
  pose proof (inv_window m Hinv) as HW.
  assert (0 < window_size m)%nat as Hpos by (rewrite HW; lia).
  destruct (inv_history m Hinv) as [Hml Hb].
  split; [unfold bounded in Hb; lia|]. split; [|split].
  - intros k e He. destruct (inv_sizes m Hinv k e He) as [Hml' Hb'].
    unfold bounded in Hb'. lia.
  - intros r_tree r_light. unfold step at 1. simpl.
    unfold Step.active_fire_history', Step.step_count'.
    rewrite total_burning_step. by apply deque_append_fifo.
  - intros r_tree r_light k e' He' Ha.
    assert (k ∈ Step.active_cluster_ids m r_tree r_light) as Hin.
    { apply elem_of_active_cluster_ids. split; [|exact Ha].
      pose proof (active_pos m r_tree r_light Hinv k Ha). lia. }
    rewrite registry_step_active in He' by assumption. simpl in He'.
    destruct (Step.expired m _); [discriminate|]. inversion He'; subst e'.
    rewrite track_entry_sizes.
    destruct (cluster_registry m !! k) as [e|] eqn:He.
    + destruct (inv_sizes m Hinv k e He) as [Hml' Hb'].
      by apply deque_append_fifo.
    + apply deque_append_fifo; [reflexivity | exact Hpos |].
      apply deque_new_bounded.
Qed.

Lemma histories_bounded_witness :
  (length (items (active_fire_history ex_m2)) <= window_size ex_m2)%nat /\
  (forall k e, cluster_registry ex_m2 !! k = Some e ->
               (length (items (sizes e)) <= window_size ex_m2)%nat) /\
  (forall r_tree r_light,
     items (active_fire_history (step ex_m2 r_tree r_light)) =
     fifo_push (window_size ex_m2)
       (step_count ex_m2 + 1, total_burning (step ex_m2 r_tree r_light))
       (items (active_fire_history ex_m2))) /\
  (forall r_tree r_light k e',
     cluster_registry (step ex_m2 r_tree r_light) !! k = Some e' ->
     active (step ex_m2 r_tree r_light) k ->
     items (sizes e') =
     fifo_push (window_size ex_m2)
       (step_count ex_m2 + 1, cluster_cells (step ex_m2 r_tree r_light) k)
       (match cluster_registry ex_m2 !! k with
        | Some e => items (sizes e)
        | None => nil
        end)).
Proof. apply (histories_bounded ex_m2). exact ex_m2_reachable. Defined.

(** ** C9: construction *)

(** C9, as the code has it. The constructor checks none of its
    parameters. A negative grid size makes it fail, where [np.zeros] refuses
    the shape; a grid size of 0 does not. The probabilities play no part in
    whether it fails, and an instance that is constructed stores the three
    parameters as given, whatever their values. *)
Theorem init_checks_nothing (gs : Z) (pt pf : Q) (r : ndarray Q) :
  (gs < 0 -> init gs pt pf r = None) /\
  (gs = 0 -> init gs pt pf r <> None) /\
  (forall pt' pf', init gs pt' pf' r = None <-> init gs pt pf r = None) /\
  (forall m, init gs pt pf r = Some m ->
     grid_size m = Z.to_nat gs /\ p_tree m = pt /\ p_fire m = pf).
Proof.
  unfold init. destruct (gs <? 0) eqn:E.
  - apply Z.ltb_lt in E. repeat split; try tauto; try lia; discriminate.
  - apply Z.ltb_ge in E. split; [lia|]. split; [discriminate|].
    split; [split; discriminate|].
    intros m Hm. inversion Hm. simpl. auto.
Qed.

Lemma init_checks_nothing_witness :
  init (-1) (-1 # 2) (3 # 2) nil = None /\
  init 0 (-1 # 2) (3 # 2) nil <> None /\
  (grid_size ex_m0 = Z.to_nat 2 /\ p_tree ex_m0 = 0%Q /\
   p_fire ex_m0 = (1 # 2)%Q).
Proof.
  split; [|split].
  - destruct (init_checks_nothing (-1) (-1 # 2) (3 # 2) nil) as [H _].
    apply H. lia.
  - destruct (init_checks_nothing 0 (-1 # 2) (3 # 2) nil) as (_ & H & _).
    apply H. reflexivity.
  - destruct (init_checks_nothing 2 0 (1 # 2) (all_draws 2 0))
      as (_ & _ & _ & H).
    apply H. reflexivity.
Defined.

(** Invalid parameters that the constructor accepts: an empty grid with a
    negative growth probability and a lightning probability above 1. *)
Lemma init_accepts_invalid :
  ((-1 # 2) < 0)%Q /\ (1 < (3 # 2))%Q /\
  init 0 (-1 # 2) (3 # 2) nil <> None /\
  init 5 (-1 # 2) (3 # 2) (all_draws 5 1) <> None.
Proof.
  split; [reflexivity|]. split; [reflexivity|].
  split; discriminate.
Qed.

(** ** C3: the size recorded for a cluster *)

(** The size recorded at the second step of the small run is 3, the number
    of cells that carry id 1 (two burning, one ash), while only 2 cells with
    that id are burning; the maximum is updated with the same value. *)
Lemma recorded_size_counts_ash :
  reachable ex_m1 /\ active ex_m2 1 /\
  cluster_registry ex_m2 !! 1 = Some ex_e2 /\
  last (items (sizes ex_e2)) = Some (step_count ex_m2, 3) /\
  max_size ex_e2 = 3 /\
  burning_count ex_m2 1 = 2 /\ cluster_cells ex_m2 1 = 3.
Proof.
  split; [exact ex_m1_reachable|].
  split; [apply burning_count_pos; vm_compute; reflexivity|].
  repeat split; vm_compute; reflexivity.
Qed.

Lemma is_active_iff (m : model) (k : Z) : is_active m k = true <-> active m k.
Proof.
  unfold is_active, active, in_grid. rewrite existsb_exists. split.
  - intros [[i j] [Hin Hp]]. apply in_cells in Hin.
    apply andb_true_iff in Hp as [Hb Hc]. unfold is_burning in Hb.
    apply Z.eqb_eq in Hb, Hc. simpl in *. exists i, j. auto.
  - intros (i & j & [Hi Hj] & Hs & Hc). exists (i, j).
    split; [apply in_cells; simpl; lia|].
    unfold is_burning. simpl. rewrite Hs, Hc, !Z.eqb_refl. reflexivity.
Qed.

Lemma trace_snoc (m : model) (ds : list (ndarray Q * ndarray Q))
    (d : ndarray Q * ndarray Q) :
  trace m (ds ++ d :: nil) = trace m ds ++ run m (ds ++ d :: nil) :: nil.
Proof.
  revert m. induction ds as [|x ds IH]; intros m; simpl; [reflexivity|].
  by rewrite IH.
Qed.

Lemma observed_snoc (k : Z) (ms : list model) (s : model) :
  observed k (ms ++ s :: nil) =
  observed k ms ++ (if is_active s k then cluster_cells s k :: nil else nil).
Proof.
  unfold observed. rewrite List.filter_app, List.map_app. simpl.
  by destruct (is_active s k).
Qed.

Lemma last_deque_append {A : Type} (x : A) (d : deque A) :
  (0 < maxlen d)%nat -> last (items (deque_append x d)) = Some x.
Proof.
  intros Hpos. unfold deque_append. simpl.
  rewrite length_app. simpl.
  rewrite drop_app_le by lia. apply last_snoc.
Qed.

(** The ids that were active in a state of a run are below the counter at
    its end. *)
Lemma trace_active_lt (m0 : model) (ds : list (ndarray Q * ndarray Q))
    (s : model) (k : Z) :
  inv m0 -> In s (trace m0 ds) -> active s k ->
  k < next_cluster_id (run m0 ds).
Proof.
  intros Hinv. induction ds as [|d ds IH] using rev_ind; [by intros []|].
  rewrite trace_snoc, in_app_iff. intros [Hin|[<-|[]]] Ha.
  - specialize (IH Hin Ha). rewrite run_snoc.
    pose proof (next_cluster_id_mono (run m0 ds) (fst d) (snd d)). lia.
  - rewrite run_snoc in *.
    by apply (active_lt (run m0 ds) (fst d) (snd d) (inv_run m0 ds Hinv)).
Qed.

(** The maximum recorded in an entry is the largest cell count observed
    while its id was active. *)
Lemma max_size_is_max (gs : Z) (pt pf : Q) (r : ndarray Q) (m0 : model)
    (draws : list (ndarray Q * ndarray Q)) (k : Z) (e : entry) :
  init gs pt pf r = Some m0 ->
  cluster_registry (run m0 draws) !! k = Some e ->
  In (max_size e) (observed k (trace m0 draws)) /\
  (forall s, In s (observed k (trace m0 draws)) -> s <= max_size e).
Proof.
  intros Hinit. pose proof (inv_init _ _ _ _ _ Hinit) as Hinv0.
  revert k e. induction draws as [|d ds IH] using rev_ind; intros k e He.
  - apply init_Some in Hinit as [_ ->]. unfold run in He. simpl in He.
    by rewrite lookup_empty in He.
  - rewrite trace_snoc, observed_snoc. rewrite run_snoc in *.
    set (m := run m0 ds) in *.
    pose proof (inv_run m0 ds Hinv0) as Hinv. fold m in Hinv.
    destruct (decide (k ∈ Step.active_cluster_ids m (fst d) (snd d)))
      as [Ha|Ha].
    + pose proof Ha as Ha'. apply elem_of_active_cluster_ids in Ha' as [_ Ha'].
      pose proof Ha' as Hact. apply is_active_iff in Hact. rewrite Hact.
      pose proof He as Hkept.
      rewrite registry_step_active in He by assumption. simpl in He.
      destruct (Step.expired m _); [discriminate|]. inversion He; subst e.
      rewrite track_entry_max_size.
      destruct (cluster_registry m !! k) as [e0|] eqn:He0.
      * destruct (IH k e0 He0) as [Hin Hmax]. split.
        -- apply in_app_iff.
           destruct (Z.max_spec (max_size e0)
                       (cluster_cells (step m (fst d) (snd d)) k))
             as [[_ ->]|[_ ->]]; [right; by left | by left].
        -- intros s Hs. apply in_app_iff in Hs as [Hs|[<-|[]]];
             [apply Hmax in Hs|]; lia.
      * assert (observed k (trace m0 ds) = nil) as ->.
        { unfold observed.
          destruct (List.filter (fun s => is_active s k) (trace m0 ds))
            as [|s l] eqn:E; [reflexivity|].
          assert (In s (List.filter (fun s => is_active s k) (trace m0 ds)))
            as Hs by (rewrite E; by left).
          apply filter_In in Hs as [Hs Hk]. apply is_active_iff in Hk.
          pose proof (trace_active_lt m0 ds s k Hinv0 Hs Hk) as Hlt.
          fold m in Hlt.
          rewrite (gone_stays_gone m (fst d) (snd d) k Hinv Hlt He0) in Hkept.
          discriminate. }
        simpl. split; [by left|]. intros s [<-|[]]. lia.
    + assert (is_active (step m (fst d) (snd d)) k = false) as ->.
      { destruct (is_active (step m (fst d) (snd d)) k) eqn:E; [|reflexivity].
        apply is_active_iff in E. exfalso. apply Ha.
        apply elem_of_active_cluster_ids. split; [|exact E].
        pose proof (active_pos m (fst d) (snd d) Hinv k E). lia. }
      rewrite app_nil_r.
      rewrite registry_step_inactive in He by assumption.
      destruct (cluster_registry m !! k) as [e0|] eqn:He0; [|discriminate].
      simpl in He. destruct (Step.expired m _); [discriminate|].
      inversion He; subst e.
      destruct (decide (is_Some (current_clusters m !! k)));
        rewrite ?mark_entry_max_size; by apply IH.
Qed.

(** C3, as the code has it. Along every run from construction, the size
    recorded for an active cluster id (the last sample of its size history)
    is the number of cells that carry the id in the grid of that step,
    BURNING or ASH alike, and [max_size] is the largest such count observed
    in the steps where the id was active. *)
Theorem recorded_size_is_cluster_cells (gs : Z) (pt pf : Q) (r : ndarray Q)
    (m0 : model) (draws : list (ndarray Q * ndarray Q)) (k : Z) (e : entry) :
  init gs pt pf r = Some m0 ->
  cluster_registry (run m0 draws) !! k = Some e ->
  (active (run m0 draws) k ->
   last (items (sizes e)) =
   Some (step_count (run m0 draws), cluster_cells (run m0 draws) k)) /\
  In (max_size e) (observed k (trace m0 draws)) /\
  (forall s, In s (observed k (trace m0 draws)) -> s <= max_size e).
Proof.
  intros Hinit He. split; [|by apply (max_size_is_max gs pt pf r)].
  pose proof (inv_init _ _ _ _ _ Hinit) as Hinv0.
  destruct draws as [|d ds _] using rev_ind.
  - apply init_Some in Hinit as [_ ->]. unfold run in He. simpl in He.
    by rewrite lookup_empty in He.
  - rewrite run_snoc in *. set (m := run m0 ds) in *.
    pose proof (inv_run m0 ds Hinv0) as Hinv. fold m in Hinv.
    intros Ha.
    assert (k ∈ Step.active_cluster_ids m (fst d) (snd d)) as Hin.
    { apply elem_of_active_cluster_ids. split; [|exact Ha].
      pose proof (active_pos m (fst d) (snd d) Hinv k Ha). lia. }
    rewrite registry_step_active in He by assumption. simpl in He.
    destruct (Step.expired m _); [discriminate|]. inversion He; subst e.
    rewrite track_entry_sizes, step_count_step.
    apply last_deque_append.
    destruct (cluster_registry m !! k) as [e0|] eqn:He0.
    + destruct (inv_sizes m Hinv k e0 He0) as [-> _].
      rewrite (inv_window m Hinv). lia.
    + simpl. rewrite (inv_window m Hinv). lia.
Qed.

Lemma recorded_size_is_cluster_cells_witness :
  (active (run ex_m0 ((all_draws 2 1, strike_corner 2)
                      :: (all_draws 2 1, all_draws 2 1) :: nil)) 1 ->
   last (items (sizes ex_e2)) =
   Some (step_count (run ex_m0 ((all_draws 2 1, strike_corner 2)
                                :: (all_draws 2 1, all_draws 2 1) :: nil)),
         cluster_cells (run ex_m0 ((all_draws 2 1, strike_corner 2)
                                   :: (all_draws 2 1, all_draws 2 1) :: nil)) 1))
  /\
  In (max_size ex_e2)
    (observed 1 (trace ex_m0 ((all_draws 2 1, strike_corner 2)
                              :: (all_draws 2 1, all_draws 2 1) :: nil))) /\
  (forall s,
     In s (observed 1 (trace ex_m0 ((all_draws 2 1, strike_corner 2)
                                    :: (all_draws 2 1, all_draws 2 1) :: nil)))
     -> s <= max_size ex_e2).
Proof.
  apply (recorded_size_is_cluster_cells 2 0 (1 # 2) (all_draws 2 0) ex_m0
           ((all_draws 2 1, strike_corner 2)
            :: (all_draws 2 1, all_draws 2 1) :: nil) 1 ex_e2).
  - reflexivity.
  - vm_compute. reflexivity.
Defined.

(** ** C7: Scenario B *)

Lemma coupledb_coupled (m : model) : coupledb m = true -> coupled m.
Proof.
  unfold coupledb, coupled. rewrite forallb_forall. intros H i j [Hi Hj].
  specialize (H (i, j)). unfold coupled_at in H. simpl in H.
  assert (In (i, j) (cells (grid_size m))) as Hin
    by (apply in_cells; simpl; lia).
  specialize (H Hin).
  destruct (state m i j =? BURNING) eqn:Eb;
    destruct (state m i j =? ASH) eqn:Ea; simpl in H;
    rewrite ?Z.eqb_eq, ?Z.eqb_neq, ?Z.ltb_lt in *;
    (split; [split; intros; try tauto; lia | intros; try tauto; lia]).
Qed.

Lemma struck_zero (m : model) (r : ndarray Q) (i j : nat) :
  (p_fire m == 0)%Q -> (0 <= getq r i j)%Q -> struck m r i j = false.
Proof.
  intros Hp Hr. unfold struck, Qltb.
  assert (Qle_bool (p_fire m) (getq r i j) = true) as ->; [|reflexivity].
  apply Qle_bool_iff. by rewrite Hp.
Qed.

Lemma unit_draws_no_lightning (m : model) (r : ndarray Q) :
  (p_fire m == 0)%Q -> unit_draws (grid_size m) r -> no_lightning m r.
Proof.
  intros Hp Hu i j [Hi Hj]. apply struck_zero; [exact Hp|].
  by apply Hu.
Qed.

Lemma grid_size_run (m : model) (ds : list (ndarray Q * ndarray Q)) :
  grid_size (run m ds) = grid_size m.
Proof.
  revert m. induction ds as [|d ds IH]; intros m; [reflexivity|].
  rewrite run_cons, IH. reflexivity.
Qed.

Lemma p_fire_run (m : model) (ds : list (ndarray Q * ndarray Q)) :
  p_fire (run m ds) = p_fire m.
Proof.
  revert m. induction ds as [|d ds IH]; intros m; [reflexivity|].
  rewrite run_cons, IH. reflexivity.
Qed.

Lemma window_size_run (m : model) (ds : list (ndarray Q * ndarray Q)) :
  window_size (run m ds) = window_size m.
Proof.
  revert m. induction ds as [|d ds IH]; intros m; [reflexivity|].
  rewrite run_cons, IH. reflexivity.
Qed.

Lemma step_count_run (m : model) (ds : list (ndarray Q * ndarray Q)) :
  step_count (run m ds) = step_count m + Z.of_nat (length ds).
Proof.
  revert m. induction ds as [|d ds IH]; intros m; [unfold run; simpl; lia|].
  rewrite run_cons, IH, step_count_step. simpl length. lia.
Qed.

Lemma no_lightning_run (m : model) (ds : list (ndarray Q * ndarray Q))
    (r : ndarray Q) :
  no_lightning m r -> no_lightning (run m ds) r.
Proof.
  intros H i j [Hi Hj]. rewrite grid_size_run in Hi, Hj.
  unfold struck. rewrite p_fire_run. by apply (H i j).
Qed.

Section QuietStep.
Variable m : model.
Variables r_tree r_light : ndarray Q.
Hypothesis Hquiet : no_lightning m r_light.
Local Abbreviation m' := (step m r_tree r_light).

Lemma quiet_no_new_fires : Step.num_new_fires m r_light = 0.
Proof.
  unfold Step.num_new_fires, np_sum.
  destruct (List.filter (mask_at (Step.new_lightning_mask m r_light))
              (cells (grid_size m))) as [|[i j] l] eqn:E; [reflexivity|].
  assert (In (i, j) (List.filter (mask_at (Step.new_lightning_mask m r_light))
                       (cells (grid_size m)))) as Hin by (rewrite E; by left).
  apply filter_In in Hin as [Hin Hm]. apply in_cells in Hin as [Hi Hj].
  unfold mask_at in Hm. simpl in *.
  rewrite new_lightning_mask_at in Hm by assumption.
  unfold ignites in Hm. rewrite (Hquiet i j (conj Hi Hj)) in Hm.
  destruct (existsb (is_burning m) (neighbors (grid_size m) i j));
    simpl in Hm; rewrite ?andb_false_r in Hm; discriminate.
Qed.

Lemma quiet_next_cluster_id : next_cluster_id m' = next_cluster_id m.
Proof. rewrite next_cluster_id_step, quiet_no_new_fires. lia. Qed.

(** Without lightning a cluster that is active after a step was active
    before it. *)
Lemma quiet_active_mono (k : Z) : coupled m -> active m' k -> active m k.
Proof.
  intros Hc Ha.
  destruct (active_origin m r_tree r_light k Hc Ha) as [H|H]; [exact H|].
  rewrite quiet_next_cluster_id in H. lia.
Qed.
End QuietStep.

Section TrackingStep.
Variable m : model.
Variables r_tree r_light : ndarray Q.
Hypothesis Htr : tracking m.
Local Abbreviation m' := (step m r_tree r_light).

Lemma tracking_active_pos (k : Z) : active m' k -> k <> 0.
Proof.
  destruct Htr as (Hc & Hn & _). intros (i & j & Hin & Hs & <-).
  pose proof (coupled_burning_pos m' i j (coupled_step m _ _ Hc Hn) Hin Hs).
  lia.
Qed.

Lemma tracking_step : tracking m'.
Proof.
  pose proof Htr as (Hc & Hn & Hcur & Hlive).
  split; [by apply coupled_step|].
  split; [pose proof (next_cluster_id_mono m r_tree r_light); lia|].
  split.
  - intros k Hk. apply current_clusters_step in Hk.
    by apply elem_of_active_cluster_ids in Hk as [_ Hk].
  - intros k e' He' Hd.
    destruct (decide (k ∈ Step.active_cluster_ids m r_tree r_light))
      as [Ha|Ha].
    + split; [by apply elem_of_active_cluster_ids in Ha as [_ Ha]|].
      by apply current_clusters_step.
    + exfalso. rewrite registry_step_inactive in He' by assumption.
      destruct (cluster_registry m !! k) as [e|] eqn:He; [|discriminate].
      simpl in He'.
      destruct (decide (is_Some (current_clusters m !! k))) as [Hcur'|Hcur'].
      * destruct (Step.expired m _); [discriminate|]. inversion He'; subst e'.
        rewrite mark_entry_death in Hd. by destruct (death e).
      * destruct (Step.expired m e); [discriminate|]. inversion He'; subst e'.
        destruct (Hlive k e He Hd) as [_ H]. contradiction.
Qed.
End TrackingStep.

Lemma scenario_B_tracking (m : model) : scenario_B m -> tracking m.
Proof.
  intros (_ & _ & Hc & Hn & Hreg & Hcur & _).
  split; [exact Hc|]. split; [exact Hn|]. split.
  - intros k. rewrite Hcur, lookup_empty. by intros [? ?].
  - intros k e. by rewrite Hreg, lookup_empty.
Qed.

Lemma tracking_run (m : model) (ds : list (ndarray Q * ndarray Q)) :
  tracking m -> tracking (run m ds).
Proof.
  revert m. induction ds as [|d ds IH]; intros m H; [exact H|].
  rewrite run_cons. apply IH. by apply tracking_step.
Qed.

(** Along a run without lightning, a cluster that is active at the end was
    active all the way. *)
Lemma quiet_run_active_mono (m : model)
    (ds ds' : list (ndarray Q * ndarray Q)) (k : Z) :
  tracking m -> Forall (fun d => no_lightning m (snd d)) ds' ->
  active (run (run m ds) ds') k -> active (run m ds) k.
Proof.
  intros Htr. induction ds' as [|d ds' IH] using rev_ind; [auto|].
  intros Hq Ha. apply Forall_app in Hq as [Hq Hd].
  apply IH; [exact Hq|]. rewrite run_snoc in Ha.
  apply (quiet_active_mono _ (fst d) (snd d)); [| |exact Ha].
  - rewrite <- run_app. apply no_lightning_run.
    by apply Forall_cons_1 in Hd as [Hd _].
  - rewrite <- run_app. by apply (tracking_run m (ds ++ ds')).
Qed.

Lemma quiet_take_active (m : model) (ds : list (ndarray Q * ndarray Q))
    (t : nat) (k : Z) :
  tracking m -> Forall (fun d => no_lightning m (snd d)) ds ->
  active (run m ds) k -> active (run m (take t ds)) k.
Proof.
  intros Htr Hq Ha. rewrite <- (take_drop t ds) in Ha, Hq.
  apply Forall_app in Hq as [_ Hq]. rewrite run_app in Ha.
  by apply (quiet_run_active_mono m (take t ds) (drop t ds)).
Qed.

Lemma not_active_not_tracked (m : model) (r_tree r_light : ndarray Q) (k : Z) :
  tracking m -> ~ active (step m r_tree r_light) k ->
  k ∉ Step.active_cluster_ids m r_tree r_light.
Proof.
  intros _ Hna Hin. apply elem_of_active_cluster_ids in Hin as [_ Hin].
  contradiction.
Qed.

Lemma tracked_iff_active (m : model) (r_tree r_light : ndarray Q) (k : Z) :
  tracking m ->
  k ∈ Step.active_cluster_ids m r_tree r_light <->
  active (step m r_tree r_light) k.
Proof.
  intros Htr. rewrite elem_of_active_cluster_ids. split; [tauto|].
  intros Ha. split; [|exact Ha]. by apply (tracking_active_pos m r_tree r_light).
Qed.

(** In a run without lightning from an empty registry, a recorded death is
    the first step after which the cluster has no burning cell. *)
Lemma death_is_first_quiet_step (m0 : model)
    (ds : list (ndarray Q * ndarray Q)) (k : Z) (e : entry) (d : Z) :
  tracking m0 -> cluster_registry m0 = ∅ -> step_count m0 = 0 ->
  Forall (fun x => no_lightning m0 (snd x)) ds ->
  cluster_registry (run m0 ds) !! k = Some e -> death e = Some d ->
  0 < d <= Z.of_nat (length ds) /\
  ~ active (run m0 (take (Z.to_nat d) ds)) k /\
  (forall t, (t < Z.to_nat d)%nat -> active (run m0 (take t ds)) k).
Proof.
  intros Htr Hreg H0. revert e d.
  induction ds as [|x ds IH] using rev_ind; intros e d Hq He Hd.
  - unfold run in He. simpl in He. by rewrite Hreg, lookup_empty in He.
  - apply Forall_app in Hq as [Hq Hx]. apply Forall_cons_1 in Hx as [Hx _].
    pose proof (tracking_run m0 ds Htr) as Htrm.
    pose proof (step_count_run m0 ds) as Hsc. rewrite H0 in Hsc.
    rewrite length_app. simpl length.
    rewrite run_snoc in He.
    destruct (decide (k ∈ Step.active_cluster_ids (run m0 ds) (fst x) (snd x)))
      as [Ha|Ha].
    + exfalso. pose proof Ha as Hact.
      apply tracked_iff_active in Hact; [|exact Htrm].
      rewrite registry_step_active in He by assumption. simpl in He.
      destruct (Step.expired _ _); [discriminate|]. inversion He; subst e.
      rewrite track_entry_death in Hd.
      destruct (cluster_registry (run m0 ds) !! k) as [e0|] eqn:He0;
        [|discriminate].
      destruct (IH e0 d Hq eq_refl Hd) as (Hrange & Hdead & _).
      apply Hdead. rewrite <- run_snoc in Hact.
      assert (Forall (fun x0 => no_lightning m0 (snd x0)) (ds ++ x :: nil))
        as Hq' by (apply Forall_app; split; [exact Hq | by constructor]).
      pose proof (quiet_take_active m0 (ds ++ x :: nil) (Z.to_nat d) k
                    Htr Hq' Hact) as Ht.
      by rewrite take_app_le in Ht by lia.
    + rewrite registry_step_inactive in He by assumption.
      destruct (cluster_registry (run m0 ds) !! k) as [e0|] eqn:He0;
        [|discriminate].
      simpl in He.
      destruct (death e0) as [d0|] eqn:Hd0.
      * assert (death e = Some d0) as Hde.
        { destruct (decide (is_Some (current_clusters (run m0 ds) !! k)));
            destruct (Step.expired _ _); try discriminate;
            inversion He; subst e; rewrite ?mark_entry_death, ?Hd0;
            reflexivity. }
        rewrite Hd in Hde. inversion Hde; subst d0.
        destruct (IH e0 d Hq eq_refl Hd0) as (Hrange & Hdead & Hlive).
        split; [lia|]. split.
        -- by rewrite take_app_le by lia.
        -- intros t Ht. rewrite take_app_le by lia. by apply Hlive.
      * destruct (decide (is_Some (current_clusters (run m0 ds) !! k)))
          as [Hcur|Hcur].
        -- destruct (Step.expired _ _); [discriminate|].
           inversion He; subst e. rewrite mark_entry_death, Hd0 in Hd.
           inversion Hd; subst d. rewrite Hsc.
           split; [lia|]. split.
           ++ rewrite take_ge by (rewrite length_app; simpl; lia).
              rewrite run_snoc. intros Hact. apply Ha.
              by apply tracked_iff_active.
           ++ intros t Ht. rewrite take_app_le by lia.
              apply quiet_take_active; [exact Htr | exact Hq |].
              destruct Htrm as (_ & _ & Hc & _). by apply Hc.
        -- destruct (Step.expired _ _); [discriminate|].
           inversion He; subst e. congruence.
Qed.

Lemma no_lightning_step (m : model) (r_tree r_light r : ndarray Q) :
  no_lightning m r -> no_lightning (step m r_tree r_light) r.
Proof. intros H i j Hin. by apply (H i j). Qed.

(** An id that is neither active nor registered stays unregistered while
    no lightning strikes. *)
Lemma inactive_absent_stays (s : model)
    (more : list (ndarray Q * ndarray Q)) (k : Z) :
  tracking s -> Forall (fun x => no_lightning s (snd x)) more ->
  ~ active s k -> cluster_registry s !! k = None ->
  cluster_registry (run s more) !! k = None.
Proof.
  revert s. induction more as [|x more IH]; intros s Htr Hq Hna Hnone;
    [exact Hnone|].
  apply Forall_cons_1 in Hq as [Hx Hq]. rewrite run_cons.
  assert (~ active (step s (fst x) (snd x)) k) as Hna'.
  { intros Ha. apply Hna.
    apply (quiet_active_mono s (fst x) (snd x) Hx k); [apply Htr | exact Ha]. }
  apply IH.
  - by apply tracking_step.
  - eapply Forall_impl; [exact Hq|]. intros y Hy. by apply no_lightning_step.
  - exact Hna'.
  - rewrite registry_step_inactive, Hnone; [reflexivity|].
    by apply not_active_not_tracked.
Qed.

(** The entry of a dead cluster is kept unchanged while the step counter is
    at most [window_size] past its death, and is absent afterwards. *)
Lemma dead_entry_fate (s : model) (more : list (ndarray Q * ndarray Q))
    (k : Z) (e : entry) (d : Z) :
  tracking s -> Forall (fun x => no_lightning s (snd x)) more ->
  ~ active s k -> cluster_registry s !! k = Some e -> death e = Some d ->
  step_count s <= d + Z.of_nat (window_size s) ->
  (step_count (run s more) <= d + Z.of_nat (window_size s) ->
   cluster_registry (run s more) !! k = Some e) /\
  (d + Z.of_nat (window_size s) < step_count (run s more) ->
   cluster_registry (run s more) !! k = None).
Proof.
  revert s. induction more as [|x more IH]; intros s Htr Hq Hna He Hd Hsc.
  - unfold run. simpl. split; [auto | lia].
  - apply Forall_cons_1 in Hq as [Hx Hq]. rewrite run_cons.
    assert (~ active (step s (fst x) (snd x)) k) as Hna'.
    { intros Ha. apply Hna.
      apply (quiet_active_mono s (fst x) (snd x) Hx k);
        [apply Htr | exact Ha]. }
    assert (Forall (fun y => no_lightning (step s (fst x) (snd x)) (snd y)) more)
      as Hq'.
    { eapply Forall_impl; [exact Hq|]. intros y Hy.
      by apply no_lightning_step. }
    pose proof (tracking_step s (fst x) (snd x) Htr) as Htr'.
    pose proof (registry_step_inactive s (fst x) (snd x) k
                  (not_active_not_tracked s _ _ k Htr Hna')) as Hreg.
    rewrite He in Hreg. simpl in Hreg.
    assert ((if decide (is_Some (current_clusters s !! k))
             then mark_entry s e else e) = e) as Hmark.
    { destruct (decide (is_Some (current_clusters s !! k))); [|reflexivity].
      unfold mark_entry. by rewrite Hd. }
    rewrite Hmark in Hreg. unfold Step.expired in Hreg. rewrite Hd in Hreg.
    unfold Step.step_count' in Hreg.
    pose proof (step_count_run (step s (fst x) (snd x)) more) as Hcount.
    rewrite step_count_step in Hcount.
    destruct (Z.of_nat (window_size s) <? step_count s + 1 - d) eqn:E.
    + apply Z.ltb_lt in E. split; [lia|]. intros _.
      by apply inactive_absent_stays.
    + apply Z.ltb_ge in E.
      apply (IH (step s (fst x) (snd x))); try assumption.
      rewrite step_count_step. simpl. lia.
Qed.

Lemma ex_b0_scenario : scenario_B ex_b0.
Proof.
  split; [reflexivity|]. split; [reflexivity|].
  split; [apply coupledb_coupled; vm_compute; reflexivity|].
  split; [simpl; lia|]. by repeat split.
Qed.

Lemma ex_quiet_unit : unit_draws 3 (snd ex_quiet).
Proof.
  intros i j Hi Hj. simpl. unfold all_draws, getq.
  rewrite get_build by assumption. split; [apply Qle_refl | reflexivity].
Qed.

Lemma ex_quiet_no_lightning (n : nat) :
  Forall (fun x => no_lightning ex_b0 (snd x)) (repeat ex_quiet n).
Proof.
  apply List.Forall_forall. intros x Hx. apply repeat_spec in Hx. subst x.
  apply unit_draws_no_lightning; [reflexivity | exact ex_quiet_unit].
Qed.

(** C7, as the code has it. In Scenario B (no growth, no lightning, burning
    regions set up before the first step), write [s_t] for the state after
    [t] steps. A registry entry without a death step belongs to a cluster
    that still burns. A registry entry with death step [d] belongs to a
    cluster whose burning-cell count is 0 in [s_d] and positive in every
    [s_t] with [t < d]; the entry stays in the registry, unchanged, as long
    as the step counter is at most [d + window_size], and is absent from
    every later state: it is removed at step [d + window_size + 1]. *)
Theorem scenario_B_lifecycle (m0 : model)
    (draws more : list (ndarray Q * ndarray Q)) (k : Z) (e : entry) :
  scenario_B m0 ->
  Forall (fun x => unit_draws (grid_size m0) (snd x)) (draws ++ more) ->
  cluster_registry (run m0 draws) !! k = Some e ->
  (death e = None -> 0 < burning_count (run m0 draws) k) /\
  (forall d, death e = Some d ->
     0 < d <= step_count (run m0 draws) /\
     burning_count (run m0 (take (Z.to_nat d) draws)) k = 0 /\
     (forall t, (t < Z.to_nat d)%nat ->
                0 < burning_count (run m0 (take t draws)) k) /\
     (step_count (run m0 (draws ++ more)) <= d + Z.of_nat (window_size m0) ->
      cluster_registry (run m0 (draws ++ more)) !! k = Some e) /\
     (d + Z.of_nat (window_size m0) < step_count (run m0 (draws ++ more)) ->
      cluster_registry (run m0 (draws ++ more)) !! k = None)).
Proof.
  intros Hsc Hu He.
  pose proof (scenario_B_tracking m0 Hsc) as Htr.
  destruct Hsc as (_ & Hpf & _ & _ & Hreg & _ & H0).
  assert (Forall (fun x => no_lightning m0 (snd x)) (draws ++ more)) as Hq.
  { eapply Forall_impl; [exact Hu|]. intros x Hx.
    by apply unit_draws_no_lightning. }
  apply Forall_app in Hq as [Hq Hqm].
  pose proof (tracking_run m0 draws Htr) as Htrs.
  split.
  - intros Hd. apply burning_count_pos.
    destruct Htrs as (_ & _ & _ & Hlive). by destruct (Hlive k e He Hd).
  - intros d Hd.
    destruct (death_is_first_quiet_step m0 draws k e d Htr Hreg H0 Hq He Hd)
      as (Hrange & Hdead & Hlive).
    pose proof (step_count_run m0 draws) as Hcount. rewrite H0 in Hcount.
    split; [lia|]. split; [by apply burning_count_zero|].
    split; [intros t Ht; by apply burning_count_pos, Hlive|].
    assert (~ active (run m0 draws) k) as Hna.
    { intros Ha. apply Hdead. by apply quiet_take_active. }
    assert (step_count (run m0 draws) <= d + Z.of_nat (window_size m0)) as Hle.
    { destruct draws as [|x ds _] using rev_ind; [simpl in Hrange; lia|].
      rewrite run_snoc in He.
      pose proof (kept_entry_recent _ _ _ k e d He Hd) as Hk.
      rewrite window_size_run in Hk. rewrite run_snoc, step_count_step. lia. }
    rewrite run_app. rewrite <- (window_size_run m0 draws).
    apply dead_entry_fate; try assumption.
    + eapply Forall_impl; [exact Hqm|]. intros x Hx.
      by apply no_lightning_run.
    + by rewrite window_size_run.
Qed.

Lemma scenario_B_lifecycle_witness :
  (death ex_b_e = None ->
   0 < burning_count (run ex_b0 (repeat ex_quiet 2)) 1) /\
  (forall d, death ex_b_e = Some d ->
     0 < d <= step_count (run ex_b0 (repeat ex_quiet 2)) /\
     burning_count (run ex_b0 (take (Z.to_nat d) (repeat ex_quiet 2))) 1 = 0 /\
     (forall t, (t < Z.to_nat d)%nat ->
        0 < burning_count (run ex_b0 (take t (repeat ex_quiet 2))) 1) /\
     (step_count (run ex_b0 (repeat ex_quiet 2 ++ ex_quiet :: nil))
        <= d + Z.of_nat (window_size ex_b0) ->
      cluster_registry (run ex_b0 (repeat ex_quiet 2 ++ ex_quiet :: nil)) !! 1
        = Some ex_b_e) /\
     (d + Z.of_nat (window_size ex_b0)
        < step_count (run ex_b0 (repeat ex_quiet 2 ++ ex_quiet :: nil)) ->
      cluster_registry (run ex_b0 (repeat ex_quiet 2 ++ ex_quiet :: nil)) !! 1
        = None)).
Proof.
  apply (scenario_B_lifecycle ex_b0 (repeat ex_quiet 2) (ex_quiet :: nil) 1
           ex_b_e).
  - exact ex_b0_scenario.
  - simpl. repeat (constructor; [exact ex_quiet_unit|]). constructor.
  - vm_compute. reflexivity.
Defined.

Lemma ex_b_dead (k : Z) :
  k = 1 \/ k = 2 ->
  tracking (run ex_b0 (repeat ex_quiet 2)) /\
  ~ active (run ex_b0 (repeat ex_quiet 2)) k /\
  cluster_registry (run ex_b0 (repeat ex_quiet 2)) !! k = Some ex_b_e.
Proof.
  intros Hk. split.
  - apply tracking_run, scenario_B_tracking, ex_b0_scenario.
  - destruct Hk as [->| ->]; (split;
      [apply burning_count_zero; vm_compute; reflexivity
      | vm_compute; reflexivity]).
Qed.

Lemma ex_b_kept (k : Z) :
  k = 1 \/ k = 2 ->
  cluster_registry
    (run (run ex_b0 (repeat ex_quiet 2)) (repeat ex_quiet (Z.to_nat 6000))) !! k
  = Some ex_b_e.
Proof.
  intros Hk. destruct (ex_b_dead k Hk) as (Htr & Hna & He).
  assert (Forall (fun x => no_lightning (run ex_b0 (repeat ex_quiet 2)) (snd x))
            (repeat ex_quiet (Z.to_nat 6000))) as Hq.
  { eapply Forall_impl; [apply ex_quiet_no_lightning|].
    intros x Hx. by apply no_lightning_run. }
  assert (step_count (run ex_b0 (repeat ex_quiet 2)) = 2) as Hsc
    by (vm_compute; reflexivity).
  assert (window_size (run ex_b0 (repeat ex_quiet 2)) = Z.to_nat 6000) as Hw
    by (rewrite window_size_run; reflexivity).
  destruct (dead_entry_fate (run ex_b0 (repeat ex_quiet 2))
              (repeat ex_quiet (Z.to_nat 6000)) k ex_b_e 2 Htr Hq Hna He
              eq_refl) as [Hkeep _].
  - rewrite Hsc, Hw. lia.
  - apply Hkeep. rewrite step_count_run, Hsc, Hw, repeat_length. lia.
Qed.

(** In this instance of Scenario B both clusters die at step 2, and their
    entries are still registered [window_size] = 6000 steps after their
    death, at step 6002. *)
Lemma scenario_B_entry_outlives_window :
  scenario_B ex_b0 /\
  window_size ex_b0 = Z.to_nat 6000 /\
  cluster_registry (run ex_b0 (repeat ex_quiet 2)) !! 1 = Some ex_b_e /\
  cluster_registry (run ex_b0 (repeat ex_quiet 2)) !! 2 = Some ex_b_e /\
  death ex_b_e = Some 2 /\
  step_count (run ex_b0 (repeat ex_quiet (2 + Z.to_nat 6000))) = 2 + 6000 /\
  cluster_registry (run ex_b0 (repeat ex_quiet (2 + Z.to_nat 6000))) !! 1
    = Some ex_b_e /\
  cluster_registry (run ex_b0 (repeat ex_quiet (2 + Z.to_nat 6000))) !! 2
    = Some ex_b_e.
Proof.
  split; [exact ex_b0_scenario|]. split; [reflexivity|].
  split; [apply (ex_b_dead 1); by left|].
  split; [apply (ex_b_dead 2); by right|].
  split; [reflexivity|].
  split.
  - rewrite step_count_run, repeat_length.
    change (step_count ex_b0) with 0. lia.
  - rewrite (repeat_app ex_quiet 2 (Z.to_nat 6000)), run_app.
    split; apply ex_b_kept; [by left | by right].
Qed.

(** * Further properties of the simulator *)

(** ** The cell automaton *)

Lemma shaped_build {A : Type} (n : nat) (f : nat -> nat -> A) :
  shaped n (build n f).
Proof.
  unfold shaped, build. split; [by rewrite length_map, length_seq|].
  intros row Hrow. apply in_map_iff in Hrow as [i [<- _]].
  by rewrite length_map, length_seq.
Qed.

Lemma state'_cases (m : model) (r_tree r_light : ndarray Q) (i j : nat) :
  in_grid m i j ->
  state (step m r_tree r_light) i j = EMPTY \/
  state (step m r_tree r_light) i j = TREE \/
  state (step m r_tree r_light) i j = BURNING \/
  state (step m r_tree r_light) i j = ASH.
Proof.
  intros [Hi Hj]. rewrite state'_at by assumption.
  destruct (ignites m r_light i j); [tauto|].
  destruct (getb (Step.active_ash_mask m r_light) i j); [tauto|].
  destruct (getb (Step.new_trees m r_tree) i j); [tauto|].
  destruct (state m i j =? TREE); tauto.
Qed.

(** X1. In every reachable state the grid and the cluster-id grid are
    [grid_size x grid_size] arrays and every cell holds one of the four
    states. *)
Theorem grid_well_formed (m : model) :
  reachable m ->
  shaped (grid_size m) (grid m) /\
  shaped (grid_size m) (fire_cluster_ids m) /\
  (forall i j, in_grid m i j ->
     state m i j = EMPTY \/ state m i j = TREE \/
     state m i j = BURNING \/ state m i j = ASH).
Proof.
  destruct 1 as [gs pt pf r m Hinit|m r_tree r_light _].
  - pose proof (fun i j => init_cells gs pt pf r m i j Hinit) as Hcells.
    apply init_Some in Hinit as [_ Hm].
    split; [subst m; apply shaped_build|].
    split; [subst m; apply shaped_build|].
    intros i j Hin. destruct (Hcells i j Hin) as [[H|H] _]; tauto.
  - split; [apply shaped_build|]. split; [apply shaped_build|].
    intros i j Hin. by apply state'_cases.
Qed.

Lemma grid_well_formed_witness :
  shaped (grid_size ex_m2) (grid ex_m2) /\
  shaped (grid_size ex_m2) (fire_cluster_ids ex_m2) /\
  (forall i j, in_grid ex_m2 i j ->
     state ex_m2 i j = EMPTY \/ state ex_m2 i j = TREE \/
     state ex_m2 i j = BURNING \/ state ex_m2 i j = ASH).
Proof. apply (grid_well_formed ex_m2). exact ex_m2_reachable. Defined.

Section CellFates.
Variable m : model.
Variables r_tree r_light : ndarray Q.
Local Abbreviation m' := (step m r_tree r_light).

Lemma not_tree_not_ignited (i j : nat) :
  state m i j <> TREE -> ignites m r_light i j = false.
Proof.
  intros H. unfold ignites.
  destruct (state m i j =? TREE) eqn:E; [|reflexivity].
  apply Z.eqb_eq in E. contradiction.
Qed.

Lemma not_fire_not_ash (i j : nat) :
  in_grid m i j -> state m i j <> BURNING -> state m i j <> ASH ->
  getb (Step.active_ash_mask m r_light) i j = false.
Proof.
  intros [Hi Hj] Hb Ha.
  destruct (getb (Step.active_ash_mask m r_light) i j) eqn:E; [|reflexivity].
  destruct (active_ash_was_fire m r_light i j Hi Hj E) as [[H|H] _];
    contradiction.
Qed.

Lemma tree_step (i j : nat) :
  in_grid m i j -> state m i j = TREE ->
  state m' i j = if ignites m r_light i j then BURNING else TREE.
Proof.
  intros Hin Hs. pose proof Hin as [Hi Hj]. rewrite state'_at by assumption.
  destruct (ignites m r_light i j); [reflexivity|].
  rewrite not_fire_not_ash
    by (assumption || (rewrite Hs; unfold TREE, BURNING, ASH; lia)).
  rewrite new_trees_at, Hs by assumption. reflexivity.
Qed.

Lemma ignites_tree (i j : nat) :
  state m i j = TREE ->
  ignites m r_light i j = true <->
  burning_neighbors m i j <> nil \/ struck m r_light i j = true.
Proof.
  intros Hs. unfold ignites. rewrite Hs. simpl.
  rewrite orb_true_iff.
  destruct (existsb (is_burning m) (neighbors (grid_size m) i j)) eqn:E.
  - split; [intros _; left|auto].
    intros Hnil. apply burning_neighbors_nil in Hnil. congruence.
  - apply burning_neighbors_nil in E. rewrite E. split.
    + intros [H|H]; [discriminate | by right].
    + intros [H|H]; [contradiction | by right].
Qed.

Lemma fire_step_ash (i j : nat) :
  in_grid m i j -> state m i j = BURNING \/ state m i j = ASH ->
  getb (Step.active_ash_mask m r_light) i j = true <->
  0 < cid m i j /\ active m' (cid m i j).
Proof.
  intros [Hi Hj] Hs. split.
  - intros H. destruct (active_ash_was_fire m r_light i j Hi Hj H)
      as (_ & Hpos & _ & Hin).
    split; [exact Hpos | by apply active'_iff].
  - intros [Hpos Ha]. rewrite active_ash_mask_at, ash_ids_at by assumption.
    assert ((state m i j =? ASH) || (state m i j =? BURNING) = true) as ->.
    { destruct Hs as [-> | ->]; reflexivity. }
    apply andb_true_iff. split; [|by apply Z.ltb_lt].
    apply (proj2 (existsb_eqb_In _ _)).
    exact (proj1 (active'_iff m r_tree r_light _) Ha).
Qed.
End CellFates.

(** X2. A TREE cell is BURNING or TREE after a step, never EMPTY or ASH;
    it is BURNING exactly when one of its 4-neighbours inside the grid was
    burning or its lightning draw is below [p_fire]. *)
Theorem tree_fate (m : model) (r_tree r_light : ndarray Q) (i j : nat) :
  in_grid m i j -> state m i j = TREE ->
  (state (step m r_tree r_light) i j = BURNING \/
   state (step m r_tree r_light) i j = TREE) /\
  (state (step m r_tree r_light) i j = BURNING <->
   burning_neighbors m i j <> nil \/ struck m r_light i j = true).
Proof.
  intros Hin Hs. rewrite <- (ignites_tree m r_light i j Hs).
  rewrite (tree_step m r_tree r_light i j Hin Hs).
  destruct (ignites m r_light i j); unfold BURNING, TREE.
  - split; [by left | tauto].
  - split; [by right|]. split; [lia | discriminate].
Qed.

Lemma tree_fate_witness :
  (state (step ex_m1 (all_draws 2 1) (all_draws 2 1)) 1 1 = BURNING \/
   state (step ex_m1 (all_draws 2 1) (all_draws 2 1)) 1 1 = TREE) /\
  (state (step ex_m1 (all_draws 2 1) (all_draws 2 1)) 1 1 = BURNING <->
   burning_neighbors ex_m1 1 1 <> nil \/
   struck ex_m1 (all_draws 2 1) 1 1 = true).
Proof.
  apply (tree_fate ex_m1 (all_draws 2 1) (all_draws 2 1) 1 1).
  - split; vm_compute; lia.
  - vm_compute. reflexivity.
Defined.

(** X3. An EMPTY cell becomes a TREE exactly when its growth draw is below
    [p_tree] and stays EMPTY otherwise; it never catches fire and carries
    no cluster id after the step. *)
Theorem empty_fate (m : model) (r_tree r_light : ndarray Q) (i j : nat) :
  in_grid m i j -> state m i j = EMPTY ->
  state (step m r_tree r_light) i j =
    (if sprouts m r_tree i j then TREE else EMPTY) /\
  cid (step m r_tree r_light) i j = 0.
Proof.
  intros Hin Hs. pose proof Hin as [Hi Hj].
  assert (ignites m r_light i j = false) as Hig
    by (apply not_tree_not_ignited; rewrite Hs; unfold EMPTY, TREE; lia).
  assert (getb (Step.active_ash_mask m r_light) i j = false) as Ha
    by (apply not_fire_not_ash;
        (assumption || (rewrite Hs; unfold EMPTY, BURNING, ASH; lia))).
  rewrite state'_at, cid'_at, Hig, Ha by assumption.
  rewrite new_trees_at, Hs by assumption. unfold sprouts. simpl.
  by destruct (Qltb (getq r_tree i j) (p_tree m)).
Qed.

Lemma empty_fate_witness :
  state (step ex_m4 (all_draws 2 1) (all_draws 2 1)) 0 0 =
    (if sprouts ex_m4 (all_draws 2 1) 0 0 then TREE else EMPTY) /\
  cid (step ex_m4 (all_draws 2 1) (all_draws 2 1)) 0 0 = 0.
Proof.
  apply (empty_fate ex_m4 (all_draws 2 1) (all_draws 2 1) 0 0).
  - split; vm_compute; lia.
  - vm_compute. reflexivity.
Defined.

(** X4. A BURNING cell burns for one step only: after the step a cell
    that was BURNING or ASH is ASH or EMPTY. It is ASH, with its id kept,
    exactly when its id is positive and some cell burns with that id after
    the step. *)
Theorem fire_fate (m : model) (r_tree r_light : ndarray Q) (i j : nat) :
  in_grid m i j -> state m i j = BURNING \/ state m i j = ASH ->
  (state (step m r_tree r_light) i j = ASH \/
   state (step m r_tree r_light) i j = EMPTY) /\
  (state (step m r_tree r_light) i j = ASH <->
   0 < cid m i j /\ active (step m r_tree r_light) (cid m i j)) /\
  (state (step m r_tree r_light) i j = ASH ->
   cid (step m r_tree r_light) i j = cid m i j).
Proof.
  intros Hin Hs. pose proof Hin as [Hi Hj].
  rewrite <- (fire_step_ash m r_tree r_light i j Hin Hs).
  assert (ignites m r_light i j = false) as Hig.
  { apply not_tree_not_ignited. unfold BURNING, ASH, TREE in *. lia. }
  rewrite state'_at, cid'_at, Hig by assumption.
  destruct (getb (Step.active_ash_mask m r_light) i j).
  - split; [by left|]. by split.
  - rewrite new_trees_at by assumption.
    assert ((state m i j =? EMPTY) = false) as ->
      by (apply Z.eqb_neq; unfold BURNING, ASH, EMPTY in *; lia).
    assert ((state m i j =? TREE) = false) as ->
      by (apply Z.eqb_neq; unfold BURNING, ASH, TREE in *; lia).
    simpl. split; [by right|]. unfold EMPTY, ASH.
    split; [split; [lia | discriminate] | lia].
Qed.

Lemma fire_fate_witness :
  (state (step ex_m1 (all_draws 2 1) (all_draws 2 1)) 0 0 = ASH \/
   state (step ex_m1 (all_draws 2 1) (all_draws 2 1)) 0 0 = EMPTY) /\
  (state (step ex_m1 (all_draws 2 1) (all_draws 2 1)) 0 0 = ASH <->
   0 < cid ex_m1 0 0 /\
   active (step ex_m1 (all_draws 2 1) (all_draws 2 1)) (cid ex_m1 0 0)) /\
  (state (step ex_m1 (all_draws 2 1) (all_draws 2 1)) 0 0 = ASH ->
   cid (step ex_m1 (all_draws 2 1) (all_draws 2 1)) 0 0 = cid ex_m1 0 0).
Proof.
  apply (fire_fate ex_m1 (all_draws 2 1) (all_draws 2 1) 0 0).
  - split; vm_compute; lia.
  - left. vm_compute. reflexivity.
Defined.

(** X5. In every reachable state an ASH cell belongs to a cluster that is
    still burning: some BURNING cell carries the same id. *)
Theorem ash_has_burning_cluster (m : model) (i j : nat) :
  reachable m -> in_grid m i j -> state m i j = ASH -> active m (cid m i j).
Proof.
  destruct 1 as [gs pt pf r m Hinit|m r_tree r_light Hr]; intros Hin Hs.
  - destruct (init_cells gs pt pf r m i j Hinit Hin) as [[H|H] _];
      unfold ASH, TREE, EMPTY in *; lia.
  - pose proof (reachable_inv m Hr) as Hinv.
    pose proof (inv_step_coupled m r_tree r_light Hinv) as Hc.
    apply carried_active; [exact Hc | exact Hin |].
    apply (Hc i j Hin). by right.
Qed.

Lemma ash_has_burning_cluster_witness : active ex_m2 (cid ex_m2 0 0).
Proof.
  apply (ash_has_burning_cluster ex_m2 0 0).
  - exact ex_m2_reachable.
  - split; vm_compute; lia.
  - vm_compute. reflexivity.
Defined.

(** X6. When a step leaves no BURNING cell, it leaves no ASH and no
    cluster id either: every cell is TREE or EMPTY with id 0. *)
Theorem fire_out_clears_grid (m : model) (r_tree r_light : ndarray Q) :
  (forall i j, in_grid m i j -> state (step m r_tree r_light) i j <> BURNING) ->
  forall i j, in_grid m i j ->
    (state (step m r_tree r_light) i j = TREE \/
     state (step m r_tree r_light) i j = EMPTY) /\
    cid (step m r_tree r_light) i j = 0.
Proof.
  intros Hout i j Hin. pose proof Hin as [Hi Hj].
  assert (forall k, ~ active (step m r_tree r_light) k) as Hnone.
  { intros k (i' & j' & Hin' & Hs' & _). exact (Hout i' j' Hin' Hs'). }
  assert (getb (Step.active_ash_mask m r_light) i j = false) as Ha.
  { destruct (getb (Step.active_ash_mask m r_light) i j) eqn:E; [|reflexivity].
    destruct (active_ash_was_fire m r_light i j Hi Hj E) as (_ & _ & _ & H).
    apply active'_iff with (r_tree := r_tree) in H. by apply Hnone in H. }
  assert (ignites m r_light i j = false) as Hig.
  { destruct (ignites m r_light i j) eqn:E; [|reflexivity].
    apply (burning'_iff m r_tree r_light i j Hi Hj) in E.
    by apply Hout in E. }
  rewrite state'_at, cid'_at, Ha, Hig by assumption. split; [|reflexivity].
  destruct (getb (Step.new_trees m r_tree) i j); [by left|].
  destruct (state m i j =? TREE); [by left | by right].
Qed.

Lemma fire_out_clears_grid_witness :
  (state (step ex_m3 (all_draws 2 1) (all_draws 2 1)) 1 0 = TREE \/
   state (step ex_m3 (all_draws 2 1) (all_draws 2 1)) 1 0 = EMPTY) /\
  cid (step ex_m3 (all_draws 2 1) (all_draws 2 1)) 1 0 = 0.
Proof.
  apply (fire_out_clears_grid ex_m3 (all_draws 2 1) (all_draws 2 1)).
  - intros i j [Hi Hj]. change (grid_size ex_m3) with 2%nat in Hi, Hj.
    destruct i as [|[|i]]; [| |lia]; (destruct j as [|[|j]]; [| |lia]);
      vm_compute; discriminate.
  - split; change (grid_size ex_m3) with 2%nat; lia.
Defined.

(** ** The life of a registry entry *)

Lemma reachable_tracking (m : model) : reachable m -> tracking m.
Proof.
  induction 1 as [gs pt pf r m H|m r1 r2 _ IH]; [|by apply tracking_step].
  pose proof (inv_init _ _ _ _ _ H) as Hinv.
  apply init_Some in H as [_ Hm].
  split; [apply (inv_coupled m Hinv)|]. split; [apply (inv_next m Hinv)|].
  subst m. simpl. split.
  - intros k. rewrite lookup_empty. by intros [? ?].
  - intros k e. by rewrite lookup_empty.
Qed.

Lemma cluster_cells_le (m : model) (k : Z) :
  0 <= cluster_cells m k <= Z.of_nat (grid_size m * grid_size m).
Proof.
  unfold cluster_cells. split; [lia|]. apply inj_le.
  etransitivity; [apply List.filter_length_le|].
  unfold cells. by rewrite length_prod, !length_seq.
Qed.

Lemma active_cluster_cells_pos (m : model) (k : Z) :
  active m k -> 1 <= cluster_cells m k.
Proof.
  intros (i & j & [Hi Hj] & _ & Hc). unfold cluster_cells.
  assert (0 < length (List.filter (fun c => (cid m (fst c) (snd c) =? k)%Z)
                        (cells (grid_size m))))%nat; [|lia].
  apply (filter_length_pos _ _ (i, j)).
  - apply in_cells. simpl. lia.
  - simpl. by apply Z.eqb_eq.
Qed.

Lemma burning_le_cluster_cells (m : model) (k : Z) :
  burning_count m k <= cluster_cells m k.
Proof.
  unfold burning_count, cluster_cells. apply inj_le, filter_length_le.
  intros c _ H. by apply andb_true_iff in H as [_ H].
Qed.

Section Growth.
Variable m : model.
Variables r_tree r_light : ndarray Q.
Hypothesis Hc : coupled m.
Local Abbreviation m' := (step m r_tree r_light).

(** While a cluster is active, the cells that carried its id keep it. *)
Lemma active_keeps_cells (k : Z) (i j : nat) :
  0 < k -> active m' k -> in_grid m i j -> cid m i j = k -> cid m' i j = k.
Proof.
  intros Hk Ha Hin Hcid. pose proof Hin as [Hi Hj].
  assert (state m i j = BURNING \/ state m i j = ASH) as Hs
    by (apply (Hc i j Hin); lia).
  assert (getb (Step.active_ash_mask m r_light) i j = true) as Hash.
  { apply (fire_step_ash m r_tree r_light i j Hin Hs). rewrite Hcid. auto. }
  rewrite cid'_at, Hash by assumption. exact Hcid.
Qed.

Lemma cluster_grows (k : Z) :
  0 < k -> active m' k -> cluster_cells m k < cluster_cells m' k.
Proof.
  intros Hk Ha. pose proof Ha as Ha'.
  apply active'_iff, In_active_ids in Ha' as (i & j & Hi & Hj & Hig & Hnew).
  unfold cluster_cells. apply inj_lt. simpl.
  apply (filter_length_lt _ _ _ (i, j)).
  - intros [a b] Hin Hp. apply in_cells in Hin. simpl in *.
    apply Z.eqb_eq in Hp. apply Z.eqb_eq.
    by apply active_keeps_cells.
  - apply in_cells. simpl. lia.
  - simpl. apply Z.eqb_neq.
    assert (state m i j = TREE) as Hs.
    { unfold ignites in Hig. apply andb_true_iff in Hig as [Hig _].
      by apply Z.eqb_eq in Hig. }
    destruct (Hc i j (conj Hi Hj)) as [_ H0]. rewrite H0; [lia|].
    rewrite Hs. unfold TREE, BURNING, ASH. lia.
  - simpl. apply Z.eqb_eq. rewrite cid'_at, Hig by assumption.
    rewrite (not_fire_not_ash m r_light i j (conj Hi Hj)); [exact Hnew| |].
    + unfold ignites in Hig. apply andb_true_iff in Hig as [Hig _].
      apply Z.eqb_eq in Hig. rewrite Hig. unfold TREE, BURNING. lia.
    + unfold ignites in Hig. apply andb_true_iff in Hig as [Hig _].
      apply Z.eqb_eq in Hig. rewrite Hig. unfold TREE, ASH. lia.
Qed.
End Growth.

(** X7. A cluster never shrinks while it burns: if a positive id is active
    after a step from a coupled state, strictly more cells carry it after
    the step than before (the cells that carried it keep it as ash, and at
    least one tree joins). *)
Theorem active_cluster_grows (m : model) (r_tree r_light : ndarray Q) (k : Z) :
  coupled m -> 0 < k -> active (step m r_tree r_light) k ->
  cluster_cells m k < cluster_cells (step m r_tree r_light) k /\
  (forall i j, in_grid m i j -> cid m i j = k ->
               cid (step m r_tree r_light) i j = k).
Proof.
  intros Hc Hk Ha. split; [by apply cluster_grows|].
  intros i j. by apply active_keeps_cells.
Qed.

Lemma active_cluster_grows_witness :
  cluster_cells ex_m1 1 < cluster_cells ex_m2 1 /\
  (forall i j, in_grid ex_m1 i j -> cid ex_m1 i j = 1 -> cid ex_m2 i j = 1).
Proof.
  apply (active_cluster_grows ex_m1 (all_draws 2 1) (all_draws 2 1) 1).
  - apply coupledb_coupled. vm_compute. reflexivity.
  - lia.
  - apply burning_count_pos. vm_compute. reflexivity.
Defined.

Section Lifecycle.
Variable m : model.
Variables r_tree r_light : ndarray Q.
Hypothesis Hinv : inv m.
Hypothesis Htr : tracking m.
Local Abbreviation m' := (step m r_tree r_light).

Lemma active_old_entry (k : Z) (e : entry) :
  active m' k -> cluster_registry m !! k = Some e ->
  death e = None /\ active m k.
Proof.
  intros Ha He.
  destruct (active_origin m r_tree r_light k (inv_coupled m Hinv) Ha)
    as [Hold|Hfresh].
  - split; [|exact Hold]. destruct Hold as (i & j & Hij & Hs & Hcid).
    pose proof (coupled_burning_pos m i j (inv_coupled m Hinv) Hij Hs).
    destruct (inv_carried m Hinv i j Hij) as [e0 [He0 Hd]]; [lia|].
    rewrite Hcid, He in He0. by inversion He0.
  - pose proof (inv_keys m Hinv k e He). lia.
Qed.

(** What a step does to the entry of an id, case by case. *)
Lemma entry_lifecycle (k : Z) (e' : entry) :
  cluster_registry m' !! k = Some e' ->
  (cluster_registry m !! k = None /\ ~ active m k /\ active m' k /\
   e' = track_entry m (cluster_cells m' k) None) \/
  (exists e, cluster_registry m !! k = Some e /\ death e = None /\
             active m k /\ active m' k /\
             e' = track_entry m (cluster_cells m' k) (Some e)) \/
  (exists e, cluster_registry m !! k = Some e /\ death e = None /\
             active m k /\ ~ active m' k /\ e' = mark_entry m e) \/
  (exists e d, cluster_registry m !! k = Some e /\ death e = Some d /\
               ~ active m k /\ ~ active m' k /\ e' = e).
Proof.
  intros He'.
  destruct (decide (k ∈ Step.active_cluster_ids m r_tree r_light)) as [Ha|Ha].
  - pose proof Ha as Hact. apply (tracked_iff_active m _ _ k Htr) in Hact.
    rewrite registry_step_active in He' by assumption. simpl in He'.
    destruct (Step.expired m _); [discriminate|]. inversion He' as [Heq].
    destruct (cluster_registry m !! k) as [e|] eqn:He.
    + right. left. exists e.
      destruct (active_old_entry k e Hact He) as [Hd Hold]. auto.
    + left. repeat split; try assumption. intros Hold.
      destruct Hold as (i & j & Hij & Hs & Hcid).
      pose proof (coupled_burning_pos m i j (inv_coupled m Hinv) Hij Hs).
      destruct (inv_carried m Hinv i j Hij) as [e0 [He0 _]]; [lia|].
      congruence.
  - assert (~ active m' k) as Hna.
    { intros H. apply Ha. by apply tracked_iff_active. }
    rewrite registry_step_inactive in He' by assumption.
    destruct (cluster_registry m !! k) as [e|] eqn:He; [|discriminate].
    simpl in He'. right. right.
    destruct (decide (is_Some (current_clusters m !! k))) as [Hcur|Hcur].
    + left. exists e. destruct (Step.expired m _); [discriminate|].
      inversion He'. apply (inv_current m Hinv) in Hcur.
      split; [reflexivity|]. split; [|auto].
      destruct Hcur as (i & j & Hij & Hs & Hcid).
      pose proof (coupled_burning_pos m i j (inv_coupled m Hinv) Hij Hs).
      destruct (inv_carried m Hinv i j Hij) as [e0 [He0 Hd]]; [lia|].
      rewrite Hcid, He in He0. by inversion He0.
    + right. destruct (Step.expired m e); [discriminate|]. inversion He'.
      subst e'. destruct (death e) as [d|] eqn:Hd.
      * exists e, d. repeat split; try assumption.
        intros Hold. apply Hcur. by apply (inv_current m Hinv).
      * exfalso. destruct Htr as (_ & _ & _ & Hlive).
        destruct (Hlive k e He Hd) as [_ H]. contradiction.
Qed.
End Lifecycle.

(** X8. What one step does to the registry, for every id registered after
    a step from a reachable state: the id is newly active and its entry was
    created by the step; or it goes on burning and its entry was updated;
    or its fire went out in this step and its entry was marked dead; or it
    was dead before and its entry is unchanged. *)
Theorem registry_entry_lifecycle (m : model) (r_tree r_light : ndarray Q)
    (k : Z) (e' : entry) :
  reachable m ->
  cluster_registry (step m r_tree r_light) !! k = Some e' ->
  (cluster_registry m !! k = None /\ ~ active m k /\
   active (step m r_tree r_light) k /\
   e' = track_entry m (cluster_cells (step m r_tree r_light) k) None) \/
  (exists e, cluster_registry m !! k = Some e /\ death e = None /\
             active m k /\ active (step m r_tree r_light) k /\
             e' = track_entry m (cluster_cells (step m r_tree r_light) k)
                    (Some e)) \/
  (exists e, cluster_registry m !! k = Some e /\ death e = None /\
             active m k /\ ~ active (step m r_tree r_light) k /\
             e' = mark_entry m e) \/
  (exists e d, cluster_registry m !! k = Some e /\ death e = Some d /\
               ~ active m k /\ ~ active (step m r_tree r_light) k /\ e' = e).
Proof.
  intros Hr. apply entry_lifecycle;
    [by apply reachable_inv | by apply reachable_tracking].
Qed.

Lemma In_deque_append {A : Type} (x y : A) (d : deque A) :
  In x (items (deque_append y d)) -> x = y \/ In x (items d).
Proof.
  unfold deque_append. simpl. intros H.
  assert (In x (items d ++ y :: nil)) as H'.
  { rewrite <- (firstn_skipn (length (items d ++ y :: nil) - maxlen d)
                  (items d ++ y :: nil)).
    apply in_app_iff. by right. }
  apply in_app_iff in H' as [H'|[H'|[]]]; auto.
Qed.

Lemma registry_ok_init (gs : Z) (pt pf : Q) (r : ndarray Q) (m : model) :
  init gs pt pf r = Some m -> registry_ok m.
Proof.
  intros H. apply init_Some in H as [_ ->].
  split; simpl; try lia; intros k e; by rewrite lookup_empty.
Qed.

Section RegistryOkStep.
Variable m : model.
Variables r_tree r_light : ndarray Q.
Hypothesis Hinv : inv m.
Hypothesis Htr : tracking m.
Hypothesis Hok : registry_ok m.
Local Abbreviation m' := (step m r_tree r_light).

Lemma registry_ok_step : registry_ok m'.
Proof.
  pose proof (rok_steps m Hok) as Hsteps.
  pose proof (inv_window m Hinv) as HW.
  assert (forall k, active m' k ->
            1 <= cluster_cells m' k
              <= Z.of_nat (grid_size m * grid_size m)) as Hcells.
  { intros k Ha. split; [by apply active_cluster_cells_pos|].
    apply (cluster_cells_le m' k). }
  split.
  - rewrite step_count_step. lia.
  - intros k e' He'. rewrite step_count_step.
    destruct (entry_lifecycle m r_tree r_light Hinv Htr k e' He')
      as [(_ & _ & _ & ->)|[(e & He & Hd & _ & _ & ->)
         |[(e & He & Hd & _ & _ & ->)|(e & d & He & Hd & _ & _ & ->)]]].
    + rewrite track_entry_birth, track_entry_death. split; [lia|]. done.
    + rewrite track_entry_birth, track_entry_death, Hd.
      destruct (rok_dates m Hok k e He) as [Hb _]. split; [lia | done].
    + rewrite mark_entry_birth, mark_entry_death, Hd.
      destruct (rok_dates m Hok k e He) as [Hb _]. split; [lia|].
      intros d0 H0. inversion H0. lia.
    + destruct (rok_dates m Hok k e He) as [Hb Hdd]. split; [lia|].
      intros d0 H0. specialize (Hdd d0 H0). lia.
  - intros k e' He' s c Hin. rewrite step_count_step.
    destruct (entry_lifecycle m r_tree r_light Hinv Htr k e' He')
      as [(_ & _ & Ha & ->)|[(e & He & Hd & _ & Ha & ->)
         |[(e & He & Hd & _ & _ & ->)|(e & d & He & Hd & _ & _ & ->)]]].
    + rewrite track_entry_sizes in Hin.
      apply In_deque_append in Hin as [Hin|[]]. inversion Hin; subst s c.
      rewrite track_entry_birth, track_entry_max_size.
      pose proof (Hcells k Ha). lia.
    + rewrite track_entry_sizes in Hin.
      rewrite track_entry_birth, track_entry_max_size.
      destruct (rok_dates m Hok k e He) as [Hb _].
      apply In_deque_append in Hin as [Hin|Hin].
      * inversion Hin; subst s c. pose proof (Hcells k Ha). lia.
      * pose proof (rok_sizes m Hok k e He s c Hin). lia.
    + rewrite mark_entry_sizes in Hin.
      rewrite mark_entry_birth, mark_entry_max_size.
      pose proof (rok_sizes m Hok k e He s c Hin). lia.
    + pose proof (rok_sizes m Hok k e He s c Hin). lia.
  - intros k e' He'.
    change (grid_size m') with (grid_size m).
    destruct (entry_lifecycle m r_tree r_light Hinv Htr k e' He')
      as [(_ & _ & Ha & ->)|[(e & He & Hd & _ & Ha & ->)
         |[(e & He & Hd & _ & _ & ->)|(e & d & He & Hd & _ & _ & ->)]]].
    + rewrite track_entry_max_size. by apply Hcells.
    + rewrite track_entry_max_size. pose proof (Hcells k Ha).
      pose proof (rok_max m Hok k e He). lia.
    + rewrite mark_entry_max_size. apply (rok_max m Hok k e He).
    + apply (rok_max m Hok k e He).
  - intros k e' He'. rewrite step_count_step.
    destruct (entry_lifecycle m r_tree r_light Hinv Htr k e' He')
      as [(_ & _ & Ha & ->)|[(e & He & Hd & _ & Ha & ->)
         |[(e & He & Hd & _ & _ & ->)|(e & d & He & Hd & _ & _ & ->)]]].
    + exists (step_count m + 1).
      rewrite track_entry_sizes, track_entry_max_size, track_entry_death.
      split; [apply last_deque_append; simpl; rewrite HW; lia|].
      split; [auto | done].
    + exists (step_count m + 1).
      rewrite track_entry_sizes, track_entry_max_size, track_entry_death, Hd.
      destruct (rok_last m Hok k e He) as (s & _ & Hlive & _).
      destruct (Hlive Hd) as [_ Hmax].
      pose proof (inv_keys m Hinv k e He) as Hk.
      pose proof (cluster_grows m r_tree r_light (inv_coupled m Hinv) k
                    ltac:(lia) Ha) as Hgrow.
      replace (Z.max (max_size e) (cluster_cells m' k))
        with (cluster_cells m' k) by lia.
      split; [|split; [auto | done]].
      apply last_deque_append.
      destruct (inv_sizes m Hinv k e He) as [-> _]. rewrite HW. lia.
    + destruct (rok_last m Hok k e He) as (s & Hlast & Hlive & _).
      destruct (Hlive Hd) as [Hs _]. exists s.
      rewrite mark_entry_sizes, mark_entry_max_size, mark_entry_death, Hd.
      split; [exact Hlast|]. split; [done|].
      intros d0 H0. inversion H0. lia.
    + destruct (rok_last m Hok k e He) as (s & Hlast & _ & Hdead).
      exists s. split; [exact Hlast|]. split; [congruence | exact Hdead].
Qed.
End RegistryOkStep.

Lemma reachable_registry_ok (m : model) : reachable m -> registry_ok m.
Proof.
  induction 1 as [gs pt pf r m H|m r1 r2 Hr IH].
  - by apply (registry_ok_init gs pt pf r).
  - apply registry_ok_step;
      [by apply reachable_inv | by apply reachable_tracking | exact IH].
Qed.

(** X9. In every reachable state, a registered cluster has no death step
    exactly when it is active, that is, when some cell burns with its id. *)
Theorem live_iff_active (m : model) (k : Z) (e : entry) :
  reachable m -> cluster_registry m !! k = Some e ->
  (death e = None <-> active m k).
Proof.
  intros Hr He. pose proof (reachable_inv m Hr) as Hinv.
  pose proof (reachable_tracking m Hr) as (_ & _ & _ & Hlive). split.
  - intros Hd. by destruct (Hlive k e He Hd).
  - intros (i & j & Hij & Hs & Hcid).
    pose proof (coupled_burning_pos m i j (inv_coupled m Hinv) Hij Hs).
    destruct (inv_carried m Hinv i j Hij) as [e0 [He0 Hd]]; [lia|].
    rewrite Hcid, He in He0. by inversion He0.
Qed.

Lemma live_iff_active_witness : death ex_e2 = None <-> active ex_m2 1.
Proof.
  apply (live_iff_active ex_m2 1 ex_e2).
  - exact ex_m2_reachable.
  - vm_compute. reflexivity.
Defined.

(** X10. In every reachable state the dates of a registry entry are in
    order: the birth step is at least 1 and at most the step counter, and a
    recorded death step is later than the birth and at most the step
    counter. *)
Theorem entry_dates_ordered (m : model) (k : Z) (e : entry) :
  reachable m -> cluster_registry m !! k = Some e ->
  1 <= birth e <= step_count m /\
  (forall d, death e = Some d -> birth e < d <= step_count m).
Proof.
  intros Hr He. exact (rok_dates m (reachable_registry_ok m Hr) k e He).
Qed.

Lemma entry_dates_ordered_witness :
  1 <= birth ex_e4 <= step_count ex_m4 /\
  (forall d, death ex_e4 = Some d -> birth ex_e4 < d <= step_count ex_m4).
Proof.
  apply (entry_dates_ordered ex_m4 1 ex_e4).
  - exact ex_m4_reachable.
  - vm_compute. reflexivity.
Defined.

(** X11. In every reachable state, every sample [(s, c)] in the size
    history of an entry was taken between its birth and the current step,
    its size [c] is at least 1 and at most [max_size], and [max_size] is at
    most the number of cells of the grid. *)
Theorem size_history_sound (m : model) (k : Z) (e : entry) :
  reachable m -> cluster_registry m !! k = Some e ->
  1 <= max_size e <= Z.of_nat (grid_size m * grid_size m) /\
  (forall s c, In (s, c) (items (sizes e)) ->
     birth e <= s <= step_count m /\ 1 <= c <= max_size e).
Proof.
  intros Hr He. pose proof (reachable_registry_ok m Hr) as Hok.
  split; [exact (rok_max m Hok k e He) | exact (rok_sizes m Hok k e He)].
Qed.

Lemma size_history_sound_witness :
  1 <= max_size ex_e4 <= Z.of_nat (grid_size ex_m4 * grid_size ex_m4) /\
  (forall s c, In (s, c) (items (sizes ex_e4)) ->
     birth ex_e4 <= s <= step_count ex_m4 /\ 1 <= c <= max_size ex_e4).
Proof.
  apply (size_history_sound ex_m4 1 ex_e4).
  - exact ex_m4_reachable.
  - vm_compute. reflexivity.
Defined.

(** X12. In every reachable state, [max_size] of an entry is the size of
    its most recent sample. For a cluster that still burns that sample was
    taken at the current step and is the number of cells that carry the id
    now; for a dead cluster it was taken at the step before its death. *)
Theorem max_size_is_last_sample (m : model) (k : Z) (e : entry) :
  reachable m -> cluster_registry m !! k = Some e ->
  exists s, last (items (sizes e)) = Some (s, max_size e) /\
            (death e = None ->
             s = step_count m /\ max_size e = cluster_cells m k) /\
            (forall d, death e = Some d -> s = d - 1).
Proof.
  intros Hr He. exact (rok_last m (reachable_registry_ok m Hr) k e He).
Qed.

Lemma max_size_is_last_sample_witness :
  exists s, last (items (sizes ex_e4)) = Some (s, max_size ex_e4) /\
            (death ex_e4 = None ->
             s = step_count ex_m4 /\ max_size ex_e4 = cluster_cells ex_m4 1) /\
            (forall d, death ex_e4 = Some d -> s = d - 1).
Proof.
  apply (max_size_is_last_sample ex_m4 1 ex_e4).
  - exact ex_m4_reachable.
  - vm_compute. reflexivity.
Defined.

Lemma registry_entry_lifecycle_witness :
  (cluster_registry ex_m3 !! 1 = None /\ ~ active ex_m3 1 /\
   active (step ex_m3 (all_draws 2 1) (all_draws 2 1)) 1 /\
   ex_e4 = track_entry ex_m3
             (cluster_cells (step ex_m3 (all_draws 2 1) (all_draws 2 1)) 1)
             None) \/
  (exists e, cluster_registry ex_m3 !! 1 = Some e /\ death e = None /\
             active ex_m3 1 /\
             active (step ex_m3 (all_draws 2 1) (all_draws 2 1)) 1 /\
             ex_e4 = track_entry ex_m3
                       (cluster_cells
                          (step ex_m3 (all_draws 2 1) (all_draws 2 1)) 1)
                       (Some e)) \/
  (exists e, cluster_registry ex_m3 !! 1 = Some e /\ death e = None /\
             active ex_m3 1 /\
             ~ active (step ex_m3 (all_draws 2 1) (all_draws 2 1)) 1 /\
             ex_e4 = mark_entry ex_m3 e) \/
  (exists e d, cluster_registry ex_m3 !! 1 = Some e /\ death e = Some d /\
               ~ active ex_m3 1 /\
               ~ active (step ex_m3 (all_draws 2 1) (all_draws 2 1)) 1 /\
               ex_e4 = e).
Proof.
  apply (registry_entry_lifecycle ex_m3 (all_draws 2 1) (all_draws 2 1) 1
           ex_e4).
  - exact ex_m3_reachable.
  - vm_compute. reflexivity.
Defined.

(** ** Births and deaths *)

Lemma NoDup_list_prod {A B : Type} (l1 : list A) (l2 : list B) :
  NoDup l1 -> NoDup l2 -> NoDup (list_prod l1 l2).
Proof.
  intros Hl1 Hl2. induction Hl1 as [|a l1 Ha Hl1 IH]; simpl; [constructor|].
  apply NoDup_app. split; [|split; [|exact IH]].
  - apply (NoDup_fmap_2 (pair a)). exact Hl2.
  - intros [a' b] H1 H2. apply list_elem_of_In, in_map_iff in H1.
    destruct H1 as [b' [Heq _]]. inversion Heq; subst a' b'.
    apply list_elem_of_In, in_prod_iff in H2 as [H2 _].
    apply Ha. by apply list_elem_of_In.
Qed.

Lemma NoDup_cells (n : nat) : NoDup (cells n).
Proof. apply NoDup_list_prod; apply NoDup_seq. Qed.

Lemma filter_length_unique {A : Type} (p : A -> bool) (l : list A) (x : A) :
  NoDup l -> In x l -> p x = true ->
  (forall y, In y l -> p y = true -> y = x) ->
  length (List.filter p l) = 1%nat.
Proof.
  intros Hnd. induction Hnd as [|a l Ha Hnd IH]; intros Hin Hp Huniq;
    [destruct Hin|].
  simpl. destruct (p a) eqn:Hpa.
  - assert (a = x) as -> by (apply Huniq; [by left | exact Hpa]).
    simpl. f_equal.
    destruct (List.filter p l) as [|y l'] eqn:E; [reflexivity|].
    assert (In y (List.filter p l)) as Hy by (rewrite E; by left).
    apply filter_In in Hy as [Hy Hpy].
    assert (y = x) as -> by (apply Huniq; [by right | exact Hpy]).
    exfalso. apply Ha. by apply list_elem_of_In.
  - destruct Hin as [->|Hin]; [congruence|].
    apply IH; [exact Hin | exact Hp |].
    intros y Hy. apply Huniq. by right.
Qed.

Section Births.
Variable m : model.
Variables r_tree r_light : ndarray Q.
Hypothesis Hr : reachable m.
Local Abbreviation m' := (step m r_tree r_light).

Lemma active_tracked (k : Z) :
  active m' k -> k ∈ Step.active_cluster_ids m r_tree r_light.
Proof.
  intros Ha. apply tracked_iff_active; [by apply reachable_tracking|exact Ha].
Qed.

Lemma window_positive : (0 < window_size m)%nat.
Proof. rewrite (inv_window m (reachable_inv m Hr)). lia. Qed.

Lemma track_entry_not_expired (c : Z) (o : option entry) :
  match o with Some e => death e = None | None => True end ->
  Step.expired m (track_entry m c o) = false.
Proof.
  intros H. unfold Step.expired. rewrite track_entry_death.
  destruct o as [e|]; [by rewrite H | reflexivity].
Qed.

Lemma new_cluster_registered (k : Z) :
  ~ active m k -> active m' k ->
  cluster_registry m !! k = None /\
  cluster_registry m' !! k =
    Some (mk_entry (step_count m + 1) None (cluster_cells m' k)
            (mk_deque (window_size m)
               ((step_count m + 1, cluster_cells m' k) :: nil))).
Proof.
  intros Hna Ha. pose proof (reachable_inv m Hr) as Hinv.
  assert (cluster_registry m !! k = None) as Hnone.
  { destruct (cluster_registry m !! k) as [e|] eqn:He; [|reflexivity].
    destruct (active_old_entry m r_tree r_light Hinv k e Ha He) as [_ H].
    contradiction. }
  split; [exact Hnone|].
  rewrite registry_step_active by (by apply active_tracked).
  rewrite Hnone. cbv zeta. rewrite track_entry_not_expired by exact I.
  f_equal. unfold track_entry. simpl. rewrite Z.ltb_irrefl. f_equal.
  unfold deque_append, deque_new. simpl. f_equal.
  pose proof window_positive. by destruct (window_size m); [lia|].
Qed.

Lemma dying_cluster_marked (k : Z) :
  active m k -> ~ active m' k ->
  exists e, cluster_registry m !! k = Some e /\ death e = None /\
            cluster_registry m' !! k =
              Some (mk_entry (birth e) (Some (step_count m + 1)) (max_size e)
                      (sizes e)).
Proof.
  intros Ha Hna. pose proof (reachable_inv m Hr) as Hinv.
  pose proof Ha as (i & j & Hij & Hs & Hcid).
  pose proof (coupled_burning_pos m i j (inv_coupled m Hinv) Hij Hs) as Hpos.
  destruct (inv_carried m Hinv i j Hij Hpos) as [e [He Hd]].
  rewrite Hcid in He. exists e. split; [exact He|]. split; [exact Hd|].
  rewrite registry_step_inactive, He.
  - simpl.
    destruct (decide (is_Some (current_clusters m !! k))) as [_|Hcur];
      [|exfalso; apply Hcur; by apply (inv_current m Hinv)].
    unfold mark_entry. rewrite Hd. unfold Step.expired. simpl.
    unfold Step.step_count'.
    replace (Z.of_nat (window_size m) <? step_count m + 1 - (step_count m + 1))
      with false by (symmetry; apply Z.ltb_ge; lia).
    reflexivity.
  - intros H. apply Hna. by apply elem_of_active_cluster_ids in H as [_ H].
Qed.

Lemma lightning_cluster_single (i j : nat) :
  in_grid m i j -> state m i j = TREE -> state m' i j = BURNING ->
  burning_neighbors m i j = nil ->
  cluster_cells m' (cid m' i j) = 1.
Proof.
  intros Hin Hs Hs' Hnil. pose proof Hin as [Hi Hj].
  apply burning'_iff in Hs'; [|assumption..].
  unfold cluster_cells. simpl.
  rewrite (filter_length_unique _ _ (i, j)); [reflexivity | | | |].
  - apply NoDup_cells.
  - apply in_cells. simpl. lia.
  - apply Z.eqb_refl.
  - intros [a b] Hab Hp. apply in_cells in Hab. apply Z.eqb_eq in Hp.
    simpl in *. destruct (decide ((a, b) = (i, j))) as [|Hne]; [assumption|].
    exfalso.
    by apply (fresh_id_unique m r_tree r_light (reachable_inv m Hr)
                i j a b Hin Hs' Hnil Hab Hne).
Qed.
End Births.

(** X13. From a reachable state, a cluster that is active after a step and
    was not active before it was not registered, and the step registers it
    with birth equal to the new step counter, no death, [max_size] equal to
    the number of cells that carry its id, and that one sample as its size
    history. *)
Theorem new_cluster_entry (m : model) (r_tree r_light : ndarray Q) (k : Z) :
  reachable m -> ~ active m k -> active (step m r_tree r_light) k ->
  cluster_registry m !! k = None /\
  cluster_registry (step m r_tree r_light) !! k =
    Some (mk_entry (step_count m + 1) None
            (cluster_cells (step m r_tree r_light) k)
            (mk_deque (window_size m)
               ((step_count m + 1, cluster_cells (step m r_tree r_light) k)
                :: nil))).
Proof. intros Hr. by apply new_cluster_registered. Qed.

Lemma new_cluster_entry_witness :
  cluster_registry ex_m0 !! 1 = None /\
  cluster_registry (step ex_m0 (all_draws 2 1) (strike_corner 2)) !! 1 =
    Some (mk_entry (step_count ex_m0 + 1) None
            (cluster_cells (step ex_m0 (all_draws 2 1) (strike_corner 2)) 1)
            (mk_deque (window_size ex_m0)
               ((step_count ex_m0 + 1,
                 cluster_cells (step ex_m0 (all_draws 2 1) (strike_corner 2)) 1)
                :: nil))).
Proof.
  apply (new_cluster_entry ex_m0 (all_draws 2 1) (strike_corner 2) 1).
  - exact ex_m0_reachable.
  - apply burning_count_zero. vm_compute. reflexivity.
  - apply burning_count_pos. vm_compute. reflexivity.
Defined.

(** X14. From a reachable state, a cluster that was active and has no
    burning cell after a step is marked dead by that very step: its entry
    is kept, with the new step counter as death step and everything else
    unchanged. *)
Theorem cluster_death_recorded (m : model) (r_tree r_light : ndarray Q)
    (k : Z) :
  reachable m -> active m k -> ~ active (step m r_tree r_light) k ->
  exists e, cluster_registry m !! k = Some e /\ death e = None /\
            cluster_registry (step m r_tree r_light) !! k =
              Some (mk_entry (birth e) (Some (step_count m + 1)) (max_size e)
                      (sizes e)).
Proof. intros Hr. by apply dying_cluster_marked. Qed.

Lemma cluster_death_recorded_witness :
  exists e, cluster_registry ex_m3 !! 1 = Some e /\ death e = None /\
            cluster_registry (step ex_m3 (all_draws 2 1) (all_draws 2 1)) !! 1 =
              Some (mk_entry (birth e) (Some (step_count ex_m3 + 1))
                      (max_size e) (sizes e)).
Proof.
  apply (cluster_death_recorded ex_m3 (all_draws 2 1) (all_draws 2 1) 1).
  - exact ex_m3_reachable.
  - apply burning_count_pos. vm_compute. reflexivity.
  - apply burning_count_zero. vm_compute. reflexivity.
Defined.

(** X15. From a reachable state, a tree ignited by lightning alone starts
    a cluster of exactly one cell: after the step its id is carried by that
    cell only. *)
Theorem lightning_starts_single_cell (m : model) (r_tree r_light : ndarray Q)
    (i j : nat) :
  reachable m -> in_grid m i j -> state m i j = TREE ->
  state (step m r_tree r_light) i j = BURNING ->
  burning_neighbors m i j = nil ->
  cluster_cells (step m r_tree r_light) (cid (step m r_tree r_light) i j) = 1.
Proof. intros Hr. by apply lightning_cluster_single. Qed.

Lemma lightning_starts_single_cell_witness :
  cluster_cells (step ex_m0 (all_draws 2 1) (strike_corner 2))
    (cid (step ex_m0 (all_draws 2 1) (strike_corner 2)) 0 0) = 1.
Proof.
  apply (lightning_starts_single_cell ex_m0 (all_draws 2 1) (strike_corner 2)
           0 0).
  - exact ex_m0_reachable.
  - split; vm_compute; lia.
  - vm_compute. reflexivity.
  - vm_compute. reflexivity.
  - vm_compute. reflexivity.
Defined.

(** X16. After a step from a reachable state, [current_clusters] maps
    exactly the active ids, each to the number of cells that carry it. *)
Theorem current_clusters_content (m : model) (r_tree r_light : ndarray Q)
    (k : Z) :
  reachable m ->
  current_clusters (step m r_tree r_light) !! k =
  if is_active (step m r_tree r_light) k
  then Some (cluster_cells (step m r_tree r_light) k) else None.
Proof.
  intros Hr. pose proof (reachable_tracking m Hr) as Htr.
  unfold step at 1. simpl.
  rewrite new_current_clusters_lookup, (cluster_size_eq m r_tree r_light).
  destruct (decide (k ∈ Step.active_cluster_ids m r_tree r_light)) as [H|H];
    rewrite (tracked_iff_active m r_tree r_light k Htr) in H;
    rewrite <- is_active_iff in H;
    by destruct (is_active (step m r_tree r_light) k).
Qed.

Lemma current_clusters_content_witness :
  current_clusters (step ex_m1 (all_draws 2 1) (all_draws 2 1)) !! 1 =
  if is_active (step ex_m1 (all_draws 2 1) (all_draws 2 1)) 1
  then Some (cluster_cells (step ex_m1 (all_draws 2 1) (all_draws 2 1)) 1)
  else None.
Proof.
  apply (current_clusters_content ex_m1 (all_draws 2 1) (all_draws 2 1) 1).
  exact ex_m1_reachable.
Defined.

(** X17. Fresh ids are handed out in row-major order: of two trees ignited
    by lightning alone in the same step, the one that comes first in
    row-major order takes the smaller id. *)
Theorem fresh_ids_row_major (m : model) (r_tree r_light : ndarray Q)
    (i j i' j' : nat) :
  in_grid m i j -> in_grid m i' j' ->
  state m i j = TREE -> state (step m r_tree r_light) i j = BURNING ->
  burning_neighbors m i j = nil ->
  state m i' j' = TREE -> state (step m r_tree r_light) i' j' = BURNING ->
  burning_neighbors m i' j' = nil ->
  cell_ltb (i, j) (i', j') = true ->
  cid (step m r_tree r_light) i j < cid (step m r_tree r_light) i' j'.
Proof.
  intros Hin Hin' _ Hs Hnil _ Hs' Hnil' Hlt.
  pose proof Hin as [Hi Hj]. pose proof Hin' as [Hi' Hj'].
  apply burning'_iff in Hs; [|assumption..].
  apply burning'_iff in Hs'; [|assumption..].
  destruct (lightning_cid m r_tree r_light i j Hin Hs Hnil) as [Hl ->].
  destruct (lightning_cid m r_tree r_light i' j' Hin' Hs' Hnil') as [_ ->].
  pose proof (mask_rank_mono (grid_size m) _ i j i' j' Hi Hj Hl Hlt). lia.
Qed.

Lemma fresh_ids_row_major_witness :
  cid (step ex_m0 (all_draws 2 1) (strike_diagonal 2)) 0 0 <
  cid (step ex_m0 (all_draws 2 1) (strike_diagonal 2)) 1 1.
Proof.
  apply (fresh_ids_row_major ex_m0 (all_draws 2 1) (strike_diagonal 2) 0 0 1 1).
  - split; vm_compute; lia.
  - split; vm_compute; lia.
  - vm_compute. reflexivity.
  - vm_compute. reflexivity.
  - vm_compute. reflexivity.
  - vm_compute. reflexivity.
  - vm_compute. reflexivity.
  - vm_compute. reflexivity.
  - vm_compute. reflexivity.
Defined.

(** ** The data of the size histogram *)

Lemma fold_completed (l : list (Z * entry)) (acc : list Z) :
  fold_left
    (fun acc kv =>
       match death (snd kv) with
       | Some _ => acc ++ max_size (snd kv) :: nil
       | None => acc
       end) l acc =
  acc ++ List.map (fun kv => max_size (snd kv))
           (List.filter
              (fun kv => match death (snd kv) with
                         | Some _ => true
                         | None => false
                         end) l).
Proof.
  revert acc. induction l as [|kv l IH]; intros acc; simpl;
    [by rewrite app_nil_r|].
  rewrite IH. destruct (death (snd kv)); simpl; [|reflexivity].
  by rewrite <- app_assoc.
Qed.

Lemma In_completed_max_sizes (m : model) (v : Z) :
  In v (completed_max_sizes m) <->
  exists k e d, cluster_registry m !! k = Some e /\ death e = Some d /\
                max_size e = v.
Proof.
  unfold completed_max_sizes. rewrite fold_completed. simpl.
  rewrite in_map_iff. split.
  - intros [[k e] [Hv Hin]]. apply filter_In in Hin as [Hin Hd].
    apply list_elem_of_In, elem_of_map_to_list in Hin. simpl in *.
    destruct (death e) as [d|] eqn:E; [|discriminate]. by exists k, e, d.
  - intros (k & e & d & He & Hd & Hv). exists (k, e). split; [exact Hv|].
    apply filter_In. split; [|simpl; by rewrite Hd].
    by apply list_elem_of_In, elem_of_map_to_list.
Qed.

Lemma completed_max_sizes_perm (m : model) (l : list (Z * entry)) :
  NoDup l ->
  (forall k e, In (k, e) l <->
               cluster_registry m !! k = Some e /\ death e <> None) ->
  Permutation (completed_max_sizes m)
    (List.map (fun kv => max_size (snd kv)) l).
Proof.
  intros Hnd Hl. unfold completed_max_sizes. rewrite fold_completed. simpl.
  apply Permutation_map. apply NoDup_Permutation; [|exact Hnd|].
  - apply NoDup_ListNoDup, List.NoDup_filter, NoDup_ListNoDup.
    apply NoDup_map_to_list.
  - intros [k e]. rewrite !list_elem_of_In, filter_In, Hl.
    rewrite <- list_elem_of_In, elem_of_map_to_list. simpl.
    destruct (death e); split; intros [H1 H2]; (split; [exact H1|]);
      congruence.
Qed.

Lemma ex_d2_reachable : reachable ex_d2.
Proof.
  do 2 apply reachable_step.
  by apply (reachable_init 2 0 (1 # 2) (strike_diagonal 2)).
Qed.

Lemma ex_d2_registry :
  cluster_registry ex_d2 = <[1 := ex_d_e]> (<[2 := ex_d_e]> ∅).
Proof. vm_compute. reflexivity. Qed.

(** X18. The values that [plot_cluster_size_histogram] and
    [update_histogram_plot] put in the histogram are the maximum sizes of
    the registered clusters that have a death step, one value for each such
    cluster: along every enumeration without repetition of the dead entries
    of the registry, as Python's [items()] is one, the maximum sizes are a
    rearrangement of the collected list. In a reachable state each value
    lies between 1 and the number of cells of the grid, and the "No
    completed clusters yet" branch is taken exactly when every registered
    cluster is still burning. *)
Theorem histogram_data (m : model) :
  reachable m ->
  (forall l : list (Z * entry),
     NoDup l ->
     (forall k e, In (k, e) l <->
                  cluster_registry m !! k = Some e /\ death e <> None) ->
     Permutation (completed_max_sizes m)
       (List.map (fun kv => max_size (snd kv)) l)) /\
  (forall v, In v (completed_max_sizes m) <->
     exists k e d, cluster_registry m !! k = Some e /\ death e = Some d /\
                   max_size e = v) /\
  (forall v, In v (completed_max_sizes m) ->
     1 <= v <= Z.of_nat (grid_size m * grid_size m)) /\
  (no_completed_clusters m = true <->
   forall k e, cluster_registry m !! k = Some e -> active m k).
Proof.
  intros Hr. split; [intros l; apply completed_max_sizes_perm|].
  split; [apply In_completed_max_sizes|]. split.
  - intros v Hv. apply In_completed_max_sizes in Hv as (k & e & d & He & _ & <-).
    exact (rok_max m (reachable_registry_ok m Hr) k e He).
  - unfold no_completed_clusters. rewrite Nat.eqb_eq. split.
    + intros Hlen k e He.
      pose proof (reachable_tracking m Hr) as (_ & _ & _ & Hlive).
      destruct (death e) as [d|] eqn:Hd; [|by destruct (Hlive k e He Hd)].
      assert (In (max_size e) (completed_max_sizes m)) as Hin
        by (apply In_completed_max_sizes; by exists k, e, d).
      destruct (completed_max_sizes m); [destruct Hin | discriminate].
    + intros Hall.
      destruct (completed_max_sizes m) as [|v l] eqn:E; [reflexivity|].
      assert (In v (completed_max_sizes m)) as Hin by (rewrite E; by left).
      apply In_completed_max_sizes in Hin as (k & e & d & He & Hd & _).
      pose proof (Hall k e He) as Ha.
      pose proof (reachable_inv m Hr) as Hinv.
      destruct Ha as (i & j & Hij & Hs & Hcid).
      pose proof (coupled_burning_pos m i j (inv_coupled m Hinv) Hij Hs).
      destruct (inv_carried m Hinv i j Hij) as [e0 [He0 Hd0]]; [lia|].
      rewrite Hcid, He in He0. inversion He0; subst e0. congruence.
Qed.

(** Two fires of one cell each, both out: the value 1 is collected twice. *)
Lemma histogram_data_witness :
  Permutation (completed_max_sizes ex_d2) (1 :: 1 :: nil).
Proof.
  destruct (histogram_data ex_d2 ex_d2_reachable) as [Hperm _].
  apply (Hperm ((1, ex_d_e) :: (2, ex_d_e) :: nil)).
  - apply NoDup_cons. split; [|apply NoDup_singleton].
    intros H. apply list_elem_of_singleton in H. discriminate.
  - intros k e. rewrite ex_d2_registry. simpl. split.
    + intros [H|[H|[]]]; inversion H; subst; split;
        try discriminate; reflexivity.
    + intros [H Hd]. destruct (decide (k = 1)) as [->|H1].
      * rewrite lookup_insert_eq in H. inversion H. by left.
      * rewrite lookup_insert_ne in H by congruence.
        destruct (decide (k = 2)) as [->|H2].
        -- rewrite lookup_insert_eq in H. inversion H. right. by left.
        -- rewrite lookup_insert_ne in H by congruence.
           rewrite lookup_empty in H. discriminate.
Defined.

(** ** The id counter *)

Lemma length_np_arange (a b : Z) : length (np_arange a b) = Z.to_nat (b - a).
Proof. unfold np_arange. by rewrite length_map, length_seq. Qed.

(** X19. Along a run from construction the counter [next_cluster_id] is 1
    plus the number of ids minted so far, and every positive id on the
    grid and every key of the registry is one of the minted ids. *)
Theorem counter_counts_minted (gs : Z) (pt pf : Q) (r : ndarray Q)
    (m0 : model) (draws : list (ndarray Q * ndarray Q)) :
  init gs pt pf r = Some m0 ->
  next_cluster_id (run m0 draws) =
    1 + Z.of_nat (length (minted_run m0 draws)) /\
  (forall i j, in_grid (run m0 draws) i j -> 0 < cid (run m0 draws) i j ->
               In (cid (run m0 draws) i j) (minted_run m0 draws)) /\
  (forall k e, cluster_registry (run m0 draws) !! k = Some e ->
               In k (minted_run m0 draws)).
Proof.
  intros Hinit. pose proof (inv_init _ _ _ _ _ Hinit) as Hinv0.
  pose proof (inv_run m0 draws Hinv0) as Hinv.
  assert (next_cluster_id m0 = 1) as H1
    by (apply init_Some in Hinit as [_ ->]; reflexivity).
  pose proof (next_cluster_id_run m0 draws) as Hmono.
  rewrite minted_run_eq, length_np_arange, H1. split; [lia|]. split.
  - intros i j Hin Hpos. apply In_np_arange.
    pose proof (inv_ids_lt _ Hinv i j Hin). lia.
  - intros k e He. apply In_np_arange.
    pose proof (inv_keys _ Hinv k e He). lia.
Qed.

Lemma counter_counts_minted_witness :
  next_cluster_id (run ex_m0 ((all_draws 2 1, strike_diagonal 2) :: nil)) =
    1 + Z.of_nat
          (length (minted_run ex_m0 ((all_draws 2 1, strike_diagonal 2) :: nil)))
  /\
  (forall i j,
     in_grid (run ex_m0 ((all_draws 2 1, strike_diagonal 2) :: nil)) i j ->
     0 < cid (run ex_m0 ((all_draws 2 1, strike_diagonal 2) :: nil)) i j ->
     In (cid (run ex_m0 ((all_draws 2 1, strike_diagonal 2) :: nil)) i j)
       (minted_run ex_m0 ((all_draws 2 1, strike_diagonal 2) :: nil))) /\
  (forall k e,
     cluster_registry
       (run ex_m0 ((all_draws 2 1, strike_diagonal 2) :: nil)) !! k = Some e ->
     In k (minted_run ex_m0 ((all_draws 2 1, strike_diagonal 2) :: nil))).
Proof.
  apply (counter_counts_minted 2 0 (1 # 2) (all_draws 2 0) ex_m0
           ((all_draws 2 1, strike_diagonal 2) :: nil)).
  reflexivity.
Defined.

(** ** A forest without fire (Scenario C) *)

Lemma sprouts_zero (m : model) (r : ndarray Q) (i j : nat) :
  (p_tree m == 0)%Q -> (0 <= getq r i j)%Q -> sprouts m r i j = false.
Proof.
  intros Hp Hr. unfold sprouts, Qltb.
  assert (Qle_bool (p_tree m) (getq r i j) = true) as ->; [|reflexivity].
  apply Qle_bool_iff. by rewrite Hp.
Qed.

Lemma p_tree_run (m : model) (ds : list (ndarray Q * ndarray Q)) :
  p_tree (run m ds) = p_tree m.
Proof.
  revert m. induction ds as [|d ds IH]; intros m; [reflexivity|].
  rewrite run_cons, IH. reflexivity.
Qed.

Section FireFreeStep.
Variable m : model.
Variables r_tree r_light : ndarray Q.
Hypothesis Hfree : fire_free m.
Hypothesis Hquiet : no_lightning m r_light.
Hypothesis Hbare : forall i j, in_grid m i j -> sprouts m r_tree i j = false.
Local Abbreviation m' := (step m r_tree r_light).

Lemma fire_free_no_burning (c : nat * nat) :
  (fst c < grid_size m)%nat -> (snd c < grid_size m)%nat ->
  is_burning m c = false.
Proof.
  intros H1 H2. unfold is_burning. apply Z.eqb_neq.
  destruct (Hfree (fst c) (snd c) (conj H1 H2)) as [[H|H] _];
    rewrite H; unfold TREE, EMPTY, BURNING; lia.
Qed.

Lemma fire_free_no_ignition (i j : nat) :
  in_grid m i j -> ignites m r_light i j = false.
Proof.
  intros Hin. pose proof Hin as [Hi Hj]. unfold ignites.
  rewrite (Hquiet i j Hin), orb_false_r.
  assert (existsb (is_burning m) (neighbors (grid_size m) i j) = false) as ->;
    [|apply andb_false_r].
  apply burning_neighbors_nil. unfold burning_neighbors.
  rewrite (filter_ext_in _ (fun _ => false)).
  - by induction (neighbors (grid_size m) i j).
  - intros c Hc. apply (neighbors_in_grid _ i j) in Hc as [H1 H2];
      [|assumption..].
    by apply fire_free_no_burning.
Qed.

Lemma fire_free_cell_step (i j : nat) :
  in_grid m i j -> state m' i j = state m i j /\ cid m' i j = 0.
Proof.
  intros Hin. pose proof Hin as [Hi Hj].
  destruct (Hfree i j Hin) as [Hs _].
  assert (getb (Step.active_ash_mask m r_light) i j = false) as Ha.
  { apply not_fire_not_ash; [exact Hin | |];
      destruct Hs as [-> | ->]; unfold TREE, EMPTY, BURNING, ASH; lia. }
  rewrite state'_at, cid'_at, Ha, fire_free_no_ignition by assumption.
  rewrite new_trees_at by assumption.
  pose proof (Hbare i j Hin) as Hsp. unfold sprouts in Hsp. rewrite Hsp.
  rewrite andb_false_r. split; [|reflexivity].
  destruct Hs as [-> | ->]; reflexivity.
Qed.

Lemma fire_free_step : fire_free m'.
Proof.
  intros i j Hin. destruct (fire_free_cell_step i j Hin) as [-> ->].
  destruct (Hfree i j Hin) as [Hs _]. by split.
Qed.

Lemma fire_free_total_burning : total_burning m' = 0.
Proof.
  unfold total_burning.
  rewrite (filter_ext_in _ (fun _ => false)).
  - by induction (cells (grid_size m')).
  - intros [i j] Hc. apply in_cells in Hc as [H1 H2]. simpl in *.
    unfold is_burning. simpl. apply Z.eqb_neq.
    destruct (fire_free_step i j (conj H1 H2)) as [[H|H] _];
      rewrite H; unfold TREE, EMPTY, BURNING; lia.
Qed.
End FireFreeStep.

Lemma fire_free_run (m : model) (draws : list (ndarray Q * ndarray Q)) :
  fire_free m -> (p_tree m == 0)%Q -> (p_fire m == 0)%Q ->
  Forall (fun d => unit_draws (grid_size m) (fst d) /\
                   unit_draws (grid_size m) (snd d)) draws ->
  fire_free (run m draws) /\
  (forall i j, in_grid m i j ->
     state (run m draws) i j = state m i j /\ cid (run m draws) i j = 0) /\
  next_cluster_id (run m draws) = next_cluster_id m.
Proof.
  intros Hfree Hpt Hpf Hu.
  induction draws as [|d ds IH] using rev_ind.
  - split; [exact Hfree|]. split; [|reflexivity].
    intros i j Hin. split; [reflexivity|]. by destruct (Hfree i j Hin).
  - apply Forall_app in Hu as [Hu Hd].
    apply Forall_cons_1 in Hd as [[Hd1 Hd2] _].
    destruct (IH Hu) as (Hfree' & Hcells & Hnext). clear IH.
    rewrite run_snoc.
    assert (no_lightning (run m ds) (snd d)) as Hq.
    { apply no_lightning_run. by apply unit_draws_no_lightning. }
    assert (forall i j, in_grid (run m ds) i j ->
                        sprouts (run m ds) (fst d) i j = false) as Hbare.
    { intros i j [Hi Hj]. rewrite grid_size_run in Hi, Hj.
      apply sprouts_zero; [by rewrite p_tree_run | by apply Hd1]. }
    split; [by apply fire_free_step|]. split.
    + intros i j Hin.
      assert (in_grid (run m ds) i j) as Hin'
        by (unfold in_grid; by rewrite grid_size_run).
      destruct (fire_free_cell_step (run m ds) (fst d) (snd d) Hfree' Hq
                  Hbare i j Hin') as [-> ->].
      split; [by apply Hcells | reflexivity].
    + by rewrite (quiet_next_cluster_id _ (fst d) (snd d) Hq).
Qed.

(** X20. Scenario C: in a forest without fire, with [p_tree = 0] and
    [p_fire = 0], the grid stays as it is for arbitrarily many steps, no
    cell ever holds a cluster id, the id counter does not move, and every
    step appends a burning count of 0 to the active fire history. *)
Theorem fire_free_forest_is_stable (m : model)
    (draws : list (ndarray Q * ndarray Q)) :
  fire_free m -> (p_tree m == 0)%Q -> (p_fire m == 0)%Q ->
  Forall (fun d => unit_draws (grid_size m) (fst d) /\
                   unit_draws (grid_size m) (snd d)) draws ->
  (forall i j, in_grid m i j ->
     state (run m draws) i j = state m i j /\ cid (run m draws) i j = 0) /\
  next_cluster_id (run m draws) = next_cluster_id m /\
  (forall pre d post, draws = pre ++ d :: post ->
     active_fire_history (run m (pre ++ d :: nil)) =
     deque_append (step_count m + Z.of_nat (length pre) + 1, 0)
       (active_fire_history (run m pre))).
Proof.
  intros Hfree Hpt Hpf Hu.
  destruct (fire_free_run m draws Hfree Hpt Hpf Hu) as (_ & Hcells & Hnext).
  split; [exact Hcells|]. split; [exact Hnext|].
  intros pre d post ->. apply Forall_app in Hu as [Hpre Hd].
  apply Forall_cons_1 in Hd as [[Hd1 Hd2] _].
  destruct (fire_free_run m pre Hfree Hpt Hpf Hpre) as (Hfree' & _ & _).
  rewrite run_snoc. unfold step at 1. simpl.
  unfold Step.active_fire_history', Step.step_count'.
  rewrite total_burning_step, step_count_run.
  rewrite fire_free_total_burning; [reflexivity | exact Hfree' | |].
  - apply no_lightning_run. by apply unit_draws_no_lightning.
  - intros i j [Hi Hj]. rewrite grid_size_run in Hi, Hj.
    apply sprouts_zero; [by rewrite p_tree_run | by apply Hd1].
Qed.

Lemma ex_c0_fire_free : fire_free ex_c0.
Proof.
  intros i j [Hi Hj]. change (grid_size ex_c0) with 2%nat in Hi, Hj.
  destruct i as [|[|i]]; [| |lia]; (destruct j as [|[|j]]; [| |lia]);
    vm_compute; split; auto.
Qed.

Lemma ex_calm_unit :
  unit_draws 2 (fst ex_calm) /\ unit_draws 2 (snd ex_calm).
Proof.
  split; intros i j Hi Hj; simpl; unfold all_draws, getq;
    rewrite get_build by assumption; (split; [apply Qle_refl | reflexivity]).
Qed.

Lemma fire_free_forest_is_stable_witness :
  (forall i j, in_grid ex_c0 i j ->
     state (run ex_c0 (ex_calm :: ex_calm :: nil)) i j = state ex_c0 i j /\
     cid (run ex_c0 (ex_calm :: ex_calm :: nil)) i j = 0) /\
  next_cluster_id (run ex_c0 (ex_calm :: ex_calm :: nil)) =
    next_cluster_id ex_c0 /\
  (forall pre d post, ex_calm :: ex_calm :: nil = pre ++ d :: post ->
     active_fire_history (run ex_c0 (pre ++ d :: nil)) =
     deque_append (step_count ex_c0 + Z.of_nat (length pre) + 1, 0)
       (active_fire_history (run ex_c0 pre))).
Proof.
  apply (fire_free_forest_is_stable ex_c0 (ex_calm :: ex_calm :: nil)).
  - exact ex_c0_fire_free.
  - reflexivity.
  - reflexivity.
  - repeat (constructor; [exact ex_calm_unit|]). constructor.
Defined.

(** ** The active fire history *)

Lemma np_arange_cons (a b : Z) :
  a < b -> np_arange a b = a :: np_arange (a + 1) b.
Proof.
  intros H. rewrite (np_arange_app a (a + 1) b) by lia.
  unfold np_arange at 1. replace (a + 1 - a) with 1 by lia. simpl.
  f_equal. lia.
Qed.

Lemma np_arange_snoc (a b : Z) :
  a <= b -> np_arange a (b + 1) = np_arange a b ++ b :: nil.
Proof.
  intros H. rewrite (np_arange_app a b (b + 1)) by lia. f_equal.
  unfold np_arange. replace (b + 1 - b) with 1 by lia. simpl. f_equal. lia.
Qed.

Lemma total_burning_le (m : model) :
  0 <= total_burning m <= Z.of_nat (grid_size m * grid_size m).
Proof.
  unfold total_burning. split; [lia|]. apply inj_le.
  etransitivity; [apply List.filter_length_le|].
  unfold cells. by rewrite length_prod, !length_seq.
Qed.

Lemma history_steps (m : model) :
  reachable m ->
  0 <= step_count m /\
  Z.of_nat (length (items (active_fire_history m))) =
    Z.min (step_count m) (Z.of_nat (window_size m)) /\
  List.map fst (items (active_fire_history m)) =
    np_arange
      (step_count m + 1 - Z.of_nat (length (items (active_fire_history m))))
      (step_count m + 1) /\
  (forall s c, In (s, c) (items (active_fire_history m)) ->
     0 <= c <= Z.of_nat (grid_size m * grid_size m)) /\
  (0 < step_count m ->
   last (items (active_fire_history m)) =
   Some (step_count m, total_burning m)).
Proof.
  induction 1 as [gs pt pf r m H|m r1 r2 Hr IH].
  - apply init_Some in H as [_ ->]. simpl.
    split; [lia|]. split; [lia|]. split; [reflexivity|].
    split; [by intros s c []|lia].
  - destruct IH as (Hsc & Hlen & Hsteps & Hcounts & _).
    pose proof (reachable_inv m Hr) as Hinv.
    pose proof (inv_window m Hinv) as HW.
    destruct (inv_history m Hinv) as [Hml Hb].
    assert (0 < window_size m)%nat as Hpos by (rewrite HW; lia).
    set (x := (step_count m + 1, total_burning (step m r1 r2))).
    assert (active_fire_history (step m r1 r2) =
            deque_append x (active_fire_history m)) as Hafh.
    { unfold step at 1. simpl.
      unfold Step.active_fire_history', Step.step_count'.
      by rewrite total_burning_step. }
    rewrite Hafh, step_count_step.
    change (window_size (step m r1 r2)) with (window_size m).
    change (grid_size (step m r1 r2)) with (grid_size m).
    fold x.
    pose proof (deque_append_fifo (window_size m) x (active_fire_history m)
                  Hml Hpos Hb) as Hfifo.
    assert (last (items (deque_append x (active_fire_history m))) = Some x)
      as Hlast by (apply last_deque_append; lia).
    assert (forall s c,
              In (s, c) (items (deque_append x (active_fire_history m))) ->
              0 <= c <= Z.of_nat (grid_size m * grid_size m)) as Hc'.
    { intros s c Hin. apply In_deque_append in Hin as [Hin|Hin].
      - inversion Hin. apply (total_burning_le (step m r1 r2)).
      - by apply (Hcounts s c). }
    split; [lia|]. split; [|split; [|split; [exact Hc' | by intros _]]].
    + rewrite Hfifo. unfold fifo_push. unfold bounded in Hb.
      destruct (length (items (active_fire_history m)) <? window_size m)%nat
        eqn:E.
      * apply Nat.ltb_lt in E. rewrite length_app. simpl. lia.
      * apply Nat.ltb_ge in E.
        destruct (items (active_fire_history m)) as [|y l']; [simpl in *; lia|].
        simpl List.tl. rewrite length_app. simpl in *. lia.
    + rewrite Hfifo. unfold fifo_push. unfold bounded in Hb.
      destruct (length (items (active_fire_history m)) <? window_size m)%nat
        eqn:E.
      * apply Nat.ltb_lt in E. rewrite length_app, List.map_app, Hsteps.
        simpl. rewrite <- np_arange_snoc by lia. f_equal. lia.
      * apply Nat.ltb_ge in E.
        destruct (items (active_fire_history m)) as [|y l'] eqn:El;
          [simpl in *; lia|].
        simpl List.tl. rewrite length_app, List.map_app.
        simpl in Hsteps. simpl length in *.
        rewrite np_arange_cons in Hsteps by lia.
        injection Hsteps as Hy Hrest. rewrite Hrest. simpl.
        rewrite <- np_arange_snoc by lia. f_equal. lia.
Qed.

(** X21. In every reachable state the active fire history holds one
    sample for each of the last [min(step_count, window_size)] steps, in
    order and without gaps, ending at the current step; every recorded
    count is between 0 and the number of cells, and the last sample is the
    number of cells that burn now. *)
Theorem fire_history_is_recent_steps (m : model) :
  reachable m ->
  Z.of_nat (length (items (active_fire_history m))) =
    Z.min (step_count m) (Z.of_nat (window_size m)) /\
  List.map fst (items (active_fire_history m)) =
    np_arange
      (step_count m + 1 - Z.of_nat (length (items (active_fire_history m))))
      (step_count m + 1) /\
  (forall s c, In (s, c) (items (active_fire_history m)) ->
     0 <= c <= Z.of_nat (grid_size m * grid_size m)) /\
  (0 < step_count m ->
   last (items (active_fire_history m)) =
   Some (step_count m, total_burning m)).
Proof. intros Hr. by destruct (history_steps m Hr) as [_ H]. Qed.

Lemma fire_history_is_recent_steps_witness :
  Z.of_nat (length (items (active_fire_history ex_m3))) =
    Z.min (step_count ex_m3) (Z.of_nat (window_size ex_m3)) /\
  List.map fst (items (active_fire_history ex_m3)) =
    np_arange
      (step_count ex_m3 + 1
       - Z.of_nat (length (items (active_fire_history ex_m3))))
      (step_count ex_m3 + 1) /\
  (forall s c, In (s, c) (items (active_fire_history ex_m3)) ->
     0 <= c <= Z.of_nat (grid_size ex_m3 * grid_size ex_m3)) /\
  (0 < step_count ex_m3 ->
   last (items (active_fire_history ex_m3)) =
   Some (step_count ex_m3, total_burning ex_m3)).
Proof. apply (fire_history_is_recent_steps ex_m3). exact ex_m3_reachable. Defined.

(** ** Keyboard speed control *)

Lemma py_index_in_range (l : list Z) (i : Z) :
  0 <= i < Z.of_nat (length l) -> py_index l i = nth_error l (Z.to_nat i).
Proof.
  intros H. unfold py_index.
  assert ((0 <=? i) && (i <? Z.of_nat (length l)) = true) as ->; [|reflexivity].
  apply andb_true_iff. split; [apply Z.leb_le | apply Z.ltb_lt]; lia.
Qed.

Lemma speed_options_lookup (i : Z) :
  0 <= i < Z.of_nat (length speed_options) ->
  exists ms, py_index speed_options i = Some ms /\
             nth_error speed_options (Z.to_nat i) = Some ms.
Proof.
  intros H. rewrite py_index_in_range by exact H.
  destruct (nth_error speed_options (Z.to_nat i)) as [ms|] eqn:E; [eauto|].
  apply nth_error_None in E. lia.
Qed.

Lemma speed_ok_initial : speed_ok initial_speed.
Proof. unfold speed_ok. simpl. split; [lia | reflexivity]. Qed.

Lemma on_key_speed_ok (key : string) (has_source : bool) (s : speed_settings) :
  speed_ok s -> speed_ok (fst (on_key key has_source s)).
Proof.
  intros [Hrange Hnth]. unfold on_key.
  destruct (String.eqb key "+" || String.eqb key "=")%bool.
  - destruct (0 <? index s) eqn:E; [|by split]. apply Z.ltb_lt in E.
    destruct (speed_options_lookup (index s - 1)) as (ms & -> & Hms); [lia|].
    split; [cbn [fst index]; lia | exact Hms].
  - destruct (String.eqb key "-").
    + destruct (index s <? Z.of_nat (length speed_options) - 1) eqn:E;
        [|by split]. apply Z.ltb_lt in E.
      destruct (speed_options_lookup (index s + 1)) as (ms & -> & Hms); [lia|].
      split; [cbn [fst index]; lia | exact Hms].
    + destruct (String.eqb key " ").
      * destruct has_source; [|by split]. destruct (paused s); by split.
      * destruct (String.eqb key "r"); by split.
Qed.

Lemma on_key_no_raise (key : string) (s : speed_settings) :
  speed_ok s -> snd (on_key key true s) <> None.
Proof.
  intros [Hrange Hnth]. unfold on_key.
  destruct (String.eqb key "+" || String.eqb key "=")%bool.
  - destruct (0 <? index s) eqn:E; [|discriminate]. apply Z.ltb_lt in E.
    destruct (speed_options_lookup (index s - 1)) as (ms & -> & Hms); [lia|].
    discriminate.
  - destruct (String.eqb key "-").
    + destruct (index s <? Z.of_nat (length speed_options) - 1) eqn:E;
        [|discriminate]. apply Z.ltb_lt in E.
      destruct (speed_options_lookup (index s + 1)) as (ms & -> & Hms); [lia|].
      discriminate.
    + destruct (String.eqb key " ").
      * destruct (paused s); discriminate.
      * destruct (String.eqb key "r"); discriminate.
Qed.

Lemma on_keys_speed_ok (keys : list (string * bool)) (s : speed_settings) :
  speed_ok s -> speed_ok (on_keys keys s).
Proof.
  revert s. induction keys as [|kb keys IH]; intros s Hs; [exact Hs|].
  unfold on_keys. simpl. apply IH. by apply on_key_speed_ok.
Qed.

(** X22. Whatever keys are pressed, starting from settings whose interval
    is the option at their index (as the initial settings are): the index
    stays inside [speed_options], the interval stays the option at that
    index, hence one of the six options, and with an event source present
    the handler never raises. *)
Theorem speed_settings_stay_valid (keys : list (string * bool))
    (s : speed_settings) :
  speed_ok s ->
  speed_ok (on_keys keys s) /\
  In (interval (on_keys keys s)) speed_options /\
  (forall key, snd (on_key key true (on_keys keys s)) <> None).
Proof.
  intros Hs. pose proof (on_keys_speed_ok keys s Hs) as Hok.
  split; [exact Hok|]. split.
  - destruct Hok as [_ Hnth]. by apply nth_error_In in Hnth.
  - intros key. by apply on_key_no_raise.
Qed.

Lemma speed_settings_stay_valid_witness :
  speed_ok (on_keys (("+", true) :: ("+", true) :: ("+", true)
                     :: ("-", false) :: (" ", true) :: nil) initial_speed) /\
  In (interval (on_keys (("+", true) :: ("+", true) :: ("+", true)
                         :: ("-", false) :: (" ", true) :: nil) initial_speed))
    speed_options /\
  (forall key,
     snd (on_key key true
            (on_keys (("+", true) :: ("+", true) :: ("+", true)
                      :: ("-", false) :: (" ", true) :: nil) initial_speed))
     <> None).
Proof.
  apply (speed_settings_stay_valid
           (("+", true) :: ("+", true) :: ("+", true)
            :: ("-", false) :: (" ", true) :: nil) initial_speed).
  unfold speed_ok. simpl. split; [lia | reflexivity].
Defined.

(** X23. The speed keys saturate and undo each other: at the fastest
    setting "+" changes nothing and has no effect, at the slowest "-"
    likewise; away from the ends "+" followed by "-" (or "-" followed by
    "+") restores the settings; "=" behaves as "+"; and pressing the space
    bar twice with an event source restores the pause flag. *)
Theorem speed_keys_saturate_and_undo (has_source : bool) (s : speed_settings) :
  speed_ok s ->
  (index s = 0 -> on_key "+" has_source s = (s, Some nil)) /\
  (index s = Z.of_nat (length speed_options) - 1 ->
   on_key "-" has_source s = (s, Some nil)) /\
  (0 < index s ->
   fst (on_key "-" has_source (fst (on_key "+" has_source s))) = s) /\
  (index s < Z.of_nat (length speed_options) - 1 ->
   fst (on_key "+" has_source (fst (on_key "-" has_source s))) = s) /\
  on_key "=" has_source s = on_key "+" has_source s /\
  fst (on_key " " true (fst (on_key " " true s))) = s.
Proof.
  intros [Hrange Hnth]. destruct s as [iv ix p]. simpl in *.
  split; [|split; [|split; [|split; [|split]]]].
  - intros ->. reflexivity.
  - intros ->. reflexivity.
  - intros Hpos. unfold on_key at 2. simpl.
    destruct (0 <? ix) eqn:E0; [|apply Z.ltb_ge in E0; lia].
    destruct (speed_options_lookup (ix - 1)) as (ms & Hpy & _);
      [simpl; lia|]. rewrite Hpy. simpl. unfold on_key. simpl.
    destruct (ix - 1 <? Z.of_nat 6 - 1) eqn:E1;
      [|apply Z.ltb_ge in E1; lia].
    replace (ix - 1 + 1) with ix by lia.
    rewrite py_index_in_range, Hnth by (simpl; lia). reflexivity.
  - intros Hlt. unfold on_key at 2. simpl.
    destruct (ix <? Z.of_nat 6 - 1) eqn:E0; [|apply Z.ltb_ge in E0; lia].
    destruct (speed_options_lookup (ix + 1)) as (ms & Hpy & _);
      [simpl; lia|]. rewrite Hpy. simpl. unfold on_key. simpl.
    destruct (0 <? ix + 1) eqn:E1; [|apply Z.ltb_ge in E1; lia].
    replace (ix + 1 - 1) with ix by lia.
    rewrite py_index_in_range, Hnth by (simpl; lia). reflexivity.
  - reflexivity.
  - unfold on_key. simpl. by destruct p.
Qed.

Lemma speed_keys_saturate_and_undo_witness :
  (index initial_speed = 0 -> on_key "+" true initial_speed =
                              (initial_speed, Some nil)) /\
  (index initial_speed = Z.of_nat (length speed_options) - 1 ->
   on_key "-" true initial_speed = (initial_speed, Some nil)) /\
  (0 < index initial_speed ->
   fst (on_key "-" true (fst (on_key "+" true initial_speed)))
   = initial_speed) /\
  (index initial_speed < Z.of_nat (length speed_options) - 1 ->
   fst (on_key "+" true (fst (on_key "-" true initial_speed)))
   = initial_speed) /\
  on_key "=" true initial_speed = on_key "+" true initial_speed /\
  fst (on_key " " true (fst (on_key " " true initial_speed))) = initial_speed.
Proof.
  apply (speed_keys_saturate_and_undo true initial_speed).
  unfold speed_ok. simpl. split; [lia | reflexivity].
Defined.

(** ** Timeline colours *)

(** X24. In the timeline plots every cluster gets a colour slot of its
    own: for [k >= 1] clusters the colour list has exactly [k] entries, so
    the slot [idx % len(colors_list)] of the cluster enumerated at [idx] is
    [idx] itself and no two clusters share a slot. *)
Theorem color_slots_distinct (k idx : Z) :
  0 <= idx < k ->
  n_colors k = k /\ color_slot k idx = idx /\
  (forall idx', 0 <= idx' < k ->
                color_slot k idx = color_slot k idx' -> idx = idx').
Proof.
  intros H.
  assert (n_colors k = k) as Hn.
  { unfold n_colors. destruct (20 <? k) eqn:E; [reflexivity|].
    apply Z.ltb_ge in E. lia. }
  assert (forall i, 0 <= i < k -> color_slot k i = i) as Hslot.
  { intros i Hi. unfold color_slot. rewrite Hn. by apply Z.mod_small. }
  split; [exact Hn|]. split; [by apply Hslot|].
  intros idx' H' Heq. rewrite !Hslot in Heq by assumption. exact Heq.
Qed.

Lemma color_slots_distinct_witness :
  n_colors 25 = 25 /\ color_slot 25 21 = 21 /\
  (forall idx', 0 <= idx' < 25 ->
                color_slot 25 21 = color_slot 25 idx' -> 21 = idx').
Proof. apply (color_slots_distinct 25 21). lia. Defined.
